(** * Bounded-concurrency job engines: ConcurrentJobQueue, ConcurrentWorkerPool
      and the one-shot runner runJobs.

    The classes are event-loop programs: every method body and every
    continuation after an [await] runs to its next suspension point without
    interleaving.  The embedding therefore has one state record holding the
    private fields of the class together with the run-time objects those
    fields point to (coroutines, promises, the results array, interval
    timers), and one transition per uninterrupted synchronous segment.  The
    environment chooses the order of the segments, when and how each job
    settles, and how time passes.

    Conventions:
    - [concurrency] is an integer (the one-shot guard also sees [null],
      [undefined] and [NaN]);
    - a job body does not call the engine before its first [await];
    - timers are ideal: an interval fires when the clock reaches its due
      time, and the clock does not pass a due time without the timer
      firing;
    - fields whose names are not in the source ([signalled], [idleResolved],
      [submitted], [produced], [invocations], [warnLog], [idleChecks], ...)
      record what the run-time did: which promises were resolved, which
      calls were made. *)

From stdpp Require Import base numbers list option gmap strings pretty.

Open Scope Z_scope.

(** ** Job / JobResult / JobContext (job.ts) *)

(** Values that flow through the engine untouched: results, thrown reasons
    and the entries of a properties object. *)
Inductive JsVal : Type :=
  | VUndefined
  | VNum (n : Z)
  | VStr (s : string).

(** [P = Record<string, unknown>]: an object literal, keys in insertion order. *)
Definition Props : Type := list (string * JsVal).

(** A job: the body [execute] is opaque to the engine and is represented by a
    handle; how and when the promise it returns settles is chosen by the
    environment (see [Settle] below). *)
Record Job : Type := mkJob {
  execute : nat;
  properties : Props
}.

Inductive JobResult : Type :=
  | Fulfilled (value : JsVal) (props : Props)
  | Rejected (reason : JsVal) (props : Props).

Definition resultProperties (r : JobResult) : Props :=
  match r with
  | Fulfilled _ p => p
  | Rejected _ p => p
  end.

(** How the promise returned by [job.execute(...)] settles. *)
Inductive Settlement : Type :=
  | Resolves (value : JsVal)
  | Throws (reason : JsVal).

(** The [try]/[catch] around [await job.execute(...)]. *)
Definition toJobResult (r : Settlement) (p : Props) : JobResult :=
  match r with
  | Resolves v => Fulfilled v p
  | Throws e => Rejected e p
  end.

(** Object spread.  [assign k v o] is [o[k] = v]; [spread a b] is
    [{ ...a, ...b }]: the keys of [a], overwritten by [b], then the new keys
    of [b]. *)
Fixpoint assign (k : string) (v : JsVal) (o : Props) : Props :=
  match o with
  | [] => [(k, v)]
  | (k', v') :: o' =>
      if String.eqb k k' then (k, v) :: o' else (k', v') :: assign k v o'
  end.

Definition spread (a b : Props) : Props :=
  fold_left (fun o kv => assign (fst kv) (snd kv) o) b a.

(** [const context: JobContext = { workerId }] *)
Definition jobContext (workerId : Z) : Props := [("workerId"%string, VNum workerId)].

(** The argument of [job.execute]: [{ ...context, properties: job.properties }]. *)
Record ExecuteCall : Type := mkExecuteCall {
  callBody : nat;
  callWorkerId : Z;
  callProperties : Props
}.

(** One call of [logger.warn(message, { minutes }, payload)].  [warnAt] and
    [warnCoroutine] are bookkeeping: the clock value at the call and the
    coroutine whose interval made it. *)
Record WarnCall : Type := mkWarnCall {
  warnMessage : string;
  warnMinutes : Z;
  warnPayload : Props;
  warnAt : Z;
  warnCoroutine : nat
}.

Definition watchdogPeriod : Z := 60000.

(** The body of the [setInterval] callback, run when the clock shows [t]. *)
Definition watchdogReport (w : nat) (workerId : Z) (p : Props) (startTime t : Z)
  : WarnCall :=
  {| warnMessage := "Long-running job detected."%string;
     warnMinutes := (t - startTime) `div` 60000;
     warnPayload := spread (jobContext workerId) p;
     warnAt := t;
     warnCoroutine := w |}.

(** [reportsSince w st log]: the reports made by the interval
    of coroutine [w] after time [st]; [expectedReports ... k]: one report at
    each of the first [k] multiples of the period after [st]. *)
Definition reportsSince (w : nat) (st : Z) (log : list WarnCall)
  : list WarnCall :=
  filter (λ r, warnCoroutine r = w ∧ st < warnAt r) log.

Definition expectedReports (w : nat) (wid : Z) (p : Props) (st : Z) (k : nat)
  : list WarnCall :=
  map (λ i, watchdogReport w wid p st (st + watchdogPeriod * Z.of_nat i))
    (seq 1 k).

(** A thrown error object: its constructor name and its message. *)
Record JsError : Type := mkError {
  errorName : string;
  errorMessage : string
}.

(** Result of a call that may throw. *)
Inductive Res (A : Type) : Type :=
  | Ok (a : A)
  | Throw (e : JsError).
Arguments Ok {A} a.
Arguments Throw {A} e.

(** The job an [execute] call was made for: its body and the [properties]
    of the context it received. *)
Definition callJob (c : ExecuteCall) : Job :=
  mkJob (callBody c) (callProperties c).

(** Reading a property, [o[k]]. *)
Fixpoint lookupProp (k : string) (o : Props) : option JsVal :=
  match o with
  | [] => None
  | (k', v) :: o' => if String.eqb k k' then Some v else lookupProp k o'
  end.

(** ** numberOfCpus (numberOfCpus.ts) *)

(** [cpus().length || 1]; the argument is the array [cpus()] returns. *)
Definition numberOfCpus {A : Type} (cpus : list A) : Z :=
  let n := Z.of_nat (length cpus) in
  if bool_decide (n = 0) then 1 else n.

(** ** The pool engines *)

Module Engine.

(** Which class: [ConcurrentJobQueue] pushes outcomes onto [results];
    [ConcurrentWorkerPool] resolves one promise per job. *)
Inductive Variant : Type := Accumulate | PromisePerJob.

(** [JobWithId]; the queue variant stores the job without an id. *)
Record QueuedJob : Type := mkQueuedJob {
  job : Job;
  concurrentJobId : option nat
}.

(** Where a [worker(workerId)] coroutine stands between two segments. *)
Inductive WorkerState : Type :=
  | WAwaitWork (p : nat)
      (* suspended in [await this.waitForWorkAvailable()], on promise [p] *)
  | WExecuting (j : QueuedJob) (startTime nextFire : Z) (resolve : option nat)
      (* suspended in [await job.execute(...)]; the interval next fires at
         [nextFire]; [resolve] is the local [const resolve] of the pool *)
  | WTerminated
      (* the async function returned *)
  | WCrashed.
      (* the async function threw *)

Record Coroutine : Type := mkCoroutine {
  workerId : Z;
  wstate : WorkerState
}.

(** A pending call of [finishAllWork], suspended in
    [await Promise.all(this.workers)] on the array it read. *)
Record FinishCall : Type := mkFinishCall {
  awaited : list nat;
  finished : bool
}.

Definition loc : Type := nat.

Record State := mkState {
  variant : Variant;
  concurrency : Z;
  jobCounter : nat;
  resolveMap : gmap nat nat;
  queue : list QueuedJob;
  results : loc;
  activeJobs : Z;
  waitingResolvers : list nat;
  workers : list nat;
  isAcceptingWork : bool;
  workAvailablePromise : option nat;
  resolveWorkAvailable : option nat;
  coroutines : list Coroutine;
  heap : gmap loc (list JobResult);
  jobPromises : list (option JobResult);
  signalCount : nat;
  signalled : list nat;
  idleCount : nat;
  idleResolved : list nat;
  finishCalls : list FinishCall;
  now : Z;
  warnLog : list WarnCall;
  invocations : list ExecuteCall;
  submitted : list Job;
  produced : list JobResult;
  idleChecks : nat
}.

Definition set_jobCounter (v : nat) (s : State) : State :=
  {| variant := variant s; concurrency := concurrency s; jobCounter := v;
     resolveMap := resolveMap s; queue := queue s; results := results s;
     activeJobs := activeJobs s; waitingResolvers := waitingResolvers s;
     workers := workers s; isAcceptingWork := isAcceptingWork s;
     workAvailablePromise := workAvailablePromise s; resolveWorkAvailable :=
     resolveWorkAvailable s; coroutines := coroutines s; heap := heap s;
     jobPromises := jobPromises s; signalCount := signalCount s; signalled :=
     signalled s; idleCount := idleCount s; idleResolved := idleResolved s;
     finishCalls := finishCalls s; now := now s; warnLog := warnLog s;
     invocations := invocations s; submitted := submitted s; produced :=
     produced s; idleChecks := idleChecks s |}.

Definition set_resolveMap (v : gmap nat nat) (s : State) : State :=
  {| variant := variant s; concurrency := concurrency s; jobCounter :=
     jobCounter s; resolveMap := v; queue := queue s; results := results s;
     activeJobs := activeJobs s; waitingResolvers := waitingResolvers s;
     workers := workers s; isAcceptingWork := isAcceptingWork s;
     workAvailablePromise := workAvailablePromise s; resolveWorkAvailable :=
     resolveWorkAvailable s; coroutines := coroutines s; heap := heap s;
     jobPromises := jobPromises s; signalCount := signalCount s; signalled :=
     signalled s; idleCount := idleCount s; idleResolved := idleResolved s;
     finishCalls := finishCalls s; now := now s; warnLog := warnLog s;
     invocations := invocations s; submitted := submitted s; produced :=
     produced s; idleChecks := idleChecks s |}.

Definition set_queue (v : list QueuedJob) (s : State) : State :=
  {| variant := variant s; concurrency := concurrency s; jobCounter :=
     jobCounter s; resolveMap := resolveMap s; queue := v; results := results
     s; activeJobs := activeJobs s; waitingResolvers := waitingResolvers s;
     workers := workers s; isAcceptingWork := isAcceptingWork s;
     workAvailablePromise := workAvailablePromise s; resolveWorkAvailable :=
     resolveWorkAvailable s; coroutines := coroutines s; heap := heap s;
     jobPromises := jobPromises s; signalCount := signalCount s; signalled :=
     signalled s; idleCount := idleCount s; idleResolved := idleResolved s;
     finishCalls := finishCalls s; now := now s; warnLog := warnLog s;
     invocations := invocations s; submitted := submitted s; produced :=
     produced s; idleChecks := idleChecks s |}.

Definition set_activeJobs (v : Z) (s : State) : State :=
  {| variant := variant s; concurrency := concurrency s; jobCounter :=
     jobCounter s; resolveMap := resolveMap s; queue := queue s; results :=
     results s; activeJobs := v; waitingResolvers := waitingResolvers s;
     workers := workers s; isAcceptingWork := isAcceptingWork s;
     workAvailablePromise := workAvailablePromise s; resolveWorkAvailable :=
     resolveWorkAvailable s; coroutines := coroutines s; heap := heap s;
     jobPromises := jobPromises s; signalCount := signalCount s; signalled :=
     signalled s; idleCount := idleCount s; idleResolved := idleResolved s;
     finishCalls := finishCalls s; now := now s; warnLog := warnLog s;
     invocations := invocations s; submitted := submitted s; produced :=
     produced s; idleChecks := idleChecks s |}.

Definition set_waitingResolvers (v : list nat) (s : State) : State :=
  {| variant := variant s; concurrency := concurrency s; jobCounter :=
     jobCounter s; resolveMap := resolveMap s; queue := queue s; results :=
     results s; activeJobs := activeJobs s; waitingResolvers := v; workers :=
     workers s; isAcceptingWork := isAcceptingWork s; workAvailablePromise :=
     workAvailablePromise s; resolveWorkAvailable := resolveWorkAvailable s;
     coroutines := coroutines s; heap := heap s; jobPromises := jobPromises s;
     signalCount := signalCount s; signalled := signalled s; idleCount :=
     idleCount s; idleResolved := idleResolved s; finishCalls := finishCalls
     s; now := now s; warnLog := warnLog s; invocations := invocations s;
     submitted := submitted s; produced := produced s; idleChecks :=
     idleChecks s |}.

Definition set_workers (v : list nat) (s : State) : State :=
  {| variant := variant s; concurrency := concurrency s; jobCounter :=
     jobCounter s; resolveMap := resolveMap s; queue := queue s; results :=
     results s; activeJobs := activeJobs s; waitingResolvers :=
     waitingResolvers s; workers := v; isAcceptingWork := isAcceptingWork s;
     workAvailablePromise := workAvailablePromise s; resolveWorkAvailable :=
     resolveWorkAvailable s; coroutines := coroutines s; heap := heap s;
     jobPromises := jobPromises s; signalCount := signalCount s; signalled :=
     signalled s; idleCount := idleCount s; idleResolved := idleResolved s;
     finishCalls := finishCalls s; now := now s; warnLog := warnLog s;
     invocations := invocations s; submitted := submitted s; produced :=
     produced s; idleChecks := idleChecks s |}.

Definition set_isAcceptingWork (v : bool) (s : State) : State :=
  {| variant := variant s; concurrency := concurrency s; jobCounter :=
     jobCounter s; resolveMap := resolveMap s; queue := queue s; results :=
     results s; activeJobs := activeJobs s; waitingResolvers :=
     waitingResolvers s; workers := workers s; isAcceptingWork := v;
     workAvailablePromise := workAvailablePromise s; resolveWorkAvailable :=
     resolveWorkAvailable s; coroutines := coroutines s; heap := heap s;
     jobPromises := jobPromises s; signalCount := signalCount s; signalled :=
     signalled s; idleCount := idleCount s; idleResolved := idleResolved s;
     finishCalls := finishCalls s; now := now s; warnLog := warnLog s;
     invocations := invocations s; submitted := submitted s; produced :=
     produced s; idleChecks := idleChecks s |}.

Definition set_workAvailablePromise (v : option nat) (s : State) : State :=
  {| variant := variant s; concurrency := concurrency s; jobCounter :=
     jobCounter s; resolveMap := resolveMap s; queue := queue s; results :=
     results s; activeJobs := activeJobs s; waitingResolvers :=
     waitingResolvers s; workers := workers s; isAcceptingWork :=
     isAcceptingWork s; workAvailablePromise := v; resolveWorkAvailable :=
     resolveWorkAvailable s; coroutines := coroutines s; heap := heap s;
     jobPromises := jobPromises s; signalCount := signalCount s; signalled :=
     signalled s; idleCount := idleCount s; idleResolved := idleResolved s;
     finishCalls := finishCalls s; now := now s; warnLog := warnLog s;
     invocations := invocations s; submitted := submitted s; produced :=
     produced s; idleChecks := idleChecks s |}.

Definition set_resolveWorkAvailable (v : option nat) (s : State) : State :=
  {| variant := variant s; concurrency := concurrency s; jobCounter :=
     jobCounter s; resolveMap := resolveMap s; queue := queue s; results :=
     results s; activeJobs := activeJobs s; waitingResolvers :=
     waitingResolvers s; workers := workers s; isAcceptingWork :=
     isAcceptingWork s; workAvailablePromise := workAvailablePromise s;
     resolveWorkAvailable := v; coroutines := coroutines s; heap := heap s;
     jobPromises := jobPromises s; signalCount := signalCount s; signalled :=
     signalled s; idleCount := idleCount s; idleResolved := idleResolved s;
     finishCalls := finishCalls s; now := now s; warnLog := warnLog s;
     invocations := invocations s; submitted := submitted s; produced :=
     produced s; idleChecks := idleChecks s |}.

Definition set_coroutines (v : list Coroutine) (s : State) : State :=
  {| variant := variant s; concurrency := concurrency s; jobCounter :=
     jobCounter s; resolveMap := resolveMap s; queue := queue s; results :=
     results s; activeJobs := activeJobs s; waitingResolvers :=
     waitingResolvers s; workers := workers s; isAcceptingWork :=
     isAcceptingWork s; workAvailablePromise := workAvailablePromise s;
     resolveWorkAvailable := resolveWorkAvailable s; coroutines := v; heap :=
     heap s; jobPromises := jobPromises s; signalCount := signalCount s;
     signalled := signalled s; idleCount := idleCount s; idleResolved :=
     idleResolved s; finishCalls := finishCalls s; now := now s; warnLog :=
     warnLog s; invocations := invocations s; submitted := submitted s;
     produced := produced s; idleChecks := idleChecks s |}.

Definition set_heap (v : gmap loc (list JobResult)) (s : State) : State :=
  {| variant := variant s; concurrency := concurrency s; jobCounter :=
     jobCounter s; resolveMap := resolveMap s; queue := queue s; results :=
     results s; activeJobs := activeJobs s; waitingResolvers :=
     waitingResolvers s; workers := workers s; isAcceptingWork :=
     isAcceptingWork s; workAvailablePromise := workAvailablePromise s;
     resolveWorkAvailable := resolveWorkAvailable s; coroutines := coroutines
     s; heap := v; jobPromises := jobPromises s; signalCount := signalCount s;
     signalled := signalled s; idleCount := idleCount s; idleResolved :=
     idleResolved s; finishCalls := finishCalls s; now := now s; warnLog :=
     warnLog s; invocations := invocations s; submitted := submitted s;
     produced := produced s; idleChecks := idleChecks s |}.

Definition set_jobPromises (v : list (option JobResult)) (s : State) : State :=
  {| variant := variant s; concurrency := concurrency s; jobCounter :=
     jobCounter s; resolveMap := resolveMap s; queue := queue s; results :=
     results s; activeJobs := activeJobs s; waitingResolvers :=
     waitingResolvers s; workers := workers s; isAcceptingWork :=
     isAcceptingWork s; workAvailablePromise := workAvailablePromise s;
     resolveWorkAvailable := resolveWorkAvailable s; coroutines := coroutines
     s; heap := heap s; jobPromises := v; signalCount := signalCount s;
     signalled := signalled s; idleCount := idleCount s; idleResolved :=
     idleResolved s; finishCalls := finishCalls s; now := now s; warnLog :=
     warnLog s; invocations := invocations s; submitted := submitted s;
     produced := produced s; idleChecks := idleChecks s |}.

Definition set_signalCount (v : nat) (s : State) : State :=
  {| variant := variant s; concurrency := concurrency s; jobCounter :=
     jobCounter s; resolveMap := resolveMap s; queue := queue s; results :=
     results s; activeJobs := activeJobs s; waitingResolvers :=
     waitingResolvers s; workers := workers s; isAcceptingWork :=
     isAcceptingWork s; workAvailablePromise := workAvailablePromise s;
     resolveWorkAvailable := resolveWorkAvailable s; coroutines := coroutines
     s; heap := heap s; jobPromises := jobPromises s; signalCount := v;
     signalled := signalled s; idleCount := idleCount s; idleResolved :=
     idleResolved s; finishCalls := finishCalls s; now := now s; warnLog :=
     warnLog s; invocations := invocations s; submitted := submitted s;
     produced := produced s; idleChecks := idleChecks s |}.

Definition set_signalled (v : list nat) (s : State) : State :=
  {| variant := variant s; concurrency := concurrency s; jobCounter :=
     jobCounter s; resolveMap := resolveMap s; queue := queue s; results :=
     results s; activeJobs := activeJobs s; waitingResolvers :=
     waitingResolvers s; workers := workers s; isAcceptingWork :=
     isAcceptingWork s; workAvailablePromise := workAvailablePromise s;
     resolveWorkAvailable := resolveWorkAvailable s; coroutines := coroutines
     s; heap := heap s; jobPromises := jobPromises s; signalCount :=
     signalCount s; signalled := v; idleCount := idleCount s; idleResolved :=
     idleResolved s; finishCalls := finishCalls s; now := now s; warnLog :=
     warnLog s; invocations := invocations s; submitted := submitted s;
     produced := produced s; idleChecks := idleChecks s |}.

Definition set_idleCount (v : nat) (s : State) : State :=
  {| variant := variant s; concurrency := concurrency s; jobCounter :=
     jobCounter s; resolveMap := resolveMap s; queue := queue s; results :=
     results s; activeJobs := activeJobs s; waitingResolvers :=
     waitingResolvers s; workers := workers s; isAcceptingWork :=
     isAcceptingWork s; workAvailablePromise := workAvailablePromise s;
     resolveWorkAvailable := resolveWorkAvailable s; coroutines := coroutines
     s; heap := heap s; jobPromises := jobPromises s; signalCount :=
     signalCount s; signalled := signalled s; idleCount := v; idleResolved :=
     idleResolved s; finishCalls := finishCalls s; now := now s; warnLog :=
     warnLog s; invocations := invocations s; submitted := submitted s;
     produced := produced s; idleChecks := idleChecks s |}.

Definition set_idleResolved (v : list nat) (s : State) : State :=
  {| variant := variant s; concurrency := concurrency s; jobCounter :=
     jobCounter s; resolveMap := resolveMap s; queue := queue s; results :=
     results s; activeJobs := activeJobs s; waitingResolvers :=
     waitingResolvers s; workers := workers s; isAcceptingWork :=
     isAcceptingWork s; workAvailablePromise := workAvailablePromise s;
     resolveWorkAvailable := resolveWorkAvailable s; coroutines := coroutines
     s; heap := heap s; jobPromises := jobPromises s; signalCount :=
     signalCount s; signalled := signalled s; idleCount := idleCount s;
     idleResolved := v; finishCalls := finishCalls s; now := now s; warnLog :=
     warnLog s; invocations := invocations s; submitted := submitted s;
     produced := produced s; idleChecks := idleChecks s |}.

Definition set_finishCalls (v : list FinishCall) (s : State) : State :=
  {| variant := variant s; concurrency := concurrency s; jobCounter :=
     jobCounter s; resolveMap := resolveMap s; queue := queue s; results :=
     results s; activeJobs := activeJobs s; waitingResolvers :=
     waitingResolvers s; workers := workers s; isAcceptingWork :=
     isAcceptingWork s; workAvailablePromise := workAvailablePromise s;
     resolveWorkAvailable := resolveWorkAvailable s; coroutines := coroutines
     s; heap := heap s; jobPromises := jobPromises s; signalCount :=
     signalCount s; signalled := signalled s; idleCount := idleCount s;
     idleResolved := idleResolved s; finishCalls := v; now := now s; warnLog
     := warnLog s; invocations := invocations s; submitted := submitted s;
     produced := produced s; idleChecks := idleChecks s |}.

Definition set_now (v : Z) (s : State) : State :=
  {| variant := variant s; concurrency := concurrency s; jobCounter :=
     jobCounter s; resolveMap := resolveMap s; queue := queue s; results :=
     results s; activeJobs := activeJobs s; waitingResolvers :=
     waitingResolvers s; workers := workers s; isAcceptingWork :=
     isAcceptingWork s; workAvailablePromise := workAvailablePromise s;
     resolveWorkAvailable := resolveWorkAvailable s; coroutines := coroutines
     s; heap := heap s; jobPromises := jobPromises s; signalCount :=
     signalCount s; signalled := signalled s; idleCount := idleCount s;
     idleResolved := idleResolved s; finishCalls := finishCalls s; now := v;
     warnLog := warnLog s; invocations := invocations s; submitted :=
     submitted s; produced := produced s; idleChecks := idleChecks s |}.

Definition set_warnLog (v : list WarnCall) (s : State) : State :=
  {| variant := variant s; concurrency := concurrency s; jobCounter :=
     jobCounter s; resolveMap := resolveMap s; queue := queue s; results :=
     results s; activeJobs := activeJobs s; waitingResolvers :=
     waitingResolvers s; workers := workers s; isAcceptingWork :=
     isAcceptingWork s; workAvailablePromise := workAvailablePromise s;
     resolveWorkAvailable := resolveWorkAvailable s; coroutines := coroutines
     s; heap := heap s; jobPromises := jobPromises s; signalCount :=
     signalCount s; signalled := signalled s; idleCount := idleCount s;
     idleResolved := idleResolved s; finishCalls := finishCalls s; now := now
     s; warnLog := v; invocations := invocations s; submitted := submitted s;
     produced := produced s; idleChecks := idleChecks s |}.

Definition set_invocations (v : list ExecuteCall) (s : State) : State :=
  {| variant := variant s; concurrency := concurrency s; jobCounter :=
     jobCounter s; resolveMap := resolveMap s; queue := queue s; results :=
     results s; activeJobs := activeJobs s; waitingResolvers :=
     waitingResolvers s; workers := workers s; isAcceptingWork :=
     isAcceptingWork s; workAvailablePromise := workAvailablePromise s;
     resolveWorkAvailable := resolveWorkAvailable s; coroutines := coroutines
     s; heap := heap s; jobPromises := jobPromises s; signalCount :=
     signalCount s; signalled := signalled s; idleCount := idleCount s;
     idleResolved := idleResolved s; finishCalls := finishCalls s; now := now
     s; warnLog := warnLog s; invocations := v; submitted := submitted s;
     produced := produced s; idleChecks := idleChecks s |}.

Definition set_submitted (v : list Job) (s : State) : State :=
  {| variant := variant s; concurrency := concurrency s; jobCounter :=
     jobCounter s; resolveMap := resolveMap s; queue := queue s; results :=
     results s; activeJobs := activeJobs s; waitingResolvers :=
     waitingResolvers s; workers := workers s; isAcceptingWork :=
     isAcceptingWork s; workAvailablePromise := workAvailablePromise s;
     resolveWorkAvailable := resolveWorkAvailable s; coroutines := coroutines
     s; heap := heap s; jobPromises := jobPromises s; signalCount :=
     signalCount s; signalled := signalled s; idleCount := idleCount s;
     idleResolved := idleResolved s; finishCalls := finishCalls s; now := now
     s; warnLog := warnLog s; invocations := invocations s; submitted := v;
     produced := produced s; idleChecks := idleChecks s |}.

Definition set_produced (v : list JobResult) (s : State) : State :=
  {| variant := variant s; concurrency := concurrency s; jobCounter :=
     jobCounter s; resolveMap := resolveMap s; queue := queue s; results :=
     results s; activeJobs := activeJobs s; waitingResolvers :=
     waitingResolvers s; workers := workers s; isAcceptingWork :=
     isAcceptingWork s; workAvailablePromise := workAvailablePromise s;
     resolveWorkAvailable := resolveWorkAvailable s; coroutines := coroutines
     s; heap := heap s; jobPromises := jobPromises s; signalCount :=
     signalCount s; signalled := signalled s; idleCount := idleCount s;
     idleResolved := idleResolved s; finishCalls := finishCalls s; now := now
     s; warnLog := warnLog s; invocations := invocations s; submitted :=
     submitted s; produced := v; idleChecks := idleChecks s |}.

Definition set_idleChecks (v : nat) (s : State) : State :=
  {| variant := variant s; concurrency := concurrency s; jobCounter :=
     jobCounter s; resolveMap := resolveMap s; queue := queue s; results :=
     results s; activeJobs := activeJobs s; waitingResolvers :=
     waitingResolvers s; workers := workers s; isAcceptingWork :=
     isAcceptingWork s; workAvailablePromise := workAvailablePromise s;
     resolveWorkAvailable := resolveWorkAvailable s; coroutines := coroutines
     s; heap := heap s; jobPromises := jobPromises s; signalCount :=
     signalCount s; signalled := signalled s; idleCount := idleCount s;
     idleResolved := idleResolved s; finishCalls := finishCalls s; now := now
     s; warnLog := warnLog s; invocations := invocations s; submitted :=
     submitted s; produced := produced s; idleChecks := v |}.

(** The state right after [new ConcurrentJobQueue(c, logger)] or
    [new ConcurrentWorkerPool(c, logger)]; the results array lives at
    address 0 of the heap. *)
Definition init (v : Variant) (c : Z) : State :=
  {| variant := v; concurrency := c; jobCounter := 0; resolveMap := ∅;
     queue := []; results := 0%nat; activeJobs := 0; waitingResolvers := [];
     workers := []; isAcceptingWork := true; workAvailablePromise := None;
     resolveWorkAvailable := None; coroutines := [];
     heap := {[ 0%nat := [] ]}; jobPromises := []; signalCount := 0;
     signalled := []; idleCount := 0; idleResolved := []; finishCalls := [];
     now := 0; warnLog := []; invocations := []; submitted := [];
     produced := []; idleChecks := 0 |}.

(** [get queueLength()] and [get activeJobCount()] *)
Definition queueLength (s : State) : nat := length (queue s).
Definition activeJobCount (s : State) : Z := activeJobs s.

(** [getResults()]: returns the field, a reference. *)
Definition getResults (s : State) : loc := results s.

(** Reading an array through a reference. *)
Definition deref (s : State) (l : loc) : list JobResult :=
  default [] (heap s !! l).

(** [this.activeJobs === 0 && this.queue.length === 0] *)
Definition isIdle (s : State) : bool :=
  bool_decide (activeJobs s = 0) && bool_decide (length (queue s) = 0%nat).

Definition waitForWorkAvailable (s : State) : nat * State :=
  match workAvailablePromise s with
  | None =>
      let p := signalCount s in
      (p, set_resolveWorkAvailable (Some p)
            (set_workAvailablePromise (Some p)
               (set_signalCount (S p) s)))
  | Some p => (p, s)
  end.

Definition notifyWorkersOfNewWork (s : State) : State :=
  match resolveWorkAvailable s with
  | Some p =>
      set_resolveWorkAvailable None
        (set_workAvailablePromise None
           (set_signalled (signalled s ++ [p]) s))
  | None => s
  end.

Definition checkIfIdle (s : State) : State :=
  let s := set_idleChecks (S (idleChecks s)) s in
  if isIdle s then
    set_waitingResolvers []
      (set_idleResolved (idleResolved s ++ waitingResolvers s) s)
  else s.

(** [const resolve = this.resolveMap[job.concurrentJobId]] (pool only). *)
Definition lookupResolver (s : State) (j : QueuedJob) : option nat :=
  match variant s with
  | Accumulate => None
  | PromisePerJob => id ← concurrentJobId j; resolveMap s !! id
  end.

(** One pass of [worker] from the head of its [while] loop to the next
    [await] or [return]: the state the coroutine is left in, and the engine
    state. *)
Definition workerLoop (wid : Z) (s : State) : WorkerState * State :=
  if isAcceptingWork s || bool_decide (0 < length (queue s))%nat then
    match queue s with
    | [] =>
        if negb (isAcceptingWork s) then (WTerminated, s)
        else
          let '(p, s1) := waitForWorkAvailable s in
          (WAwaitWork p, s1)
    | j :: rest =>
        let s1 := set_queue rest s in
        let s2 := set_activeJobs (activeJobs s1 + 1) s1 in
        let call := mkExecuteCall (execute (job j)) wid (properties (job j)) in
        let s3 := set_invocations (invocations s2 ++ [call]) s2 in
        (WExecuting j (now s) (now s + watchdogPeriod) (lookupResolver s j), s3)
    end
  else (WTerminated, s).

Definition install (w : nat) (wid : Z) (r : WorkerState * State) : State :=
  let '(st, s) := r in
  set_coroutines (<[w := mkCoroutine wid st]> (coroutines s)) s.

(** One iteration of the [for] loop of [ensureWorkers]:
    [this.workers.push(this.worker(i + 1))].  The call [this.worker(i + 1)]
    runs to its first [await] before the push. *)
Definition spawnWorker (s : State) (i : nat) : State :=
  let wid := Z.of_nat i + 1 in
  let w := length (coroutines s) in
  let '(st, s1) := workerLoop wid s in
  let s2 := set_coroutines (coroutines s1 ++ [mkCoroutine wid st]) s1 in
  set_workers (workers s2 ++ [w]) s2.

Definition ensureWorkers (s : State) : State :=
  if bool_decide (length (workers s) = 0%nat) && isAcceptingWork s then
    foldl spawnWorker s (seq 0 (Z.to_nat (concurrency s)))
  else s.

(** [resolve(o)] on the [p]-th per-job promise: settles it if pending. *)
Definition resolvePromise (p : nat) (o : JobResult)
    (ps : list (option JobResult)) : list (option JobResult) :=
  match ps !! p with
  | Some None => <[p := Some o]> ps
  | _ => ps
  end.

(** The queue entry of [enqueue]: the job itself in the queue class; in the
    pool the executor of [new Promise] takes the next id, files the resolver
    under it and queues the job with the id.  [submitted] records the
    accepted jobs in order. *)
Definition pushJob (j : Job) (s : State) : State :=
  let s0 := set_submitted (submitted s ++ [j]) s in
  match variant s0 with
  | Accumulate =>
      set_queue (queue s0 ++ [mkQueuedJob j None]) s0
  | PromisePerJob =>
      let p := length (jobPromises s0) in
      let jobId := jobCounter s0 in
      let a := set_jobPromises (jobPromises s0 ++ [None]) s0 in
      let b := set_jobCounter (S jobId) a in
      let c := set_resolveMap (<[jobId := p]> (resolveMap b)) b in
      set_queue (queue c ++ [mkQueuedJob j (Some jobId)]) c
  end.

(** [enqueue(job)] *)
Definition enqueue (j : Job) (s : State) : Res State :=
  if negb (isAcceptingWork s) then
    Throw (mkError "Error" "Cannot enqueue jobs after shutdown")
  else Ok (notifyWorkersOfNewWork (ensureWorkers (pushJob j s))).

(** [enqueueAll(jobs)]: stops at the first call that throws. *)
Fixpoint enqueueAll (js : list Job) (s : State) : Res State :=
  match js with
  | [] => Ok s
  | j :: js' =>
      match enqueue j s with
      | Ok s' => enqueueAll js' s'
      | Throw m => Throw m
      end
  end.

(** [waitForIdle()]: the promise it returns, and the new state. *)
Definition waitForIdle (s : State) : nat * State :=
  let p := idleCount s in
  let s1 := set_idleCount (S p) s in
  if isIdle s1 then (p, set_idleResolved (idleResolved s1 ++ [p]) s1)
  else (p, set_waitingResolvers (waitingResolvers s1 ++ [p]) s1).

(** [finishAllWork()] up to its [await]. *)
Definition finishAllWork (s : State) : State :=
  let s1 := set_isAcceptingWork false s in
  let s2 := notifyWorkersOfNewWork s1 in
  set_finishCalls (finishCalls s2 ++ [mkFinishCall (workers s2) false]) s2.

Definition isTerminated (s : State) (w : nat) : bool :=
  match coroutines s !! w with
  | Some (mkCoroutine _ WTerminated) => true
  | _ => false
  end.

(** [finishAllWork()] after its [await]: [this.workers = []]. *)
Definition finishResume (k : nat) (s : State) : option State :=
  match finishCalls s !! k with
  | Some (mkFinishCall ws false) =>
      if forallb (isTerminated s) ws then
        Some (set_finishCalls (<[k := mkFinishCall ws true]> (finishCalls s))
                (set_workers [] s))
      else None
  | _ => None
  end.

(** [worker] after [await this.waitForWorkAvailable()]: [continue]. *)
Definition resume (w : nat) (s : State) : option State :=
  match coroutines s !! w with
  | Some (mkCoroutine wid (WAwaitWork p)) =>
      if bool_decide (p ∈ signalled s) then Some (install w wid (workerLoop wid s))
      else None
  | _ => None
  end.

(** Handing the outcome to the delivery strategy.  In the pool a missing
    resolver makes the call throw. *)
Definition deliver (resolve : option nat) (o : JobResult) (s : State)
  : option State :=
  match variant s with
  | Accumulate =>
      Some (set_produced (produced s ++ [o])
              (set_heap (alter (λ a, a ++ [o]) (results s) (heap s)) s))
  | PromisePerJob =>
      match resolve with
      | Some p =>
          Some (set_produced (produced s ++ [o])
                  (set_jobPromises (resolvePromise p o (jobPromises s)) s))
      | None => None
      end
  end.

(** The [finally] block; [clearInterval] is the coroutine leaving
    [WExecuting]. *)
Definition finallyBlock (j : QueuedJob) (s : State) : State :=
  let s1 := set_activeJobs (activeJobs s - 1) s in
  let s2 := checkIfIdle s1 in
  match variant s2, concurrentJobId j with
  | PromisePerJob, Some id => set_resolveMap (delete id (resolveMap s2)) s2
  | _, _ => s2
  end.

(** [worker] after [await job.execute(...)] settled with [r]. *)
Definition settle (w : nat) (r : Settlement) (s : State) : option State :=
  match coroutines s !! w with
  | Some (mkCoroutine wid (WExecuting j _ _ res)) =>
      match deliver res (toJobResult r (properties (job j))) s with
      | Some s1 => Some (install w wid (workerLoop wid (finallyBlock j s1)))
      | None => Some (install w wid (WCrashed, finallyBlock j s))
      end
  | _ => None
  end.

(** Interval timers. *)
Definition nextFireOf (c : Coroutine) : option Z :=
  match wstate c with
  | WExecuting _ _ nf _ => Some nf
  | _ => None
  end.

Definition noTimerBefore (t : Z) (s : State) : bool :=
  forallb (λ c, match nextFireOf c with
                | Some nf => bool_decide (t ≤ nf)
                | None => true
                end) (coroutines s).

(** The clock moves on by [d] without passing a pending timer. *)
Definition elapse (d : Z) (s : State) : option State :=
  if bool_decide (0 ≤ d) && noTimerBefore (now s + d) s
  then Some (set_now (now s + d) s) else None.

(** The interval of coroutine [w] is the earliest pending timer and fires. *)
Definition timerFire (w : nat) (s : State) : option State :=
  match coroutines s !! w with
  | Some (mkCoroutine wid (WExecuting j st nf res)) =>
      if bool_decide (now s ≤ nf) && noTimerBefore nf s then
        let s1 := set_now nf s in
        let s2 := set_warnLog
                    (warnLog s1 ++
                       [watchdogReport w wid (properties (job j)) st nf]) s1 in
        Some (set_coroutines
                (<[w := mkCoroutine wid (WExecuting j st (nf + watchdogPeriod) res)]>
                   (coroutines s2)) s2)
      else None
  | _ => None
  end.

(** The caller writes through a reference to an array. *)
Definition callerWrite (l : loc) (a : list JobResult) (s : State) : State :=
  set_heap (<[l := a]> (heap s)) s.

(** What the environment can do next. *)
Inductive Event : Type :=
  | Enqueue (j : Job)
  | WaitForIdle
  | FinishAllWork
  | FinishResume (k : nat)
  | Resume (w : nat)
  | Settle (w : nat) (r : Settlement)
  | Elapse (d : Z)
  | TimerFire (w : nat)
  | CallerWrite (l : loc) (a : list JobResult).

(** [None]: the event cannot happen in [s]. *)
Definition step (s : State) (e : Event) : option State :=
  match e with
  | Enqueue j =>
      match enqueue j s with
      | Ok s' => Some s'
      | Throw _ => Some s
      end
  | WaitForIdle => Some (snd (waitForIdle s))
  | FinishAllWork => Some (finishAllWork s)
  | FinishResume k => finishResume k s
  | Resume w => resume w s
  | Settle w r => settle w r s
  | Elapse d => elapse d s
  | TimerFire w => timerFire w s
  | CallerWrite l a => Some (callerWrite l a s)
  end.

Fixpoint run (s : State) (es : list Event) : option State :=
  match es with
  | [] => Some s
  | e :: es' =>
      match step s e with
      | Some s' => run s' es'
      | None => None
      end
  end.

Inductive reachable (v : Variant) (c : Z) : State → Prop :=
  | reachable_init : reachable v c (init v c)
  | reachable_step s e s' :
      reachable v c s → step s e = Some s' → reachable v c s'.

(** The caller leaves the arrays alone. *)
Definition isCallerWrite (e : Event) : bool :=
  match e with
  | CallerWrite _ _ => true
  | _ => false
  end.

Definition noCallerWrite (es : list Event) : Prop :=
  forallb (λ e, negb (isCallerWrite e)) es = true.

(** ** Observations on a state *)

Definition isExecuting (c : Coroutine) : bool :=
  match wstate c with
  | WExecuting _ _ _ _ => true
  | _ => false
  end.

(** The coroutines suspended inside [job.execute]: the in-flight jobs. *)
Definition inFlight (cs : list Coroutine) : nat :=
  length (List.filter isExecuting cs).

Definition executingJob (c : Coroutine) : option QueuedJob :=
  match wstate c with
  | WExecuting j _ _ _ => Some j
  | _ => None
  end.

Definition executingJobs (cs : list Coroutine) : list QueuedJob :=
  omap executingJob cs.

Definition allTerminated (cs : list Coroutine) : Prop :=
  ∀ w c, cs !! w = Some c → wstate c = WTerminated.

(** A call of [finishAllWork] has returned. *)
Definition shutdownResolved (s : State) : Prop :=
  ∃ k ws, finishCalls s !! k = Some (mkFinishCall ws true).

(** ** Invariants of the reachable states *)

(** Worker pool and shutdown.  [d] is 1 inside a segment that has already
    decremented [activeJobs] for a coroutine still recorded as executing,
    and 0 between segments. *)
Record LifeAt (d : Z) (c : Z) (s : State) : Prop := mkLife {
  life_conc : concurrency s = c;
  life_active : activeJobs s + d = Z.of_nat (inFlight (coroutines s));
  life_len :
    length (coroutines s) = 0%nat ∨ length (coroutines s) = Z.to_nat c;
  life_ids :
    ∀ i co, coroutines s !! i = Some co → workerId co = Z.of_nat i + 1;
  life_workers :
    workers s = seq 0 (length (coroutines s)) ∨
    (isAcceptingWork s = false ∧ workers s = [] ∧ allTerminated (coroutines s));
  life_term :
    ∀ w co, coroutines s !! w = Some co → wstate co = WTerminated →
      isAcceptingWork s = false ∧ queue s = [];
  life_empty : coroutines s = [] → queue s = [] ∨ c ≤ 0;
  life_first : coroutines s = [] → submitted s = [] ∨ c ≤ 0;
  life_calls :
    ∀ k call, finishCalls s !! k = Some call →
      isAcceptingWork s = false ∧
      (awaited call = seq 0 (length (coroutines s)) ∨ allTerminated (coroutines s)) ∧
      (finished call = true → allTerminated (coroutines s))
}.

Definition Life : Z → State → Prop := LifeAt 0.

(** The work-availability signal.  A promise made by
    [waitForWorkAvailable] is either resolved ([signalled]) or the one in
    the slot. *)
Record Sig (s : State) : Prop := mkSig {
  sig_slot : workAvailablePromise s = resolveWorkAvailable s;
  sig_fresh :
    ∀ p, resolveWorkAvailable s = Some p →
      (p < signalCount s)%nat ∧ p ∉ signalled s;
  sig_bound : ∀ p, p ∈ signalled s → (p < signalCount s)%nat;
  sig_once : NoDup (signalled s);
  sig_wait :
    ∀ w co p, coroutines s !! w = Some co → wstate co = WAwaitWork p →
      p ∈ signalled s ∨ resolveWorkAvailable s = Some p
}.

(** A worker sleeps on an unresolved promise only while there is nothing to
    do. *)
Definition Quiet (s : State) : Prop :=
  ∀ w co p, coroutines s !! w = Some co → wstate co = WAwaitWork p →
    p ∉ signalled s → queue s = [] ∧ isAcceptingWork s = true.

(** Idle waiters: nobody is left waiting in an idle engine, and every
    [waitForIdle] promise is resolved at most once. *)
Record IdleInv (s : State) : Prop := mkIdleInv {
  idle_level : isIdle s = true → waitingResolvers s = [];
  idle_once : NoDup (idleResolved s ++ waitingResolvers s);
  idle_bound :
    ∀ p, p ∈ idleResolved s ++ waitingResolvers s → (p < idleCount s)%nat
}.

(** Delivery.  [ex] lists the jobs whose [execute] is in flight. *)
Definition jobProps (qj : QueuedJob) : Props := properties (job qj).

Record PoolInv (pending : list QueuedJob) (s : State) : Prop := mkPoolInv {
  pool_counter : jobCounter s = length (submitted s);
  pool_promises : length (jobPromises s) = length (submitted s);
  pool_distinct : NoDup (omap concurrentJobId pending);
  pool_pending :
    ∀ qj, qj ∈ pending →
      ∃ id, concurrentJobId qj = Some id ∧ resolveMap s !! id = Some id ∧
            jobPromises s !! id = Some None ∧
            submitted s !! id = Some (job qj);
  pool_unsettled :
    ∀ i, jobPromises s !! i = Some None → i ∈ omap concurrentJobId pending;
  pool_settled :
    ∀ i o, jobPromises s !! i = Some (Some o) →
      ∃ j, submitted s !! i = Some j ∧ resultProperties o = properties j
}.

Record DelivOn (ex : list QueuedJob) (s : State) : Prop := mkDelivOn {
  dl_cons :
    map properties (submitted s) ≡ₚ
      map resultProperties (produced s) ++
      map jobProps (queue s) ++ map jobProps ex;
  dl_pool : variant s = PromisePerJob → PoolInv (queue s ++ ex) s
}.

(** Executing coroutines hold the resolver of their job; none has thrown. *)
Definition healthy (v : Variant) (st : WorkerState) : Prop :=
  match st with
  | WExecuting j _ _ res => v = PromisePerJob → res = concurrentJobId j
  | WCrashed => False
  | _ => True
  end.

Record Deliv (s : State) : Prop := mkDeliv {
  dv_on : DelivOn (executingJobs (coroutines s)) s;
  dv_healthy :
    ∀ w co, coroutines s !! w = Some co → healthy (variant s) (wstate co)
}.

(** The watchdog. *)
Definition ClockOk (t : Z) (log : list WarnCall) (w : nat) (co : Coroutine)
  : Prop :=
  match wstate co with
  | WExecuting j st nf _ =>
      ∃ k : nat,
        nf = st + watchdogPeriod * (Z.of_nat k + 1) ∧
        st ≤ t ∧ t ≤ nf ∧ nf ≤ t + watchdogPeriod ∧
        reportsSince w st log = expectedReports w (workerId co) (jobProps j) st k
  | _ => True
  end.

Record Clock (s : State) : Prop := mkClock {
  clock_log : ∀ r, r ∈ warnLog s → warnAt r ≤ now s;
  clock_co :
    ∀ w co, coroutines s !! w = Some co → ClockOk (now s) (warnLog s) w co
}.

(** What shutdown promises: once a call of [finishAllWork] has returned,
    nothing is queued and nothing runs. *)
Definition shutdownDrains (v : Variant) (c : Z) : Prop :=
  ∀ s, reachable v c s → shutdownResolved s →
    queueLength s = 0%nat ∧ activeJobCount s = 0.


(** The lost-wakeup clause of the signal, read on the primitive alone: a
    [waitForWorkAvailable] that follows a [notifyWorkersOfNewWork] returns a
    promise that is already resolved. *)
Definition armAfterNotifyIsResolved (s : State) : Prop :=
  let s1 := notifyWorkersOfNewWork s in
  fst (waitForWorkAvailable s1) ∈ signalled (snd (waitForWorkAvailable s1)).

(** ** Auxiliary notions used in the proofs *)

(** [deliver] either throws (pool, no resolver) or records the outcome. *)
Definition delivered (resolve : option nat) (o : JobResult) (s : State) : State :=
  set_produced (produced s ++ [o])
    (set_heap
       (match variant s with
        | Accumulate => alter (λ a, a ++ [o]) (results s) (heap s)
        | PromisePerJob => heap s
        end)
       (set_jobPromises
          (match variant s, resolve with
           | PromisePerJob, Some p => resolvePromise p o (jobPromises s)
           | _, _ => jobPromises s
           end) s)).

(** What one pass of the worker loop does. *)
Inductive LoopOutcome (wid : Z) (s : State) : WorkerState → State → Prop :=
  | loop_return :
      queue s = [] → isAcceptingWork s = false →
      LoopOutcome wid s WTerminated s
  | loop_wait :
      queue s = [] → isAcceptingWork s = true →
      LoopOutcome wid s (WAwaitWork (fst (waitForWorkAvailable s)))
        (snd (waitForWorkAvailable s))
  | loop_start j rest :
      queue s = j :: rest →
      LoopOutcome wid s
        (WExecuting j (now s) (now s + watchdogPeriod) (lookupResolver s j))
        (set_invocations
           (invocations s ++
              [mkExecuteCall (execute (job j)) wid (properties (job j))])
           (set_activeJobs (activeJobs s + 1) (set_queue rest s))).

(** [isExecuting] on the state alone. *)
Definition isExecutingState (st : WorkerState) : bool :=
  match st with
  | WExecuting _ _ _ _ => true
  | _ => false
  end.

(** The pool while [ensureWorkers] is creating it: [k] workers so far. *)
Record Spawning (c : Z) (k : nat) (s : State) : Prop := mkSpawning {
  sp_accepting : isAcceptingWork s = true;
  sp_conc : concurrency s = c;
  sp_len : length (coroutines s) = k;
  sp_workers : workers s = seq 0 k;
  sp_active : activeJobs s = Z.of_nat (inFlight (coroutines s));
  sp_ids : ∀ i co, coroutines s !! i = Some co → workerId co = Z.of_nat i + 1;
  sp_live : ∀ i co, coroutines s !! i = Some co → wstate co ≠ WTerminated;
  sp_calls : finishCalls s = []
}.

(** The job a worker state holds, as a list. *)
Definition executingJobOf (st : WorkerState) : list QueuedJob :=
  match st with
  | WExecuting j _ _ _ => [j]
  | _ => []
  end.

(** [s'] has the same results array, idle waiters, delivered outcomes,
    signals already sent, shutdown calls, clock and log as [s]. *)
Definition untouched (s s' : State) : Prop :=
  variant s' = variant s ∧ concurrency s' = concurrency s ∧
  results s' = results s ∧ heap s' = heap s ∧
  isAcceptingWork s' = isAcceptingWork s ∧
  waitingResolvers s' = waitingResolvers s ∧
  idleResolved s' = idleResolved s ∧ idleCount s' = idleCount s ∧
  idleChecks s' = idleChecks s ∧ submitted s' = submitted s ∧
  produced s' = produced s ∧ jobPromises s' = jobPromises s ∧
  signalled s' = signalled s ∧ finishCalls s' = finishCalls s ∧
  now s' = now s ∧ warnLog s' = warnLog s.

(** The results array exists and, in the accumulate variant, holds the
    outcomes produced so far. *)
Definition HeapOk (s : State) : Prop :=
  is_Some (heap s !! results s) ∧
  (variant s = Accumulate → heap s !! results s = Some (produced s)).

(** The part of the state that decides what runs next. *)
Definition scheduling (s : State) :=
  (queue s, activeJobs s, coroutines s, workers s, isAcceptingWork s,
   waitingResolvers s, idleResolved s, resolveWorkAvailable s, signalled s,
   invocations s).


(** ** Order of execution and pending ids *)

(** Jobs are started in the order they were accepted. *)
Definition Fifo (s : State) : Prop :=
  map callJob (invocations s) ++ map job (queue s) = submitted s.

(** Ids of the jobs waiting in the queue or running. *)
Definition pendingIds (s : State) : list nat :=
  omap concurrentJobId (queue s ++ executingJobs (coroutines s)).

(** Every resolver on file belongs to a job that is queued or running. *)
Definition Resolvers (s : State) : Prop :=
  ∀ id p, resolveMap s !! id = Some p →
    variant s = PromisePerJob ∧ id ∈ pendingIds s.

(** Every [execute] call so far was made by a worker numbered [1..hi]. *)
Definition CallsFrom (hi : Z) (s : State) : Prop :=
  ∀ call, call ∈ invocations s → 1 ≤ callWorkerId call ≤ hi.

(** ** Progress *)

(** What the worker loops do by themselves: a woken worker resumes, a job
    settles. *)
Definition isWorkerEvent (e : Event) : bool :=
  match e with
  | Resume _ | Settle _ _ => true
  | _ => false
  end.

(** Work left: two segments per queued job (start, end), one per running
    job. *)
Definition workLeft (s : State) : nat :=
  (2 * length (queue s) + inFlight (coroutines s))%nat.

Definition isAwaiting (c : Coroutine) : bool :=
  match wstate c with
  | WAwaitWork _ => true
  | _ => false
  end.

(** Workers suspended in [await this.waitForWorkAvailable()]. *)
Definition sleeping (cs : list Coroutine) : nat :=
  length (List.filter isAwaiting cs).

(** The schedule [es], run from [s], settles every job as [out]
    prescribes. *)
Fixpoint settlesAs (out : Job → Settlement) (s : State) (es : list Event)
  : Prop :=
  match es with
  | [] => True
  | e :: es' =>
      (∀ w r, e = Settle w r →
         ∃ co j, coroutines s !! w = Some co ∧ executingJob co = Some j ∧
                 r = out (job j)) ∧
      match step s e with
      | Some s' => settlesAs out s' es'
      | None => True
      end
  end.

(** ** Completion order *)

(** The Outcome an event delivers: the end of the job running on worker
    [w]. *)
Definition outcomeOf (s : State) (e : Event) : list JobResult :=
  match e with
  | Settle w r =>
      match coroutines s !! w with
      | Some (mkCoroutine _ (WExecuting j _ _ _)) =>
          [toJobResult r (properties (job j))]
      | _ => []
      end
  | _ => []
  end.

(** The Outcomes delivered along a run, in the order of the events. *)
Fixpoint outcomesOf (s : State) (es : list Event) : list JobResult :=
  match es with
  | [] => []
  | e :: es' =>
      outcomeOf s e ++
      match step s e with
      | Some s' => outcomesOf s' es'
      | None => []
      end
  end.

(** ** The two classes side by side *)




End Engine.

(** ** The one-shot runner [runJobs] *)

Module OneShot.

(** The [concurrency] argument as the guard sees it: [null], [undefined],
    [NaN] or an integer. *)
Inductive Concurrency : Type :=
  | CNull
  | CUndefined
  | CNaN
  | CInt (n : Z).

(** Template-literal rendering [`${concurrency}`]. *)
Definition render (c : Concurrency) : string :=
  match c with
  | CNull => "null"
  | CUndefined => "undefined"
  | CNaN => "NaN"
  | CInt n => pretty n
  end.

Definition invalidConcurrency (c : Concurrency) : JsError :=
  mkError "Error"
    ("Invalid concurrency: " +:+ render c +:+ ". Must be a positive integer.").

(** What [Array(NaN)] throws. *)
Definition invalidArrayLength : JsError :=
  mkError "RangeError" "Invalid array length".

(** [concurrency == null || concurrency === undefined || concurrency <= 0];
    every comparison with [NaN] is false. *)
Definition guardRejects (c : Concurrency) : bool :=
  match c with
  | CNull | CUndefined => true
  | CNaN => false
  | CInt n => bool_decide (n ≤ 0)
  end.

(** [Math.min(concurrency, jobs.length)] as an array length, for an argument
    that passed the guard: [None] when it is [NaN]. *)
Definition poolSize (c : Concurrency) (len : nat) : option nat :=
  match c with
  | CInt n => Some (Z.to_nat (Z.min n (Z.of_nat len)))
  | _ => None
  end.

Inductive WorkerState : Type :=
  | RExecuting (i : nat) (startTime nextFire : Z)
      (* suspended in [await jobs[i].execute(...)] *)
  | RDone.
      (* returned *)

Record Worker : Type := mkWorker {
  workerId : Z;
  wstate : WorkerState
}.

Record State : Type := mkState {
  jobs : list Job;
  nextIndex : nat;
  results : list (option JobResult);
  workers : list Worker;
  now : Z;
  warnLog : list WarnCall;
  invocations : list ExecuteCall
}.

Definition set_nextIndex (v : nat) (s : State) : State :=
  {| jobs := jobs s; nextIndex := v; results := results s; workers := workers
     s; now := now s; warnLog := warnLog s; invocations := invocations s |}.

Definition set_results (v : list (option JobResult)) (s : State) : State :=
  {| jobs := jobs s; nextIndex := nextIndex s; results := v; workers :=
     workers s; now := now s; warnLog := warnLog s; invocations := invocations
     s |}.

Definition set_workers (v : list Worker) (s : State) : State :=
  {| jobs := jobs s; nextIndex := nextIndex s; results := results s; workers
     := v; now := now s; warnLog := warnLog s; invocations := invocations s
     |}.

Definition set_now (v : Z) (s : State) : State :=
  {| jobs := jobs s; nextIndex := nextIndex s; results := results s; workers
     := workers s; now := v; warnLog := warnLog s; invocations := invocations
     s |}.

Definition set_warnLog (v : list WarnCall) (s : State) : State :=
  {| jobs := jobs s; nextIndex := nextIndex s; results := results s; workers
     := workers s; now := now s; warnLog := v; invocations := invocations s
     |}.

Definition set_invocations (v : list ExecuteCall) (s : State) : State :=
  {| jobs := jobs s; nextIndex := nextIndex s; results := results s; workers
     := workers s; now := now s; warnLog := warnLog s; invocations := v |}.

(** [results[i] = o]: a write past the end extends the array with holes. *)
Definition arraySet (i : nat) (o : JobResult) (a : list (option JobResult))
  : list (option JobResult) :=
  if bool_decide (i < length a)%nat then <[i := Some o]> a
  else a ++ replicate (i - length a) None ++ [Some o].

(** One pass of [worker] from the head of [while (true)] to the next
    [await] or [return]. *)
Definition workerLoop (wid : Z) (s : State) : WorkerState * State :=
  let i := nextIndex s in
  let s1 := set_nextIndex (S i) s in
  match jobs s !! i with
  | None => (RDone, s1)
  | Some j =>
      let call := mkExecuteCall (execute j) wid (properties j) in
      (RExecuting i (now s) (now s + watchdogPeriod),
       set_invocations (invocations s1 ++ [call]) s1)
  end.

(** [.map((_, idx) => worker(idx + 1))], one element. *)
Definition spawnWorker (s : State) (idx : nat) : State :=
  let wid := Z.of_nat idx + 1 in
  let '(st, s1) := workerLoop wid s in
  set_workers (workers s1 ++ [mkWorker wid st]) s1.

Definition start (js : list Job) : State :=
  {| jobs := js; nextIndex := 0; results := []; workers := []; now := 0;
     warnLog := []; invocations := [] |}.

(** [runJobs(jobs, concurrency, logger)] up to [await Promise.all(workers)]. *)
Definition runJobs (js : list Job) (c : Concurrency) : Res State :=
  if guardRejects c then Throw (invalidConcurrency c)
  else
    match poolSize c (length js) with
    | None => Throw invalidArrayLength
    | Some n => Ok (foldl spawnWorker (start js) (seq 0 n))
    end.

(** [worker] after [await jobs[i].execute(...)] settled with [r]. *)
Definition settle (w : nat) (r : Settlement) (s : State) : option State :=
  match workers s !! w with
  | Some (mkWorker wid (RExecuting i _ _)) =>
      match jobs s !! i with
      | Some j =>
          let s1 := set_results
                      (arraySet i (toJobResult r (properties j)) (results s)) s in
          let '(st, s2) := workerLoop wid s1 in
          Some (set_workers (<[w := mkWorker wid st]> (workers s2)) s2)
      | None => None
      end
  | _ => None
  end.

Definition nextFireOf (x : Worker) : option Z :=
  match wstate x with
  | RExecuting _ _ nf => Some nf
  | RDone => None
  end.

Definition noTimerBefore (t : Z) (s : State) : bool :=
  forallb (λ x, match nextFireOf x with
                | Some nf => bool_decide (t ≤ nf)
                | None => true
                end) (workers s).

Definition elapse (d : Z) (s : State) : option State :=
  if bool_decide (0 ≤ d) && noTimerBefore (now s + d) s
  then Some (set_now (now s + d) s) else None.

Definition timerFire (w : nat) (s : State) : option State :=
  match workers s !! w with
  | Some (mkWorker wid (RExecuting i st nf)) =>
      match jobs s !! i with
      | Some j =>
          if bool_decide (now s ≤ nf) && noTimerBefore nf s then
            let s1 := set_now nf s in
            let s2 := set_warnLog
                        (warnLog s1 ++ [watchdogReport w wid (properties j) st nf])
                        s1 in
            Some (set_workers
                    (<[w := mkWorker wid (RExecuting i st (nf + watchdogPeriod))]>
                       (workers s2)) s2)
          else None
      | None => None
      end
  | _ => None
  end.

Inductive Event : Type :=
  | Settle (w : nat) (r : Settlement)
  | Elapse (d : Z)
  | TimerFire (w : nat).

Definition step (s : State) (e : Event) : option State :=
  match e with
  | Settle w r => settle w r s
  | Elapse d => elapse d s
  | TimerFire w => timerFire w s
  end.

Fixpoint run (s : State) (es : list Event) : option State :=
  match es with
  | [] => Some s
  | e :: es' =>
      match step s e with
      | Some s' => run s' es'
      | None => None
      end
  end.

(** States of a call [runJobs(js, c, logger)] that passed the guard. *)
Inductive reachable (js : list Job) (c : Concurrency) : State → Prop :=
  | reachable_start s : runJobs js c = Ok s → reachable js c s
  | reachable_step s e s' :
      reachable js c s → step s e = Some s' → reachable js c s'.

Definition isDone (x : Worker) : bool :=
  match wstate x with
  | RDone => true
  | RExecuting _ _ _ => false
  end.

(** What the promise returned by [runJobs] resolves with, once
    [Promise.all(workers)] has. *)
Definition resolved (s : State) : option (list (option JobResult)) :=
  if forallb isDone (workers s) then Some (results s) else None.

(** Indices whose job is in flight. *)
Definition executingIndex (x : Worker) : option nat :=
  match wstate x with
  | RExecuting i _ _ => Some i
  | RDone => None
  end.

Definition executing (ws : list Worker) : list nat := omap executingIndex ws.

(** Bookkeeping of the cursor.  [ex] lists the indices whose job is in
    flight. *)
Record RunInv (ex : list nat) (s : State) : Prop := mkRunInv {
  ri_distinct : NoDup ex;
  ri_claimed :
    ∀ i, i ∈ ex → (i < nextIndex s)%nat ∧ (i < length (jobs s))%nat;
  ri_settled :
    ∀ i, (i < nextIndex s)%nat → (i < length (jobs s))%nat →
      i ∈ ex ∨
      ∃ o j, results s !! i = Some (Some o) ∧ jobs s !! i = Some j ∧
             resultProperties o = properties j;
  ri_written :
    ∀ i o, results s !! i = Some (Some o) →
      (i < nextIndex s)%nat ∧ i ∉ ex;
  ri_length : (length (results s) ≤ length (jobs s))%nat;
  ri_calls :
    map callBody (invocations s) = map execute (take (nextIndex s) (jobs s))
}.

Record PoolOk (js : list Job) (n : nat) (s : State) : Prop := mkPoolOk {
  po_jobs : jobs s = js;
  po_size : length (workers s) = n;
  po_ids : ∀ w x, workers s !! w = Some x → workerId x = Z.of_nat w + 1;
  po_done :
    ∀ w x, workers s !! w = Some x → isDone x = true →
      (length (jobs s) ≤ nextIndex s)%nat;
  po_run : RunInv (executing (workers s)) s
}.

(** The watchdog of a worker. *)
Definition ClockOk (js : list Job) (t : Z) (log : list WarnCall) (w : nat)
    (x : Worker) : Prop :=
  match wstate x with
  | RExecuting i st nf =>
      ∃ (j : Job) (k : nat),
        js !! i = Some j ∧
        nf = st + watchdogPeriod * (Z.of_nat k + 1) ∧
        st ≤ t ∧ t ≤ nf ∧ nf ≤ t + watchdogPeriod ∧
        reportsSince w st log = expectedReports w (workerId x) (properties j) st k
  | RDone => True
  end.

Record Clock (s : State) : Prop := mkClock {
  clock_log : ∀ r, r ∈ warnLog s → warnAt r ≤ now s;
  clock_workers :
    ∀ w x, workers s !! w = Some x →
      ClockOk (jobs s) (now s) (warnLog s) w x
}.

(** The index a worker state holds, as a list. *)
Definition indexOf (st : WorkerState) : list nat :=
  match st with
  | RExecuting i _ _ => [i]
  | RDone => []
  end.

(** Work left: indices not yet claimed plus jobs in flight. *)
Definition remaining (s : State) : nat :=
  (length (jobs s) - nextIndex s) + length (executing (workers s)).

(** The [execute] calls made so far are those of the first [nextIndex]
    jobs, in order, each made by a worker numbered [1..hi]. *)
Record CallsOk (hi : Z) (s : State) : Prop := mkCallsOk {
  co_jobs : map callJob (invocations s) = take (nextIndex s) (jobs s);
  co_ids : ∀ call, call ∈ invocations s → 1 ≤ callWorkerId call ≤ hi
}.

(** What [runJobs] has done when it reaches [await Promise.all(workers)]
    with [k] workers: job [i] was started on worker [i + 1], at time 0. *)
Definition startedCalls (js : list Job) (k : nat) : list ExecuteCall :=
  imap (λ i j, mkExecuteCall (execute j) (Z.of_nat i + 1) (properties j))
    (take k js).

Definition startedWorkers (js : list Job) (k : nat) : list Worker :=
  imap (λ i _, mkWorker (Z.of_nat i + 1) (RExecuting i 0 watchdogPeriod))
    (take k js).

(** A job settles. *)
Definition isSettle (e : Event) : bool :=
  match e with
  | Settle _ _ => true
  | _ => false
  end.

End OneShot.
(** ** Concrete runs, after the test suites *)

Module Demo.

Definition job1 : Job := mkJob 1 [("id"%string, VNum 1)].
Definition job2 : Job := mkJob 2 [("id"%string, VNum 2)].
Definition job3 : Job := mkJob 3 [("id"%string, VNum 3)].

Definition testError : JsVal := VStr "test error".

(** Concurrency 2, three jobs, the second one throws; then shutdown. *)
Definition poolTrace : list Engine.Event :=
  [Engine.Enqueue job1; Engine.Enqueue job2; Engine.Enqueue job3;
   Engine.WaitForIdle; Engine.Resume 1;
   Engine.Settle 1 (Throws testError);
   Engine.Settle 0 (Resolves (VStr "success1"));
   Engine.Settle 1 (Resolves (VStr "success2"))].

Definition shutdownTrace : list Engine.Event :=
  poolTrace ++
  [Engine.FinishAllWork; Engine.Resume 0; Engine.Resume 1;
   Engine.FinishResume 0].

Definition runPool (v : Engine.Variant) (c : Z) (es : list Engine.Event)
  : Engine.State :=
  default (Engine.init v c) (Engine.run (Engine.init v c) es).


Definition oneShotStart (js : list Job) (c : Z) : OneShot.State :=
  match OneShot.runJobs js (OneShot.CInt c) with
  | Ok s => s
  | Throw _ => OneShot.start js
  end.

Definition runOneShot (js : list Job) (c : Z) (es : list OneShot.Event)
  : OneShot.State :=
  default (oneShotStart js c) (OneShot.run (oneShotStart js c) es).

Definition oneShotTrace : list OneShot.Event :=
  [OneShot.Settle 1 (Throws testError);
   OneShot.Settle 0 (Resolves (VStr "success1"));
   OneShot.Settle 1 (Resolves (VStr "success2"))].

(** Both workers of a pool of two are busy; the second runs [job2]. *)
Definition busyTrace : list Engine.Event :=
  [Engine.Enqueue job1; Engine.Enqueue job2; Engine.Enqueue job3;
   Engine.WaitForIdle; Engine.Resume 1].

End Demo.

(** * Facts shared by the engines *)






Lemma toJobResult_properties r p : resultProperties (toJobResult r p) = p.
Proof. by destruct r. Qed.


(** * Properties of the pool engines *)

Import Engine.

Section EngineFacts.

Lemma run_app s es1 es2 :
  run s (es1 ++ es2) = run s es1 ≫= λ s', run s' es2.
Proof.
  revert s; induction es1 as [|e es1 IH]; intros s; simpl; [done|].
  destruct (step s e); simpl; auto.
Qed.

Lemma reachable_run v c s es s' :
  reachable v c s → run s es = Some s' → reachable v c s'.
Proof.
  intros Hr; revert s Hr; induction es as [|e es IH]; simpl; intros s Hr H.
  - by simplify_eq.
  - destruct (step s e) eqn:E; [|done]. eapply IH; [|done].
    by eapply reachable_step.
Qed.

Lemma reachable_trace v c s :
  reachable v c s ↔ ∃ es, run (init v c) es = Some s.
Proof.
  split.
  - induction 1 as [|s e s' _ [es Hes] Hstep].
    + by exists [].
    + exists (es ++ [e]). rewrite run_app, Hes. simpl. by rewrite Hstep.
  - intros [es Hes]. eapply reachable_run; [constructor|done].
Qed.


Lemma workerLoop_outcome wid s :
  LoopOutcome wid s (fst (workerLoop wid s)) (snd (workerLoop wid s)).
Proof.
  unfold workerLoop.
  destruct (queue s) as [|j rest] eqn:Hq; simpl.
  - destruct (isAcceptingWork s) eqn:Ha; simpl.
    + destruct (waitForWorkAvailable s) as [p s1] eqn:Hw.
      replace p with (fst (waitForWorkAvailable s)) by by rewrite Hw.
      replace s1 with (snd (waitForWorkAvailable s)) by by rewrite Hw.
      by constructor.
    + by constructor.
  - rewrite orb_true_r. simpl. by econstructor.
Qed.

Lemma install_eq w wid r :
  install w wid r =
    set_coroutines (<[w := mkCoroutine wid (fst r)]> (coroutines (snd r))) (snd r).
Proof. by destruct r. Qed.

Lemma spawnWorker_eq s i :
  spawnWorker s i =
    let r := workerLoop (Z.of_nat i + 1) s in
    set_workers (workers (snd r) ++ [length (coroutines s)])
      (set_coroutines
         (coroutines (snd r) ++ [mkCoroutine (Z.of_nat i + 1) (fst r)]) (snd r)).
Proof. unfold spawnWorker. by destruct (workerLoop _ s). Qed.

Lemma foldl_spawn_ind (P : nat → State → Prop) :
  (∀ k s, P k s → P (S k) (spawnWorker s k)) →
  ∀ n k s, P k s → P (k + n)%nat (foldl spawnWorker s (seq k n)).
Proof.
  intros Hs n; induction n as [|n IH]; intros k s HP; simpl.
  - by rewrite Nat.add_0_r.
  - replace (k + S n)%nat with (S k + n)%nat by lia. apply IH, Hs, HP.
Qed.



Ltac loop_cases_raw wid s :=
  let H := fresh "Hloop" in
  pose proof (workerLoop_outcome wid s) as H;
  destruct (workerLoop wid s) as [? ?]; simpl in H;
  inversion H; subst; clear H;
  unfold waitForWorkAvailable; simpl;
  try (destruct (workAvailablePromise _); simpl).
(** ** Each operation as a list of field updates *)

Lemma waitForWorkAvailable_snd s :
  snd (waitForWorkAvailable s) =
    match workAvailablePromise s with
    | None =>
        set_resolveWorkAvailable (Some (signalCount s))
          (set_workAvailablePromise (Some (signalCount s))
             (set_signalCount (S (signalCount s)) s))
    | Some _ => s
    end.
Proof. unfold waitForWorkAvailable. by destruct (workAvailablePromise s). Qed.

Lemma waitForWorkAvailable_fst s :
  fst (waitForWorkAvailable s) =
    default (signalCount s) (workAvailablePromise s).
Proof. unfold waitForWorkAvailable. by destruct (workAvailablePromise s). Qed.

Lemma inFlight_app cs1 cs2 : inFlight (cs1 ++ cs2) = (inFlight cs1 + inFlight cs2)%nat.
Proof. unfold inFlight. by rewrite List.filter_app, length_app. Qed.

Lemma inFlight_insert cs w c c' :
  cs !! w = Some c →
  (inFlight (<[w := c']> cs) + (if isExecuting c then 1 else 0) =
   inFlight cs + (if isExecuting c' then 1 else 0))%nat.
Proof.
  revert w; induction cs as [|x cs IH]; intros [|w] H; simplify_eq/=.
  - unfold inFlight; simpl. destruct (isExecuting c), (isExecuting c'); simpl; lia.
  - specialize (IH _ H). unfold inFlight in *; simpl.
    destruct (isExecuting x); simpl; lia.
Qed.


Lemma inFlight_zero cs :
  (∀ w c, cs !! w = Some c → isExecuting c = false) → inFlight cs = 0%nat.
Proof.
  induction cs as [|x cs IH]; intros H; [done|].
  unfold inFlight in *; simpl. rewrite (H 0%nat x eq_refl). apply IH.
  intros w c Hw. by apply (H (S w)).
Qed.


Lemma waitForWorkAvailable_norm s :
  snd (waitForWorkAvailable s) =
    set_resolveWorkAvailable
      (match workAvailablePromise s with
       | None => Some (signalCount s)
       | Some _ => resolveWorkAvailable s
       end)
      (set_workAvailablePromise
         (Some (default (signalCount s) (workAvailablePromise s)))
         (set_signalCount
            (match workAvailablePromise s with
             | None => S (signalCount s)
             | Some _ => signalCount s
             end) s)).
Proof.
  unfold waitForWorkAvailable.
  destruct (workAvailablePromise s) eqn:E; simpl; [|done].
  destruct s; simpl in *; by subst.
Qed.

Lemma notifyWorkersOfNewWork_norm s :
  notifyWorkersOfNewWork s =
    set_resolveWorkAvailable None
      (set_workAvailablePromise
         (match resolveWorkAvailable s with
          | Some _ => None
          | None => workAvailablePromise s
          end)
         (set_signalled
            (match resolveWorkAvailable s with
             | Some p => signalled s ++ [p]
             | None => signalled s
             end) s)).
Proof.
  unfold notifyWorkersOfNewWork.
  destruct (resolveWorkAvailable s) eqn:E; simpl; [done|].
  destruct s; simpl in *; by subst.
Qed.

Lemma checkIfIdle_norm s :
  checkIfIdle s =
    set_waitingResolvers (if isIdle s then [] else waitingResolvers s)
      (set_idleResolved
         (if isIdle s then idleResolved s ++ waitingResolvers s
          else idleResolved s)
         (set_idleChecks (S (idleChecks s)) s)).
Proof.
  unfold checkIfIdle.
  change (isIdle (set_idleChecks (S (idleChecks s)) s)) with (isIdle s).
  destruct (isIdle s); simpl; [done|]. by destruct s.
Qed.

Lemma finallyBlock_norm j s :
  finallyBlock j s =
    set_resolveMap
      (match variant s, concurrentJobId j with
       | PromisePerJob, Some id => delete id (resolveMap s)
       | _, _ => resolveMap s
       end)
      (checkIfIdle (set_activeJobs (activeJobs s - 1) s)).
Proof.
  unfold finallyBlock. rewrite checkIfIdle_norm. simpl.
  destruct (variant s), (concurrentJobId j); simpl; try done.
  all: by destruct s.
Qed.

Lemma waitForIdle_norm s :
  snd (waitForIdle s) =
    set_waitingResolvers
      (if isIdle s then waitingResolvers s
       else waitingResolvers s ++ [idleCount s])
      (set_idleResolved
         (if isIdle s then idleResolved s ++ [idleCount s] else idleResolved s)
         (set_idleCount (S (idleCount s)) s)).
Proof.
  unfold waitForIdle.
  change (isIdle (set_idleCount (S (idleCount s)) s)) with (isIdle s).
  destruct (isIdle s); simpl; by destruct s.
Qed.


Lemma deliver_norm resolve o s :
  deliver resolve o s =
    match variant s, resolve with
    | PromisePerJob, None => None
    | _, _ => Some (delivered resolve o s)
    end.
Proof.
  unfold deliver, delivered.
  destruct (variant s) eqn:E, resolve; simpl; try done.
  all: f_equal; by destruct s.
Qed.

Lemma pushJob_norm j s :
  pushJob j s =
    set_queue
      (queue s ++
         [mkQueuedJob j
            (match variant s with
             | Accumulate => None
             | PromisePerJob => Some (jobCounter s)
             end)])
      (set_resolveMap
         (match variant s with
          | Accumulate => resolveMap s
          | PromisePerJob => <[jobCounter s := length (jobPromises s)]> (resolveMap s)
          end)
         (set_jobCounter
            (match variant s with
             | Accumulate => jobCounter s
             | PromisePerJob => S (jobCounter s)
             end)
            (set_jobPromises
               (match variant s with
                | Accumulate => jobPromises s
                | PromisePerJob => jobPromises s ++ [None]
                end)
               (set_submitted (submitted s ++ [j]) s)))).
Proof. unfold pushJob. simpl. by destruct (variant s). Qed.

Lemma finallyBlock_coroutines j s : coroutines (finallyBlock j s) = coroutines s.
Proof. by rewrite finallyBlock_norm, checkIfIdle_norm. Qed.

Lemma finallyBlock_queue j s : queue (finallyBlock j s) = queue s.
Proof. by rewrite finallyBlock_norm, checkIfIdle_norm. Qed.

Lemma finallyBlock_isAcceptingWork j s :
  isAcceptingWork (finallyBlock j s) = isAcceptingWork s.
Proof. by rewrite finallyBlock_norm, checkIfIdle_norm. Qed.

Lemma finallyBlock_signalled j s : signalled (finallyBlock j s) = signalled s.
Proof. by rewrite finallyBlock_norm, checkIfIdle_norm. Qed.

Lemma finallyBlock_activeJobs j s :
  activeJobs (finallyBlock j s) = activeJobs s - 1.
Proof. by rewrite finallyBlock_norm, checkIfIdle_norm. Qed.

Lemma workerLoop_coroutines wid s :
  coroutines (snd (workerLoop wid s)) = coroutines s.
Proof. loop_cases_raw wid s; done. Qed.

Lemma workerLoop_variant wid s :
  variant (snd (workerLoop wid s)) = variant s.
Proof. loop_cases_raw wid s; done. Qed.


Lemma workerLoop_start wid s j rest :
  queue s = j :: rest →
  fst (workerLoop wid s) =
    WExecuting j (now s) (now s + watchdogPeriod) (lookupResolver s j) ∧
  queue (snd (workerLoop wid s)) = rest.
Proof.
  intros H. unfold workerLoop. rewrite H. simpl. by rewrite orb_true_r.
Qed.

Lemma workerLoop_not_crashed wid s : fst (workerLoop wid s) ≠ WCrashed.
Proof.
  unfold workerLoop.
  destruct (isAcceptingWork s), (queue s); simpl; try done.
  by destruct (waitForWorkAvailable s).
Qed.
(** ** The worker pool and shutdown invariant *)

Lemma Life_init v c : Life c (init v c).
Proof. split; simpl; auto; done. Qed.

Ltac loop_cases wid s :=
  let H := fresh "Hloop" in
  pose proof (workerLoop_outcome wid s) as H;
  destruct (workerLoop wid s) as [? ?]; simpl in H;
  inversion H; subst; clear H;
  rewrite ?waitForWorkAvailable_norm, ?waitForWorkAvailable_fst.

Lemma allTerminated_insert cs w wid :
  allTerminated cs → allTerminated (<[w := mkCoroutine wid WTerminated]> cs).
Proof.
  intros H i co [(-> & <- & _)|[_ Hi]]%list_lookup_insert_Some; [done|].
  by eapply H.
Qed.


Lemma Life_loop c s w wid old :
  LifeAt (if isExecutingState old then 1 else 0) c s →
  coroutines s !! w = Some (mkCoroutine wid old) →
  old ≠ WTerminated →
  Life c (install w wid (workerLoop wid s)).
Proof.
  intros [Hc Ha Hl Hi Hw Ht He Hs Hf] Hco Hold.
  rewrite install_eq.
  assert (Hnt : ¬ allTerminated (coroutines s)).
  { intros HH. by apply HH in Hco. }
  assert (Hne : ∀ x, <[w := x]> (coroutines s) ≠ []).
  { intros x Hx. apply (f_equal length) in Hx. rewrite length_insert in Hx.
    apply lookup_lt_Some in Hco. simpl in Hx. lia. }
  loop_cases wid s.
  all: split; simpl; rewrite ?length_insert; auto.
  all: try (match goal with
            | |- context [<[?i := ?x]> _] =>
                pose proof (inFlight_insert _ i _ x Hco) as Hin
            end; unfold isExecuting in Hin; destruct old; simpl in *; lia).
  all: try (intros HH; by destruct (Hne _ HH)).
  all: try (destruct Hw as [|(?&?&?)]; [auto|exfalso; auto]).
  all: try (intros i co [(-> & <- & _)|[_ Hi']]%list_lookup_insert_Some;
            simpl; [by apply Hi in Hco|by eauto]).
  all: try (intros i co [(-> & <- & _)|[_ Hi']]%list_lookup_insert_Some;
            simpl; [done|]; intros Hterm; destruct (Ht _ _ Hi' Hterm);
            congruence).
  all: intros k call Hk; destruct (Hf k call Hk) as (?&[|]&Hfin);
    try done; (split; [done|]); (split; [by left|]); intros; exfalso; auto.
Qed.

Lemma LifeAt_frame d c s s' :
  concurrency s' = concurrency s → activeJobs s' = activeJobs s →
  coroutines s' = coroutines s → workers s' = workers s →
  isAcceptingWork s' = isAcceptingWork s → queue s' = queue s →
  finishCalls s' = finishCalls s → submitted s' = submitted s →
  LifeAt d c s → LifeAt d c s'.
Proof.
  intros E1 E2 E3 E4 E5 E6 E7 E8 [].
  split; rewrite ?E1, ?E2, ?E3, ?E4, ?E5, ?E6, ?E7, ?E8; auto.
Qed.


Lemma Spawning_step c k s : Spawning c k s → Spawning c (S k) (spawnWorker s k).
Proof.
  intros [Hacc Hc Hl Hw Ha Hi Hlive Hf]. rewrite spawnWorker_eq. cbv zeta.
  loop_cases (Z.of_nat k + 1) s; [congruence| |].
  all: split; simpl; rewrite ?length_app, ?inFlight_app, ?Hw, ?Hl; simpl; auto.
  all: try lia.
  all: try (by rewrite <- seq_S).
  all: try (unfold inFlight in *; simpl; lia).
  all: intros i co [?|(Hge & Hx)]%lookup_app_Some; eauto.
  all: apply list_lookup_singleton_Some in Hx as [Hx <-]; simpl; try done.
  all: f_equal; lia.
Qed.

Lemma Spawning_Life c s :
  Life c s → isAcceptingWork s = true → workers s = [] → Spawning c 0 s.
Proof.
  intros [Hc Ha Hl Hi Hw Ht He Hs Hf] Hacc Hws.
  assert (Hnil : coroutines s = []).
  { destruct Hw as [Hw|(?&_)]; [|congruence]. rewrite Hws in Hw.
    destruct (coroutines s); [done|]. simpl in Hw. done. }
  split.
  - done.
  - done.
  - by rewrite Hnil.
  - done.
  - by rewrite Z.add_0_r in Ha.
  - done.
  - intros i co Hco Hterm. destruct (Ht _ _ Hco Hterm). congruence.
  - destruct (finishCalls s) as [|call calls] eqn:E; [done|].
    destruct (Hf 0%nat call) as (?&_); [done|congruence].
Qed.

Lemma Spawning_frame c k s s' :
  concurrency s' = concurrency s → activeJobs s' = activeJobs s →
  coroutines s' = coroutines s → workers s' = workers s →
  isAcceptingWork s' = isAcceptingWork s → finishCalls s' = finishCalls s →
  Spawning c k s → Spawning c k s'.
Proof.
  intros E1 E2 E3 E4 E5 E6 [].
  split; rewrite ?E1, ?E2, ?E3, ?E4, ?E5, ?E6; auto.
Qed.

Lemma Spawning_done c s : Spawning c (Z.to_nat c) s → Life c s.
Proof.
  intros [Hacc Hc Hl Hw Ha Hi Hlive Hf]. split; auto.
  - lia.
  - left. by rewrite Hl.
  - intros w co Hco Hterm. by destruct (Hlive _ _ Hco).
  - intros Hnil. right. rewrite Hnil in Hl. simpl in Hl. lia.
  - intros Hnil. right. rewrite Hnil in Hl. simpl in Hl. lia.
  - intros k call. by rewrite Hf.
Qed.

Lemma Life_enqueue c j s s' : Life c s → enqueue j s = Ok s' → Life c s'.
Proof.
  intros HL. unfold enqueue.
  destruct (isAcceptingWork s) eqn:Hacc; simpl; [|done]. intros [= <-].
  rewrite notifyWorkersOfNewWork_norm.
  apply (LifeAt_frame _ _ (ensureWorkers (pushJob j s))); try reflexivity.
  unfold ensureWorkers.
  assert (workers (pushJob j s) = workers s) as -> by by rewrite pushJob_norm.
  assert (isAcceptingWork (pushJob j s) = true) as ->
    by by rewrite pushJob_norm.
  assert (concurrency (pushJob j s) = c) as ->
    by (rewrite pushJob_norm; by destruct HL).
  case_bool_decide as Hws; simpl.
  - apply length_zero_iff_nil in Hws.
    apply Spawning_done.
    apply (foldl_spawn_ind (Spawning c) (Spawning_step c) (Z.to_nat c) 0%nat).
    eapply Spawning_frame; [..|by apply Spawning_Life];
      rewrite pushJob_norm; done.
  - destruct HL as [Hc Ha Hl Hi Hw Ht He Hs Hf].
    rewrite pushJob_norm. split; simpl; auto.
    + intros w co Hco Hterm. destruct (Ht _ _ Hco Hterm). congruence.
    + intros Hnil. destruct Hw as [Hw|(?&_)]; [|congruence].
      rewrite Hnil in Hw. simpl in Hw. by rewrite Hw in Hws.
    + intros Hnil. destruct Hw as [Hw|(?&_)]; [|congruence].
      rewrite Hnil in Hw. simpl in Hw. by rewrite Hw in Hws.
Qed.

Lemma LifeAt_shift c s s' :
  concurrency s' = concurrency s → activeJobs s' = activeJobs s - 1 →
  coroutines s' = coroutines s → workers s' = workers s →
  isAcceptingWork s' = isAcceptingWork s → queue s' = queue s →
  finishCalls s' = finishCalls s → submitted s' = submitted s →
  LifeAt 0 c s → LifeAt 1 c s'.
Proof.
  intros E1 E2 E3 E4 E5 E6 E7 E8 [].
  split; rewrite ?E1, ?E2, ?E3, ?E4, ?E5, ?E6, ?E7, ?E8; auto. lia.
Qed.

Lemma allTerminated_seq s :
  forallb (isTerminated s) (seq 0 (length (coroutines s))) = true →
  allTerminated (coroutines s).
Proof.
  intros H w co Hco. rewrite forallb_forall in H.
  specialize (H w). unfold isTerminated in H. rewrite Hco in H.
  destruct co as [wid st]; simpl.
  destruct st; try done.
  all: exfalso; apply diff_false_true, H, in_seq;
    apply lookup_lt_Some in Hco; lia.
Qed.

Lemma Life_finishAllWork c s : Life c s → Life c (finishAllWork s).
Proof.
  intros [Hc Ha Hl Hi Hw Ht He Hs Hf]. unfold finishAllWork.
  rewrite notifyWorkersOfNewWork_norm. split; simpl; auto.
  - destruct Hw as [|(?&?&?)]; auto.
  - intros w co Hco Hterm. destruct (Ht _ _ Hco Hterm). auto.
  - intros k call [Hk|[_ Hk]]%lookup_app_Some.
    + destruct (Hf _ _ Hk) as (?&?&?). auto.
    + apply list_lookup_singleton_Some in Hk as [_ <-]. simpl.
      split; [done|]. split; [|done].
      destruct Hw as [|(?&?&?)]; auto.
Qed.

Lemma Life_finishResume c k s s' :
  Life c s → finishResume k s = Some s' → Life c s'.
Proof.
  intros [Hc Ha Hl Hi Hw Ht He Hs Hf]. unfold finishResume.
  destruct (finishCalls s !! k) as [[ws []]|] eqn:Hk; try done.
  destruct (forallb (isTerminated s) ws) eqn:Hall; [|done]. intros [= <-].
  destruct (Hf _ _ Hk) as (Hacc & Haw & _). simpl in Haw.
  assert (Hterm : allTerminated (coroutines s)).
  { destruct Haw as [->|]; [|done]. by apply allTerminated_seq. }
  split; simpl; auto.
Qed.

Lemma Life_settle c w r s s' : Life c s → settle w r s = Some s' → Life c s'.
Proof.
  intros HL. unfold settle.
  destruct (coroutines s !! w) as [[wid [p|j st nf res| |]]|] eqn:Hco; try done.
  rewrite deliver_norm.
  assert (Hpre : ∀ s1,
    concurrency s1 = concurrency s → activeJobs s1 = activeJobs s →
    coroutines s1 = coroutines s → workers s1 = workers s →
    isAcceptingWork s1 = isAcceptingWork s → queue s1 = queue s →
    finishCalls s1 = finishCalls s → submitted s1 = submitted s →
    LifeAt 1 c (finallyBlock j s1)).
  { intros s1 E1 E2 E3 E4 E5 E6 E7 E8.
    eapply LifeAt_shift; [..|exact HL];
      rewrite finallyBlock_norm, checkIfIdle_norm; simpl; congruence. }
  assert (Hco' : ∀ s1, coroutines s1 = coroutines s →
    coroutines (finallyBlock j s1) !! w =
      Some (mkCoroutine wid (WExecuting j st nf res))).
  { intros s1 E. rewrite finallyBlock_norm, checkIfIdle_norm. simpl.
    by rewrite E. }
  destruct (variant s) eqn:Hv, res as [p|]; intros [= <-].
  1,2,3: eapply (Life_loop c _ w wid (WExecuting j st nf _));
    [apply Hpre; done|apply Hco'; done|done].
  (* the resolver is missing: the worker throws *)
  specialize (Hpre s eq_refl eq_refl eq_refl eq_refl eq_refl eq_refl eq_refl eq_refl).
  specialize (Hco' s eq_refl).
  destruct Hpre as [Hc Ha Hl Hi Hw Ht He Hs Hf]. unfold install.
  pose proof (inFlight_insert _ w _ (mkCoroutine wid WCrashed) Hco') as Hin.
  assert (Hnt : ¬ allTerminated (coroutines (finallyBlock j s))).
  { intros HH. by apply HH in Hco'. }
  split; simpl; rewrite ?length_insert; auto.
  - unfold isExecuting in Hin; simpl in Hin. lia.
  - intros i co [(-> & <- & _)|[_ Hi']]%list_lookup_insert_Some; simpl; eauto.
    by apply Hi in Hco'.
  - destruct Hw as [|(?&?&?)]; [auto|exfalso; auto].
  - intros i co [(-> & <- & _)|[_ Hi']]%list_lookup_insert_Some; simpl; eauto.
    done.
  - intros HH; exfalso. apply (f_equal length) in HH. rewrite length_insert in HH.
    apply lookup_lt_Some in Hco'. simpl in HH. lia.
  - intros HH; exfalso. apply (f_equal length) in HH. rewrite length_insert in HH.
    apply lookup_lt_Some in Hco'. simpl in HH. lia.
  - intros k call Hk. destruct (Hf k call Hk) as (?&[|]&Hfin); try done.
    split; [done|]. split; [by left|]. intros; exfalso; auto.
Qed.

Lemma Life_resume c s w s' : Life c s → resume w s = Some s' → Life c s'.
Proof.
  intros HL. unfold resume.
  destruct (coroutines s !! w) as [[wid [p| | |]]|] eqn:Hco; try done.
  case_bool_decide; [|done]. intros [= <-].
  by eapply (Life_loop c s w wid (WAwaitWork p)).
Qed.

Lemma Life_timerFire c s w s' : Life c s → timerFire w s = Some s' → Life c s'.
Proof.
  intros [Hc Ha Hl Hi Hw Ht He Hs Hf]. unfold timerFire.
  destruct (coroutines s !! w) as [[wid [p|j st nf res| |]]|] eqn:Hco; try done.
  case_match; [|done]. intros [= <-].
  pose proof (inFlight_insert _ w _
    (mkCoroutine wid (WExecuting j st (nf + watchdogPeriod) res)) Hco) as Hin.
  assert (Hnt : ¬ allTerminated (coroutines s)).
  { intros HH. by apply HH in Hco. }
  split; simpl; rewrite ?length_insert; auto.
  - unfold isExecuting in Hin; simpl in Hin. lia.
  - intros i co [(-> & <- & _)|[_ Hi']]%list_lookup_insert_Some; simpl; eauto.
    by apply Hi in Hco.
  - destruct Hw as [|(?&?&?)]; [auto|exfalso; auto].
  - intros i co [(-> & <- & _)|[_ Hi']]%list_lookup_insert_Some; simpl; eauto.
    done.
  - intros HH; exfalso. apply (f_equal length) in HH. rewrite length_insert in HH.
    apply lookup_lt_Some in Hco. simpl in HH. lia.
  - intros HH; exfalso. apply (f_equal length) in HH. rewrite length_insert in HH.
    apply lookup_lt_Some in Hco. simpl in HH. lia.
  - intros k call Hk. destruct (Hf k call Hk) as (?&[|]&Hfin); try done.
    split; [done|]. split; [by left|]. intros; exfalso; auto.
Qed.

Lemma Life_step c s e s' : Life c s → step s e = Some s' → Life c s'.
Proof.
  intros HL. destruct e; simpl.
  - destruct (enqueue j s) eqn:E; intros [= <-]; [|done].
    by eapply Life_enqueue.
  - intros [= <-]. rewrite waitForIdle_norm.
    by eapply LifeAt_frame; [..|exact HL].
  - intros [= <-]. by apply Life_finishAllWork.
  - by apply Life_finishResume.
  - by apply Life_resume.
  - by apply Life_settle.
  - unfold elapse. case_match; [|done]. intros [= <-].
    by eapply LifeAt_frame; [..|exact HL].
  - by apply Life_timerFire.
  - intros [= <-]. by eapply LifeAt_frame; [..|exact HL].
Qed.

Lemma Life_reachable v c s : reachable v c s → Life c s.
Proof.
  induction 1; [apply Life_init|by eapply Life_step].
Qed.

(** ** The work-availability signal *)

Lemma Sig_init v c : Sig (init v c).
Proof.
  split; simpl; try done.
  - intros p Hp. by apply elem_of_nil in Hp.
  - constructor.
Qed.

Lemma Sig_frame s s' :
  workAvailablePromise s' = workAvailablePromise s →
  resolveWorkAvailable s' = resolveWorkAvailable s →
  signalCount s' = signalCount s → signalled s' = signalled s →
  (∀ w co p, coroutines s' !! w = Some co → wstate co = WAwaitWork p →
     ∃ w' co', coroutines s !! w' = Some co' ∧ wstate co' = WAwaitWork p) →
  Sig s → Sig s'.
Proof.
  intros E1 E2 E3 E4 Hco [].
  split; rewrite ?E1, ?E2, ?E3, ?E4; auto.
  intros w co p Hw Hp. destruct (Hco _ _ _ Hw Hp) as (w' & co' & ? & ?). eauto.
Qed.

(** After one pass of the loop, whatever coroutine record it is stored in. *)
Lemma Sig_loop s wid (cs : list Coroutine) :
  Sig s →
  (∀ w co p, cs !! w = Some co → wstate co = WAwaitWork p →
     (∃ w' co', coroutines s !! w' = Some co' ∧ wstate co' = WAwaitWork p) ∨
     fst (workerLoop wid s) = WAwaitWork p) →
  Sig (set_coroutines cs (snd (workerLoop wid s))).
Proof.
  intros [Hslot Hfresh Hbound Honce Hwait] Hcs.
  loop_cases wid s.
  - split; simpl; auto. intros w co p Hw Hp.
    destruct (Hcs _ _ _ Hw Hp) as [(w' & co' & ? & ?)|]; [eauto|done].
  - simpl in Hcs. rewrite waitForWorkAvailable_fst in Hcs. rewrite <- Hslot in *.
    destruct (workAvailablePromise s) as [q|] eqn:Hq; simpl in *.
    + split; simpl; auto.
      intros w co p Hw Hp.
      destruct (Hcs _ _ _ Hw Hp) as [(w' & co' & ? & ?)|[= ->]]; eauto.
    + split; simpl; auto.
      * intros p [= <-]. split; [lia|]. intros Hin%Hbound. lia.
      * intros p Hin%Hbound. lia.
      * intros w co p Hw Hp.
        destruct (Hcs _ _ _ Hw Hp) as [(w' & co' & Hw' & Hp')|[= ->]]; auto.
        destruct (Hwait _ _ _ Hw' Hp'); [auto|done].
  - split; simpl; auto. intros w co p Hw Hp.
    destruct (Hcs _ _ _ Hw Hp) as [(w' & co' & ? & ?)|]; [eauto|done].
Qed.

Lemma Sig_install s w wid :
  Sig s → Sig (install w wid (workerLoop wid s)).
Proof.
  intros HS. rewrite install_eq. apply Sig_loop; [done|].
  intros i co p [(-> & <- & _)|[_ Hi]]%list_lookup_insert_Some Hp; simpl in *.
  - by right.
  - left. exists i, co. split; [|done].
    pose proof (workerLoop_outcome wid s) as H.
    destruct (workerLoop wid s); simpl in *.
    inversion H; subst; rewrite ?waitForWorkAvailable_norm in *; done.
Qed.

Lemma Sig_spawn s i : Sig s → Sig (spawnWorker s i).
Proof.
  intros HS. rewrite spawnWorker_eq. cbv zeta.
  set (wid := Z.of_nat i + 1).
  set (cs := coroutines _ ++ _).
  apply (Sig_frame (set_coroutines cs (snd (workerLoop wid s)))); try done.
  { intros w co p Hw Hp. eauto. }
  apply Sig_loop; [done|].
  intros w co p [Hw|[_ Hw]]%lookup_app_Some Hp.
  - left. exists w, co. split; [|done].
    pose proof (workerLoop_outcome wid s) as H.
    destruct (workerLoop wid s); simpl in *.
    inversion H; subst; rewrite ?waitForWorkAvailable_norm in *; done.
  - apply list_lookup_singleton_Some in Hw as [_ <-]. by right.
Qed.

Lemma Sig_ensureWorkers s : Sig s → Sig (ensureWorkers s).
Proof.
  intros HS. unfold ensureWorkers. case_match; [|done].
  apply (foldl_spawn_ind (λ _, Sig) (λ k s, Sig_spawn s k) _ 0%nat s HS).
Qed.

(** After [notifyWorkersOfNewWork] nobody waits on an unresolved promise. *)
Lemma notify_wakes_all s :
  Sig s →
  ∀ w co p, coroutines s !! w = Some co → wstate co = WAwaitWork p →
    p ∈ signalled (notifyWorkersOfNewWork s).
Proof.
  intros [Hslot Hfresh Hbound Honce Hwait] w co p Hw Hp.
  rewrite notifyWorkersOfNewWork_norm. simpl.
  destruct (Hwait _ _ _ Hw Hp) as [Hin|Heq].
  - destruct (resolveWorkAvailable s); [|done].
    apply elem_of_app. by left.
  - rewrite Heq. apply elem_of_app. right. apply list_elem_of_singleton. done.
Qed.

Lemma Sig_notify s : Sig s → Sig (notifyWorkersOfNewWork s).
Proof.
  intros HS. pose proof (notify_wakes_all s HS) as Hall.
  destruct HS as [Hslot Hfresh Hbound Honce Hwait].
  rewrite notifyWorkersOfNewWork_norm in *. simpl in *.
  split; simpl; auto.
  - by destruct (resolveWorkAvailable s).
  - done.
  - destruct (resolveWorkAvailable s) as [q|] eqn:Hq; [|done].
    intros p [?|Hx%list_elem_of_singleton]%elem_of_app; [auto|].
    subst. by apply Hfresh.
  - destruct (resolveWorkAvailable s) as [q|] eqn:Hq; [|done].
    apply NoDup_app. split; [done|]. split; [|apply NoDup_singleton].
    intros p Hp Hx%list_elem_of_singleton. subst. by destruct (Hfresh _ eq_refl).
  - eauto.
Qed.

Lemma await_insert_other (cs : list Coroutine) w wid st i co p :
  (∀ q, st ≠ WAwaitWork q) →
  <[w := mkCoroutine wid st]> cs !! i = Some co → wstate co = WAwaitWork p →
  ∃ w' co', cs !! w' = Some co' ∧ wstate co' = WAwaitWork p.
Proof.
  intros Hst [(-> & <- & _)|[_ Hi]]%list_lookup_insert_Some Hp; simpl in *.
  - by destruct (Hst p).
  - eauto.
Qed.

Lemma Sig_settle w r s s' : Sig s → settle w r s = Some s' → Sig s'.
Proof.
  intros HS. unfold settle.
  destruct (coroutines s !! w) as [[wid [p|j st nf res| |]]|] eqn:Hco; try done.
  rewrite deliver_norm.
  assert (Hfin : ∀ s1,
    workAvailablePromise s1 = workAvailablePromise s →
    resolveWorkAvailable s1 = resolveWorkAvailable s →
    signalCount s1 = signalCount s → signalled s1 = signalled s →
    coroutines s1 = coroutines s →
    Sig (finallyBlock j s1)).
  { intros s1 E1 E2 E3 E4 E5. eapply Sig_frame; [..|exact HS];
      rewrite finallyBlock_norm, checkIfIdle_norm; simpl; try done.
    rewrite E5. eauto. }
  destruct (variant s), res; intros [= <-].
  1,2,3: by apply Sig_install, Hfin.
  unfold install. eapply Sig_frame; [..|by apply (Hfin s)]; simpl; try done.
  intros i co p. apply await_insert_other. done.
Qed.

Lemma Sig_step s e s' : Sig s → step s e = Some s' → Sig s'.
Proof.
  intros HS. destruct e; simpl.
  - unfold enqueue. destruct (isAcceptingWork s); simpl; intros [= <-]; [|done].
    apply Sig_notify, Sig_ensureWorkers.
    eapply Sig_frame; [..|exact HS]; rewrite pushJob_norm; simpl; eauto.
  - intros [= <-]. rewrite waitForIdle_norm.
    eapply Sig_frame; [..|exact HS]; simpl; eauto.
  - intros [= <-]. unfold finishAllWork.
    eapply Sig_frame; [..|apply (Sig_notify (set_isAcceptingWork false s))];
      simpl; eauto.
    eapply Sig_frame; [..|exact HS]; simpl; eauto.
  - unfold finishResume. repeat case_match; try done. intros [= <-].
    eapply Sig_frame; [..|exact HS]; simpl; eauto.
  - unfold resume. repeat case_match; try done. intros [= <-].
    by apply Sig_install.
  - by apply Sig_settle.
  - unfold elapse. case_match; [|done]. intros [= <-].
    eapply Sig_frame; [..|exact HS]; simpl; eauto.
  - unfold timerFire. repeat case_match; try done. intros [= <-].
    eapply Sig_frame; [..|exact HS]; simpl; try done.
    intros i co p. by apply await_insert_other.
  - intros [= <-]. eapply Sig_frame; [..|exact HS]; simpl; eauto.
Qed.

Lemma Sig_reachable v c s : reachable v c s → Sig s.
Proof. induction 1; [apply Sig_init|by eapply Sig_step]. Qed.

Lemma Quiet_frame s s' :
  queue s' = queue s → isAcceptingWork s' = isAcceptingWork s →
  signalled s' = signalled s →
  (∀ w co p, coroutines s' !! w = Some co → wstate co = WAwaitWork p →
     ∃ w' co', coroutines s !! w' = Some co' ∧ wstate co' = WAwaitWork p) →
  Quiet s → Quiet s'.
Proof.
  intros E1 E2 E3 Hco HQ w co p Hw Hp Hn. rewrite E1, E2. rewrite E3 in Hn.
  destruct (Hco _ _ _ Hw Hp) as (w' & co' & ? & ?). eauto.
Qed.

Lemma Quiet_install s w wid :
  Quiet s → Quiet (install w wid (workerLoop wid s)).
Proof.
  intros HQ. rewrite install_eq. loop_cases wid s.
  - eapply Quiet_frame; [..|exact HQ]; simpl; try done.
    intros i co p. by apply await_insert_other.
  - intros i co p _ _ _. simpl. auto.
  - intros i co p Hi Hp Hn. simpl in *.
    apply list_lookup_insert_Some in Hi as [(-> & <- & _)|[_ Hi]];
      simpl in *; [done|].
    destruct (HQ _ _ _ Hi Hp Hn). congruence.
Qed.

Lemma Quiet_notified s :
  Sig s → Quiet (notifyWorkersOfNewWork s).
Proof.
  intros HS w co p Hw Hp Hn. destruct Hn.
  eapply notify_wakes_all; [done|..|done].
  by rewrite notifyWorkersOfNewWork_norm in Hw.
Qed.

Lemma Quiet_step s e s' : Sig s → Quiet s → step s e = Some s' → Quiet s'.
Proof.
  intros HS HQ. destruct e; simpl.
  - unfold enqueue. destruct (isAcceptingWork s); simpl; intros [= <-]; [|done].
    apply Quiet_notified, Sig_ensureWorkers.
    eapply Sig_frame; [..|exact HS]; rewrite pushJob_norm; simpl; eauto.
  - intros [= <-]. rewrite waitForIdle_norm.
    eapply Quiet_frame; [..|exact HQ]; simpl; eauto.
  - intros [= <-]. unfold finishAllWork.
    eapply Quiet_frame;
      [..|apply (Quiet_notified (set_isAcceptingWork false s))]; simpl; eauto.
    eapply Sig_frame; [..|exact HS]; simpl; eauto.
  - unfold finishResume. repeat case_match; try done. intros [= <-].
    eapply Quiet_frame; [..|exact HQ]; simpl; eauto.
  - unfold resume. repeat case_match; try done. intros [= <-].
    by apply Quiet_install.
  - unfold settle.
    destruct (coroutines s !! w) as [[wid [p|j st nf res| |]]|]; try done.
    rewrite deliver_norm.
    assert (Hfin : ∀ s1,
      queue s1 = queue s → isAcceptingWork s1 = isAcceptingWork s →
      signalled s1 = signalled s → coroutines s1 = coroutines s →
      Quiet (finallyBlock j s1)).
    { intros s1 E1 E2 E3 E4. eapply Quiet_frame; [..|exact HQ];
        rewrite finallyBlock_norm, checkIfIdle_norm; simpl; try done.
      rewrite E4. eauto. }
    destruct (variant s), res; intros [= <-].
    1,2,3: by apply Quiet_install, Hfin.
    unfold install.
    eapply Quiet_frame; [..|by apply (Hfin s)]; simpl; try done.
    intros i co p. by apply await_insert_other.
  - unfold elapse. case_match; [|done]. intros [= <-].
    eapply Quiet_frame; [..|exact HQ]; simpl; eauto.
  - unfold timerFire. repeat case_match; try done. intros [= <-].
    eapply Quiet_frame; [..|exact HQ]; simpl; try done.
    intros i co p. by apply await_insert_other.
  - intros [= <-]. eapply Quiet_frame; [..|exact HQ]; simpl; eauto.
Qed.

Lemma Quiet_reachable v c s : reachable v c s → Quiet s.
Proof.
  induction 1 as [|s e s' Hr IH Hstep].
  - intros w co p Hw. done.
  - eapply Quiet_step; [by eapply Sig_reachable|done..].
Qed.

(** ** Idle waiters *)

Lemma IdleInv_init v c : IdleInv (init v c).
Proof.
  split; simpl; try done.
  - constructor.
  - intros p Hp. by apply elem_of_nil in Hp.
Qed.

Lemma IdleInv_frame s s' :
  waitingResolvers s' = waitingResolvers s →
  idleResolved s' = idleResolved s → idleCount s' = idleCount s →
  (isIdle s' = true → isIdle s = true) →
  IdleInv s → IdleInv s'.
Proof.
  intros E1 E2 E3 Hi [Hl Ho Hb]. split; rewrite ?E1, ?E2, ?E3; auto.
Qed.

Lemma isIdle_false_active s : 0 < activeJobs s → isIdle s = false.
Proof.
  intros H. unfold isIdle. case_bool_decide; [lia|done].
Qed.

Lemma isIdle_false_queue s : queue s ≠ [] → isIdle s = false.
Proof.
  intros H. unfold isIdle. destruct (queue s); [done|].
  simpl. by rewrite andb_false_r.
Qed.

Lemma IdleInv_loop s wid (cs : list Coroutine) :
  0 ≤ activeJobs s → IdleInv s →
  IdleInv (set_coroutines cs (snd (workerLoop wid s))).
Proof.
  intros Hact HI. loop_cases wid s.
  - eapply IdleInv_frame; [..|exact HI]; done.
  - eapply IdleInv_frame; [..|exact HI]; done.
  - eapply IdleInv_frame; [..|exact HI]; try done.
    intros Hidle. rewrite isIdle_false_active in Hidle; [done|]. simpl. lia.
Qed.

Lemma IdleInv_checkIfIdle s :
  NoDup (idleResolved s ++ waitingResolvers s) →
  (∀ p, p ∈ idleResolved s ++ waitingResolvers s → (p < idleCount s)%nat) →
  IdleInv (checkIfIdle s).
Proof.
  intros Ho Hb. rewrite checkIfIdle_norm.
  split; simpl.
  - unfold isIdle at 1. simpl. fold (isIdle s). by destruct (isIdle s).
  - destruct (isIdle s); simpl; by rewrite ?app_nil_r.
  - destruct (isIdle s); simpl; by rewrite ?app_nil_r.
Qed.

Lemma inFlight_pos cs w c :
  cs !! w = Some c → isExecuting c = true → (1 ≤ inFlight cs)%nat.
Proof.
  intros Hw He.
  pose proof (inFlight_insert cs w c (mkCoroutine 0 WTerminated) Hw) as H.
  rewrite He in H. unfold isExecuting in H. simpl in H. lia.
Qed.

Lemma IdleInv_waitForIdle s : IdleInv s → IdleInv (snd (waitForIdle s)).
Proof.
  intros [Hl Ho Hb]. rewrite waitForIdle_norm.
  assert (Hfresh : idleCount s ∉ idleResolved s ++ waitingResolvers s).
  { intros Hin%Hb. lia. }
  split; simpl.
  - unfold isIdle at 1. simpl. fold (isIdle s).
    destruct (isIdle s); [auto|done].
  - destruct (isIdle s) eqn:Hidle.
    + rewrite (Hl eq_refl) in *. rewrite app_nil_r in *.
      apply NoDup_app. split; [done|]. split; [|apply NoDup_singleton].
      intros p Hp Hx%list_elem_of_singleton. by subst.
    + rewrite app_assoc. apply NoDup_app. split; [done|].
      split; [|apply NoDup_singleton].
      intros p Hp Hx%list_elem_of_singleton. by subst.
  - assert (Hold : ∀ p, p ∈ idleResolved s ∨ p ∈ waitingResolvers s →
                     (p < S (idleCount s))%nat).
    { intros p Hp. enough (p < idleCount s)%nat by lia.
      by apply Hb, elem_of_app. }
    intros p Hp. destruct (isIdle s).
    + apply elem_of_app in Hp as [Hp|Hp]; [|auto].
      apply elem_of_app in Hp as [Hp|Hp%list_elem_of_singleton]; [auto|].
      subst. lia.
    + apply elem_of_app in Hp as [Hp|Hp]; [auto|].
      apply elem_of_app in Hp as [Hp|Hp%list_elem_of_singleton]; [auto|].
      subst. lia.
Qed.

Lemma IdleInv_pushJob j s : IdleInv s → IdleInv (pushJob j s).
Proof.
  intros [Hl Ho Hb]. rewrite pushJob_norm. split; simpl; auto.
  intros Hidle. rewrite isIdle_false_queue in Hidle; [done|].
  simpl. by destruct (queue s).
Qed.

Lemma IdleInv_spawn c k s :
  Spawning c k s → IdleInv s → IdleInv (spawnWorker s k).
Proof.
  intros HSp HI. rewrite spawnWorker_eq. cbv zeta.
  set (cs := coroutines _ ++ _).
  apply (IdleInv_frame
           (set_coroutines cs (snd (workerLoop (Z.of_nat k + 1) s))));
    try done.
  apply IdleInv_loop; [|done]. rewrite (sp_active _ _ _ HSp). lia.
Qed.

Lemma IdleInv_ensureWorkers c s :
  (isAcceptingWork s = true → workers s = [] → Spawning c 0 s) →
  IdleInv s → IdleInv (ensureWorkers s).
Proof.
  intros HL HI. unfold ensureWorkers.
  destruct (bool_decide _) eqn:Hws; simpl; [|done].
  destruct (isAcceptingWork s) eqn:Hacc; [|done].
  apply bool_decide_eq_true, length_zero_iff_nil in Hws.
  pose proof (HL eq_refl Hws) as HSp.
  apply (foldl_spawn_ind (λ k s, Spawning c k s ∧ IdleInv s)
           (λ k s H, conj (Spawning_step c k s (proj1 H))
                          (IdleInv_spawn c k s (proj1 H) (proj2 H)))
           _ 0%nat s (conj HSp HI)).
Qed.

Lemma Spawning_pushJob c j s :
  Life c s →
  isAcceptingWork (pushJob j s) = true → workers (pushJob j s) = [] →
  Spawning c 0 (pushJob j s).
Proof.
  intros HL. rewrite pushJob_norm. simpl. intros Hacc Hws.
  eapply Spawning_frame; [..|by apply Spawning_Life]; done.
Qed.

Lemma IdleInv_finallyBlock j s :
  NoDup (idleResolved s ++ waitingResolvers s) →
  (∀ p, p ∈ idleResolved s ++ waitingResolvers s → (p < idleCount s)%nat) →
  IdleInv (finallyBlock j s).
Proof.
  intros Ho Hb. rewrite finallyBlock_norm.
  eapply IdleInv_frame;
    [..|apply (IdleInv_checkIfIdle (set_activeJobs (activeJobs s - 1) s))];
    try done.
Qed.

Lemma IdleInv_settle c w r s s' :
  Life c s → IdleInv s → settle w r s = Some s' → IdleInv s'.
Proof.
  intros HL [Hl Ho Hb]. unfold settle.
  destruct (coroutines s !! w) as [[wid [p|j st nf res| |]]|] eqn:Hco; try done.
  rewrite deliver_norm.
  assert (Hact : 1 ≤ activeJobs s).
  { pose proof (life_active _ _ _ HL) as Ha.
    pose proof (inFlight_pos _ _ _ Hco eq_refl). lia. }
  assert (Hfin : ∀ s1,
    waitingResolvers s1 = waitingResolvers s →
    idleResolved s1 = idleResolved s → idleCount s1 = idleCount s →
    activeJobs s1 = activeJobs s →
    IdleInv (finallyBlock j s1) ∧ 0 ≤ activeJobs (finallyBlock j s1)).
  { intros s1 E1 E2 E3 E4. split.
    - apply IdleInv_finallyBlock; by rewrite E1, E2, ?E3.
    - rewrite finallyBlock_activeJobs. lia. }
  destruct (variant s), res; intros [= <-]; rewrite ?install_eq.
  1,2,3: by apply IdleInv_loop; apply Hfin.
  unfold install. eapply IdleInv_frame; [..|by apply (Hfin s)]; done.
Qed.

Lemma IdleInv_step c s e s' :
  Life c s → IdleInv s → step s e = Some s' → IdleInv s'.
Proof.
  intros HL HI. destruct e; simpl.
  - unfold enqueue. destruct (isAcceptingWork s) eqn:Hacc; simpl;
      intros [= <-]; [|done].
    rewrite notifyWorkersOfNewWork_norm.
    eapply IdleInv_frame;
      [..|apply (IdleInv_ensureWorkers c (pushJob j s))]; try done.
    + by apply Spawning_pushJob.
    + by apply IdleInv_pushJob.
  - intros [= <-]. by apply IdleInv_waitForIdle.
  - intros [= <-]. unfold finishAllWork. rewrite notifyWorkersOfNewWork_norm.
    eapply IdleInv_frame; [..|exact HI]; done.
  - unfold finishResume. repeat case_match; try done. intros [= <-].
    eapply IdleInv_frame; [..|exact HI]; done.
  - unfold resume. repeat case_match; try done. intros [= <-].
    rewrite install_eq. apply IdleInv_loop; [|done].
    rewrite <- (Z.add_0_r (activeJobs s)), (life_active _ _ _ HL). lia.
  - by eapply IdleInv_settle.
  - unfold elapse. case_match; [|done]. intros [= <-].
    eapply IdleInv_frame; [..|exact HI]; done.
  - unfold timerFire. repeat case_match; try done. intros [= <-].
    eapply IdleInv_frame; [..|exact HI]; done.
  - intros [= <-]. eapply IdleInv_frame; [..|exact HI]; done.
Qed.

Lemma IdleInv_reachable v c s : reachable v c s → IdleInv s.
Proof.
  induction 1 as [|s e s' Hr IH Hstep]; [apply IdleInv_init|].
  eapply IdleInv_step; [by eapply Life_reachable|done..].
Qed.

(** ** Delivery of outcomes *)

Lemma executingJobs_app cs1 cs2 :
  executingJobs (cs1 ++ cs2) = executingJobs cs1 ++ executingJobs cs2.
Proof. unfold executingJobs. apply omap_app. Qed.

Lemma executingJobs_single wid st :
  executingJobs [mkCoroutine wid st] = executingJobOf st.
Proof. by destruct st. Qed.

Lemma executingJobs_insert cs w c wid st :
  cs !! w = Some c →
  executingJobOf (wstate c) ++ executingJobs (<[w := mkCoroutine wid st]> cs) ≡ₚ
  executingJobOf st ++ executingJobs cs.
Proof.
  revert w; induction cs as [|x cs IH]; intros [|w] H; simplify_eq/=.
  - destruct c as [wid0 st0]. unfold executingJobs, executingJob. simpl.
    destruct st0, st; simpl; try done. apply perm_swap.
  - specialize (IH _ H). unfold executingJobs in *. simpl.
    destruct (executingJob x) as [y|]; simpl; [|done].
    rewrite <- !Permutation_middle. by f_equiv.
Qed.

Lemma executingJobs_nil cs : inFlight cs = 0%nat → executingJobs cs = [].
Proof.
  induction cs as [|x cs IH]; [done|]. unfold inFlight, executingJobs in *.
  simpl. unfold isExecuting, executingJob.
  destruct (wstate x); simpl; auto; done.
Qed.

Lemma PoolInv_perm l l' s : l ≡ₚ l' → PoolInv l s → PoolInv l' s.
Proof.
  intros HP [H1 H2 H3 H4 H5 H6]. split; auto.
  - by rewrite <- HP.
  - intros qj Hq. apply H4. by rewrite HP.
  - intros i Hi. rewrite <- HP. auto.
Qed.

Lemma PoolInv_frame l s s' :
  submitted s' = submitted s → jobCounter s' = jobCounter s →
  jobPromises s' = jobPromises s → resolveMap s' = resolveMap s →
  PoolInv l s → PoolInv l s'.
Proof.
  intros E1 E2 E3 E4 []. split; rewrite ?E1, ?E2, ?E3, ?E4; auto.
Qed.

Lemma DelivOn_perm ex ex' s : ex ≡ₚ ex' → DelivOn ex s → DelivOn ex' s.
Proof.
  intros HP [H1 H2]. split.
  - by rewrite <- HP.
  - intros Hv. eapply PoolInv_perm; [|by apply H2]. by rewrite HP.
Qed.

Lemma DelivOn_frame ex s s' :
  variant s' = variant s → submitted s' = submitted s →
  produced s' = produced s → queue s' = queue s →
  jobCounter s' = jobCounter s → jobPromises s' = jobPromises s →
  resolveMap s' = resolveMap s →
  DelivOn ex s → DelivOn ex s'.
Proof.
  intros E1 E2 E3 E4 E5 E6 E7 [H1 H2]. split.
  - by rewrite E2, E3, E4.
  - rewrite E1, E4. intros Hv. eapply PoolInv_frame; [..|by apply H2]; done.
Qed.

Lemma lookupResolver_pending l s qj :
  variant s = PromisePerJob → PoolInv l s → qj ∈ l →
  lookupResolver s qj = concurrentJobId qj.
Proof.
  intros Hv HP Hq. destruct (pool_pending _ _ HP qj Hq) as (id & E & Hr & _).
  unfold lookupResolver. rewrite Hv, E. simpl. done.
Qed.

Lemma DelivOn_loop s wid ex cs :
  DelivOn ex s →
  DelivOn (executingJobOf (fst (workerLoop wid s)) ++ ex)
    (set_coroutines cs (snd (workerLoop wid s))) ∧
  healthy (variant s) (fst (workerLoop wid s)).
Proof.
  intros HD. loop_cases wid s.
  - split; [|done]. eapply DelivOn_frame; [..|exact HD]; done.
  - split; [|done]. eapply DelivOn_frame; [..|exact HD]; done.
  - destruct HD as [Hc Hp]. split.
    + split; simpl.
      * rewrite Hc, H. simpl. f_equiv. apply Permutation_middle.
      * intros Hv. eapply PoolInv_perm;
          [|eapply PoolInv_frame; [..|by apply Hp]]; try done.
        rewrite H. simpl. apply Permutation_middle.
    + simpl. intros Hv. eapply lookupResolver_pending; [done|by apply Hp|].
      rewrite H. set_solver.
Qed.

Lemma Deliv_install s w wid old ex :
  coroutines s !! w = Some (mkCoroutine wid old) →
  executingJobs (coroutines s) ≡ₚ executingJobOf old ++ ex →
  DelivOn ex s →
  (∀ i co, coroutines s !! i = Some co → i ≠ w →
     healthy (variant s) (wstate co)) →
  Deliv (install w wid (workerLoop wid s)).
Proof.
  intros Hco Hex HD Hh. rewrite install_eq.
  destruct (DelivOn_loop s wid ex
    (<[w:=mkCoroutine wid (fst (workerLoop wid s))]>
       (coroutines (snd (workerLoop wid s)))) HD) as [HD' Hh'].
  split.
  - eapply DelivOn_perm; [|exact HD']. simpl.
    rewrite workerLoop_coroutines.
    apply (Permutation_app_inv_l (executingJobOf old)).
    rewrite (executingJobs_insert _ _ _ _ _ Hco). simpl.
    rewrite Hex. rewrite !app_assoc. f_equiv. apply Permutation_app_comm.
  - simpl. rewrite workerLoop_coroutines, workerLoop_variant.
    intros i co [(-> & <- & _)|[? Hi]]%list_lookup_insert_Some; simpl; eauto.
Qed.

Lemma Deliv_spawn s i : Deliv s → Deliv (spawnWorker s i).
Proof.
  intros [HD Hh]. rewrite spawnWorker_eq. cbv zeta.
  set (wid := Z.of_nat i + 1).
  set (cs := coroutines _ ++ _).
  destruct (DelivOn_loop s wid _ cs HD) as [HD' Hh'].
  split.
  - simpl. eapply DelivOn_frame; [..|eapply DelivOn_perm; [|exact HD']];
      try done.
    unfold cs. rewrite executingJobs_app, executingJobs_single.
    rewrite workerLoop_coroutines. apply Permutation_app_comm.
  - simpl. rewrite workerLoop_variant. unfold cs.
    rewrite workerLoop_coroutines.
    intros w co [?|[_ Hw]]%lookup_app_Some; [eauto|].
    by apply list_lookup_singleton_Some in Hw as [_ <-].
Qed.

Lemma Deliv_ensureWorkers s : Deliv s → Deliv (ensureWorkers s).
Proof.
  intros HD. unfold ensureWorkers. case_match; [|done].
  apply (foldl_spawn_ind (λ _, Deliv) (λ k s, Deliv_spawn s k) _ 0%nat s HD).
Qed.

Lemma Deliv_frame s s' :
  variant s' = variant s → submitted s' = submitted s →
  produced s' = produced s → queue s' = queue s →
  jobCounter s' = jobCounter s → jobPromises s' = jobPromises s →
  resolveMap s' = resolveMap s → coroutines s' = coroutines s →
  Deliv s → Deliv s'.
Proof.
  intros E1 E2 E3 E4 E5 E6 E7 E8 [HD Hh]. split.
  - rewrite E8. by eapply DelivOn_frame.
  - by rewrite E1, E8.
Qed.

Lemma Deliv_init v c : Deliv (init v c).
Proof.
  split; [split|]; simpl; try done.
  intros _. split; simpl; try done.
  - constructor.
  - intros qj Hq. by apply elem_of_nil in Hq.
Qed.

Lemma PoolInv_id_bound l s id :
  PoolInv l s → id ∈ omap concurrentJobId l → (id < length (submitted s))%nat.
Proof.
  intros HP (qj & Hq & Hid)%list_elem_of_omap.
  destruct (pool_pending _ _ HP qj Hq) as (id' & E & _ & _ & Hs).
  rewrite E in Hid. simplify_eq. by apply lookup_lt_Some in Hs.
Qed.

Lemma Deliv_pushJob j s : Deliv s → Deliv (pushJob j s).
Proof.
  intros [[Hc Hp] Hh]. rewrite pushJob_norm.
  split; [split|]; simpl; [| |done].
  - rewrite !map_app, Hc. simpl.
    rewrite <- !app_assoc. do 2 f_equiv. apply Permutation_app_comm.
  - intros Hv. rewrite Hv. specialize (Hp Hv).
    pose proof (λ id, PoolInv_id_bound _ _ id Hp) as Hbound.
    destruct Hp as [H1 H2 H3 H4 H5 H6].
    set (ex := executingJobs (coroutines s)) in *.
    set (qj := mkQueuedJob j (Some (jobCounter s))).
    assert (Hperm : (queue s ++ [qj]) ++ ex ≡ₚ qj :: queue s ++ ex).
    { rewrite <- app_assoc. symmetry. apply Permutation_middle. }
    eapply PoolInv_perm; [symmetry; exact Hperm|].
    split; simpl.
    + rewrite length_app. simpl. lia.
    + rewrite !length_app. simpl. lia.
    + constructor; [|done]. intros Hin%Hbound. lia.
    + intros qj' [->|Hq]%elem_of_cons.
      * exists (jobCounter s). simpl. rewrite lookup_insert_eq.
        rewrite H2, H1. split_and!; try done.
        -- rewrite lookup_app_r by lia. by rewrite H2, Nat.sub_diag.
        -- rewrite lookup_app_r by lia. by rewrite Nat.sub_diag.
      * destruct (H4 _ Hq) as (id & E & Hr & Hj & Hs). exists id.
        assert (id < length (submitted s))%nat by by apply lookup_lt_Some in Hs.
        split_and!; try done.
        -- rewrite lookup_insert_ne by lia. done.
        -- rewrite lookup_app_l by lia. done.
        -- rewrite lookup_app_l by lia. done.
    + intros i Hi. apply lookup_app_Some in Hi as [Hi|[Hge Hi]].
      * right. auto.
      * apply list_lookup_singleton_Some in Hi as [Hi _].
        apply elem_of_cons. left. lia.
    + intros i o Hi. apply lookup_app_Some in Hi as [Hi|[Hge Hi]].
      * destruct (H6 _ _ Hi) as (j' & Hs & Ho). exists j'. split; [|done].
        apply lookup_app_l_Some. done.
      * by apply list_lookup_singleton_Some in Hi as [_ ?].
Qed.


Lemma PoolInv_settled l s qj o id :
  PoolInv (qj :: l) s →
  concurrentJobId qj = Some id →
  resultProperties o = jobProps qj →
  PoolInv l
    (set_resolveMap (delete id (resolveMap s))
       (set_jobPromises (resolvePromise id o (jobPromises s)) s)).
Proof.
  intros [H1 H2 H3 H4 H5 H6] Hid Ho.
  destruct (H4 qj) as (id' & E & Hr & Hj & Hs); [by left|].
  rewrite Hid in E. injection E as <-.
  unfold resolvePromise. rewrite Hj.
  simpl in H3. rewrite Hid in H3. simpl in H3. apply NoDup_cons in H3 as [Hnin H3].
  assert (Hne : ∀ qj' id', qj' ∈ l → concurrentJobId qj' = Some id' → id' ≠ id).
  { intros qj' id' Hq E ->. apply Hnin, list_elem_of_omap. eauto. }
  split; simpl; auto.
  - by rewrite length_insert.
  - intros qj' Hq. destruct (H4 qj') as (id' & E & Hr' & Hj' & Hs'); [by right|].
    exists id'. pose proof (Hne _ _ Hq E).
    split_and!; try done.
    + by rewrite lookup_delete_ne.
    + by rewrite list_lookup_insert_ne.
  - intros i Hi. destruct (decide (i = id)) as [->|Hne'].
    + rewrite list_lookup_insert_eq in Hi; [done|]. by apply lookup_lt_Some in Hj.
    + rewrite list_lookup_insert_ne in Hi by done.
      specialize (H5 _ Hi). simpl in H5. rewrite Hid in H5. simpl in H5.
      apply elem_of_cons in H5 as [?|?]; done.
  - intros i o' Hi. destruct (decide (i = id)) as [->|Hne'].
    + rewrite list_lookup_insert_eq in Hi by by apply lookup_lt_Some in Hj.
      injection Hi as <-. eauto.
    + rewrite list_lookup_insert_ne in Hi by done. eauto.
Qed.

Lemma DelivOn_settled s j res r ex :
  DelivOn (j :: ex) s →
  (variant s = PromisePerJob → res = concurrentJobId j) →
  DelivOn ex (finallyBlock j (delivered res (toJobResult r (jobProps j)) s)) ∧
  (variant s = PromisePerJob → ∃ id, res = Some id ∧
     jobPromises s !! id = Some None ∧ submitted s !! id = Some (job j)).
Proof.
  intros [Hc Hp] Hres. split.
  - rewrite finallyBlock_norm, checkIfIdle_norm. unfold delivered.
    split; simpl.
    + rewrite Hc, map_app. simpl. rewrite toJobResult_properties.
      rewrite <- !app_assoc. f_equiv. simpl.
      rewrite (Permutation_middle (map jobProps (queue s))). done.
    + intros Hv. rewrite Hv. specialize (Hp Hv). specialize (Hres Hv).
      assert (Hp' : PoolInv (j :: queue s ++ ex) s).
      { eapply PoolInv_perm; [|exact Hp]. symmetry. apply Permutation_middle. }
      destruct (pool_pending _ _ Hp' j) as (id & E & _); [by left|].
      rewrite Hres, E.
      eapply PoolInv_frame;
        [..|apply (PoolInv_settled _ _ _ (toJobResult r (jobProps j)) _ Hp' E)];
        try done.
      apply toJobResult_properties.
  - intros Hv. specialize (Hp Hv). specialize (Hres Hv).
    destruct (pool_pending _ _ Hp j) as (id & E & _ & ? & ?).
    { apply elem_of_app. right. by left. }
    exists id. by rewrite Hres.
Qed.

Lemma executingJobs_split cs w wid j st nf res :
  cs !! w = Some (mkCoroutine wid (WExecuting j st nf res)) →
  executingJobs cs ≡ₚ
    j :: executingJobs (<[w := mkCoroutine wid WTerminated]> cs).
Proof.
  intros H. by rewrite <- (executingJobs_insert _ _ _ wid WTerminated H).
Qed.

Lemma Deliv_settle w r s s' : Deliv s → settle w r s = Some s' → Deliv s'.
Proof.
  intros [HD Hh]. unfold settle.
  destruct (coroutines s !! w) as [[wid [p|j st nf res| |]]|] eqn:Hco; try done.
  pose proof (executingJobs_split _ _ _ _ _ _ _ Hco) as Hex.
  set (ex := executingJobs (<[w:=_]> _)) in Hex.
  pose proof (Hh _ _ Hco) as Hres. simpl in Hres.
  destruct (DelivOn_settled s j res r ex) as [HD' Hid]; [|done|].
  { by eapply DelivOn_perm. }
  rewrite deliver_norm.
  assert (Hgo : Deliv (install w wid (workerLoop wid
    (finallyBlock j (delivered res (toJobResult r (properties (job j))) s))))).
  { eapply (Deliv_install _ _ _ (WExecuting j st nf res) ex).
    - by rewrite finallyBlock_coroutines.
    - by rewrite finallyBlock_coroutines.
    - done.
    - rewrite finallyBlock_coroutines, finallyBlock_norm, checkIfIdle_norm.
      simpl. eauto. }
  destruct (variant s) eqn:Hv, res; intros [= <-]; try done.
  by destruct (Hid eq_refl) as (? & ? & _).
Qed.

Lemma Deliv_step s e s' : Deliv s → step s e = Some s' → Deliv s'.
Proof.
  intros HD. destruct e; simpl.
  - unfold enqueue. destruct (isAcceptingWork s); simpl; intros [= <-]; [|done].
    rewrite notifyWorkersOfNewWork_norm.
    eapply Deliv_frame;
      [..|apply Deliv_ensureWorkers, (Deliv_pushJob j), HD]; done.
  - intros [= <-]. rewrite waitForIdle_norm.
    eapply Deliv_frame; [..|exact HD]; done.
  - intros [= <-]. unfold finishAllWork. rewrite notifyWorkersOfNewWork_norm.
    eapply Deliv_frame; [..|exact HD]; done.
  - unfold finishResume. repeat case_match; try done. intros [= <-].
    eapply Deliv_frame; [..|exact HD]; done.
  - unfold resume.
    destruct (coroutines s !! w) as [[wid [p| | |]]|] eqn:Hco; try done.
    case_match; [|done]. intros [= <-]. destruct HD as [HD Hh].
    apply (Deliv_install s w wid (WAwaitWork p) (executingJobs (coroutines s)));
      eauto.
  - by apply Deliv_settle.
  - unfold elapse. case_match; [|done]. intros [= <-].
    eapply Deliv_frame; [..|exact HD]; done.
  - unfold timerFire.
    destruct (coroutines s !! w) as [[wid [p|j st nf res| |]]|] eqn:Hco;
      try done.
    case_match; [|done]. intros [= <-]. destruct HD as [HD Hh].
    split; simpl.
    + eapply DelivOn_frame; [..|eapply DelivOn_perm; [|exact HD]]; try done.
      apply (Permutation_app_inv_l [j]).
      by rewrite (executingJobs_insert _ _ _ _ _ Hco).
    + intros i co [(-> & <- & _)|[? Hi]]%list_lookup_insert_Some; eauto.
      by apply Hh in Hco.
  - intros [= <-]. eapply Deliv_frame; [..|exact HD]; done.
Qed.

Lemma Deliv_reachable v c s : reachable v c s → Deliv s.
Proof. induction 1; [apply Deliv_init|by eapply Deliv_step]. Qed.

(** ** The watchdog *)


















(** ** Fields the worker loop never touches *)

Lemma untouched_refl s : untouched s s.
Proof. by repeat split. Qed.

Lemma untouched_trans s1 s2 s3 :
  untouched s1 s2 → untouched s2 s3 → untouched s1 s3.
Proof.
  unfold untouched. intros H1 H2. destruct_and!. split_and!; congruence.
Qed.

Lemma untouched_workerLoop wid s : untouched s (snd (workerLoop wid s)).
Proof. loop_cases_raw wid s; by repeat split. Qed.

Lemma untouched_spawnWorker s i : untouched s (spawnWorker s i).
Proof.
  rewrite spawnWorker_eq. cbv zeta.
  eapply untouched_trans; [apply (untouched_workerLoop (Z.of_nat i + 1))|].
  by repeat split.
Qed.

Lemma untouched_ensureWorkers s : untouched s (ensureWorkers s).
Proof.
  unfold ensureWorkers. case_match; [|apply untouched_refl].
  apply (foldl_spawn_ind (λ _ s', untouched s s')
           (λ k s' H, untouched_trans _ _ _ H (untouched_spawnWorker s' k))
           _ 0%nat s (untouched_refl s)).
Qed.

Lemma untouched_install w wid s : untouched s (install w wid (workerLoop wid s)).
Proof.
  rewrite install_eq.
  eapply untouched_trans; [apply (untouched_workerLoop wid)|].
  by repeat split.
Qed.

Lemma reachable_of_run v c es s :
  run (init v c) es = Some s → reachable v c s.
Proof. intros H. apply reachable_trace. eauto. Qed.

Lemma reachable_variant v c s : reachable v c s → variant s = v.
Proof.
  induction 1 as [|s e s' Hr IH Hstep]; [done|]. rewrite <- IH. clear IH Hr.
  destruct e; simpl in Hstep.
  - unfold enqueue in Hstep. destruct (isAcceptingWork s); simpl in Hstep;
      simplify_eq; [|done].
    rewrite notifyWorkersOfNewWork_norm. simpl.
    destruct (untouched_ensureWorkers (pushJob j s)) as [-> _].
    by rewrite pushJob_norm.
  - simplify_eq. by rewrite waitForIdle_norm.
  - simplify_eq. unfold finishAllWork. by rewrite notifyWorkersOfNewWork_norm.
  - unfold finishResume in Hstep. repeat case_match; by simplify_eq.
  - unfold resume in Hstep. repeat case_match; simplify_eq.
    by destruct (untouched_install w workerId0 s) as [-> _].
  - unfold settle in Hstep.
    destruct (coroutines s !! w) as [[wid [p|j st nf res| |]]|]; try done.
    rewrite deliver_norm in Hstep.
    destruct (variant s) eqn:Hv, res; simplify_eq.
    1,2,3: match goal with |- variant (install _ _ (workerLoop _ ?X)) = _ =>
      destruct (untouched_install w wid X) as [-> _] end;
      by rewrite finallyBlock_norm, checkIfIdle_norm.
    unfold install. simpl. by rewrite finallyBlock_norm, checkIfIdle_norm.
  - unfold elapse in Hstep. case_match; by simplify_eq.
  - unfold timerFire in Hstep. repeat case_match; by simplify_eq.
  - by simplify_eq.
Qed.

Lemma reachable_variant_settle w r s s' :
  settle w r s = Some s' → variant s' = variant s.
Proof.
  unfold settle.
  destruct (coroutines s !! w) as [[wid [p|j st nf res| |]]|]; try done.
  rewrite deliver_norm.
  destruct (variant s) eqn:Hv, res; intros [= <-].
  1,2,3: match goal with |- variant (install _ _ (workerLoop _ ?X)) = _ =>
    destruct (untouched_install w wid X) as [-> _] end;
    by rewrite finallyBlock_norm, checkIfIdle_norm.
  unfold install. simpl. by rewrite finallyBlock_norm, checkIfIdle_norm.
Qed.

(** ** The results array *)

Lemma settle_heap w r s s' wid j st nf res :
  coroutines s !! w = Some (mkCoroutine wid (WExecuting j st nf res)) →
  settle w r s = Some s' →
  results s' = results s ∧
  heap s' =
    match variant s with
    | Accumulate =>
        alter (λ a, a ++ [toJobResult r (jobProps j)]) (results s) (heap s)
    | PromisePerJob => heap s
    end ∧
  (variant s = PromisePerJob ∨
   produced s' = produced s ++ [toJobResult r (jobProps j)]).
Proof.
  intros Hco. unfold settle. rewrite Hco, deliver_norm.
  destruct (variant s) eqn:Hv, res; intros [= <-].
  1,2: match goal with |- context [install _ _ (workerLoop _ ?X)] =>
      destruct (untouched_install w wid X)
        as (_ & _ & -> & -> & _ & _ & _ & _ & _ & _ & -> & _) end;
    rewrite finallyBlock_norm, checkIfIdle_norm; simpl; rewrite ?Hv; auto.
  all: auto.
  - match goal with |- context [install _ _ (workerLoop _ ?X)] =>
      destruct (untouched_install w wid X)
        as (_ & _ & -> & -> & _ & _ & _ & _ & _ & _ & -> & _) end;
    rewrite finallyBlock_norm, checkIfIdle_norm; simpl; rewrite ?Hv; auto.
  - unfold install. simpl. rewrite finallyBlock_norm, checkIfIdle_norm.
    simpl. auto.
Qed.

Lemma HeapOk_step s e s' :
  isCallerWrite e = false → HeapOk s → step s e = Some s' → HeapOk s'.
Proof.
  intros He [Hdom Hacc]. destruct e; simpl; try done.
  - unfold enqueue. destruct (isAcceptingWork s); simpl; intros [= <-];
      [|done].
    rewrite notifyWorkersOfNewWork_norm. unfold HeapOk. simpl.
    destruct (untouched_ensureWorkers (pushJob j s))
      as (-> & _ & -> & -> & _ & _ & _ & _ & _ & _ & -> & _).
    by rewrite pushJob_norm.
  - intros [= <-]. by rewrite waitForIdle_norm.
  - intros [= <-]. unfold finishAllWork.
    by rewrite notifyWorkersOfNewWork_norm.
  - unfold finishResume. repeat case_match; try done. by intros [= <-].
  - unfold resume. repeat case_match; try done. intros [= <-].
    unfold HeapOk.
    by destruct (untouched_install w workerId0 s)
      as (-> & _ & -> & -> & _ & _ & _ & _ & _ & _ & -> & _).
  - destruct (coroutines s !! w) as [[wid [p|j st nf res| |]]|] eqn:Hco;
      try (unfold settle; rewrite Hco; done).
    intros Hs. pose proof (reachable_variant_settle _ _ _ _ Hs) as Hv.
    destruct (settle_heap _ _ _ _ _ _ _ _ _ Hco Hs) as (Er & Eh & Ep).
    unfold HeapOk. rewrite Er, Eh, Hv.
    destruct (variant s) eqn:Hvs.
    + rewrite lookup_alter_eq. destruct Hdom as [a Ha]. rewrite Ha. simpl.
      split; [eauto|]. intros _. destruct Ep as [ | ->]; [done|].
      rewrite Hacc in Ha by done. by simplify_eq.
    + split; [done|]. done.
  - unfold elapse. case_match; [|done]. by intros [= <-].
  - unfold timerFire. repeat case_match; try done. by intros [= <-].
Qed.

Lemma results_allocated v c s : reachable v c s → is_Some (heap s !! results s).
Proof.
  induction 1 as [|s e s' Hr IH Hstep]; [by eexists|].
  destruct e; simpl in Hstep.
  - unfold enqueue in Hstep. destruct (isAcceptingWork s); simpl in Hstep;
      simplify_eq; [|done].
    rewrite notifyWorkersOfNewWork_norm. simpl.
    destruct (untouched_ensureWorkers (pushJob j s))
      as (_ & _ & -> & -> & _).
    by rewrite pushJob_norm.
  - simplify_eq. by rewrite waitForIdle_norm.
  - simplify_eq. unfold finishAllWork. by rewrite notifyWorkersOfNewWork_norm.
  - unfold finishResume in Hstep. repeat case_match; by simplify_eq.
  - unfold resume in Hstep. repeat case_match; simplify_eq.
    by destruct (untouched_install w workerId0 s) as (_ & _ & -> & -> & _).
  - destruct (coroutines s !! w) as [[wid [p|j st nf res| |]]|] eqn:Hco;
      try (unfold settle in Hstep; rewrite Hco in Hstep; done).
    destruct (settle_heap _ _ _ _ _ _ _ _ _ Hco Hstep) as (-> & -> & _).
    destruct (variant s); [|done]. by rewrite lookup_alter_is_Some.
  - unfold elapse in Hstep. case_match; by simplify_eq.
  - unfold timerFire in Hstep. repeat case_match; by simplify_eq.
  - simplify_eq. simpl. rewrite lookup_insert_is_Some. 
    destruct (decide (l = results s)); auto.
Qed.


Lemma scheduling_install w wid s s' :
  queue s' = queue s → activeJobs s' = activeJobs s →
  coroutines s' = coroutines s → workers s' = workers s →
  isAcceptingWork s' = isAcceptingWork s →
  waitingResolvers s' = waitingResolvers s →
  idleResolved s' = idleResolved s →
  workAvailablePromise s' = workAvailablePromise s →
  resolveWorkAvailable s' = resolveWorkAvailable s →
  signalCount s' = signalCount s → signalled s' = signalled s →
  invocations s' = invocations s → now s' = now s →
  variant s' = variant s → resolveMap s' = resolveMap s →
  scheduling (install w wid (workerLoop wid s')) =
  scheduling (install w wid (workerLoop wid s)).
Proof.
  intros E1 E2 E3 E4 E5 E6 E7 E8 E9 E10 E11 E12 E13 E14 E15.
  unfold install, workerLoop, waitForWorkAvailable, lookupResolver, scheduling.
  rewrite E1, E5, E8, E10, E13, E14, E15.
  destruct (queue s) eqn:Q, (isAcceptingWork s) eqn:A,
    (workAvailablePromise s) eqn:W;
    simpl; rewrite ?E1, ?E2, ?E3, ?E4, ?E5, ?E6, ?E7, ?E9, ?E11, ?E12,
      ?Q, ?A, ?W; reflexivity.
Qed.

Lemma results_fixed s e s' : step s e = Some s' → results s' = results s.
Proof.
  intros Hstep. destruct e; simpl in Hstep.
  - unfold enqueue in Hstep. destruct (isAcceptingWork s); simpl in Hstep;
      simplify_eq; [|done].
    rewrite notifyWorkersOfNewWork_norm. simpl.
    destruct (untouched_ensureWorkers (pushJob j s)) as (_ & _ & -> & _).
    by rewrite pushJob_norm.
  - simplify_eq. by rewrite waitForIdle_norm.
  - simplify_eq. unfold finishAllWork. by rewrite notifyWorkersOfNewWork_norm.
  - unfold finishResume in Hstep. repeat case_match; by simplify_eq.
  - unfold resume in Hstep. repeat case_match; simplify_eq.
    by destruct (untouched_install w workerId0 s) as (_ & _ & -> & _).
  - destruct (coroutines s !! w) as [[wid [p|j st nf res| |]]|] eqn:Hco;
      try (unfold settle in Hstep; rewrite Hco in Hstep; done).
    by destruct (settle_heap _ _ _ _ _ _ _ _ _ Hco Hstep) as (-> & _).
  - unfold elapse in Hstep. case_match; by simplify_eq.
  - unfold timerFire in Hstep. repeat case_match; by simplify_eq.
  - by simplify_eq.
Qed.

(** ** Idle notification, step by step *)

Lemma isIdle_install w wid s :
  isIdle s = true → isIdle (install w wid (workerLoop wid s)) = true.
Proof.
  intros Hidle. rewrite install_eq.
  assert (queue s = []) as Hq.
  { unfold isIdle in Hidle. apply andb_true_iff in Hidle as [_ Hq].
    apply bool_decide_eq_true in Hq. by apply length_zero_iff_nil. }
  loop_cases wid s; try done. congruence.
Qed.

Lemma settle_idle_bookkeeping w r s s' :
  settle w r s = Some s' →
  idleChecks s' = S (idleChecks s) ∧
  ((waitingResolvers s' = waitingResolvers s ∧
    idleResolved s' = idleResolved s) ∨
   (waitingResolvers s' = [] ∧
    idleResolved s' = idleResolved s ++ waitingResolvers s ∧
    isIdle s' = true)).
Proof.
  unfold settle.
  destruct (coroutines s !! w) as [[wid [p|j st nf res| |]]|]; try done.
  rewrite deliver_norm.
  assert (Hgo : ∀ s1,
    waitingResolvers s1 = waitingResolvers s →
    idleResolved s1 = idleResolved s → idleChecks s1 = idleChecks s →
    let X := finallyBlock j s1 in
    idleChecks X = S (idleChecks s) ∧
    ((waitingResolvers X = waitingResolvers s ∧
      idleResolved X = idleResolved s) ∨
     (waitingResolvers X = [] ∧
      idleResolved X = idleResolved s ++ waitingResolvers s ∧
      isIdle X = true))).
  { intros s1 E1 E2 E3 X. unfold X.
    rewrite finallyBlock_norm, checkIfIdle_norm. simpl.
    rewrite E1, E2, E3. split; [done|].
    set (Y := set_activeJobs _ s1).
    assert (isIdle (set_resolveMap
      match variant s1 with
      | Accumulate => resolveMap s1
      | PromisePerJob =>
          match concurrentJobId j with
          | Some id => delete id (resolveMap s1)
          | None => resolveMap s1
          end
      end
      (set_waitingResolvers (if isIdle Y then [] else waitingResolvers s)
         (set_idleResolved
            (if isIdle Y then idleResolved s ++ waitingResolvers s
             else idleResolved s)
            (set_idleChecks (S (idleChecks s)) Y)))) = isIdle Y) as -> by done.
    destruct (isIdle Y); auto. }
  assert (Hloop : ∀ X,
    idleChecks X = S (idleChecks s) ∧
    ((waitingResolvers X = waitingResolvers s ∧
      idleResolved X = idleResolved s) ∨
     (waitingResolvers X = [] ∧
      idleResolved X = idleResolved s ++ waitingResolvers s ∧
      isIdle X = true)) →
    let s' := install w wid (workerLoop wid X) in
    idleChecks s' = S (idleChecks s) ∧
    ((waitingResolvers s' = waitingResolvers s ∧
      idleResolved s' = idleResolved s) ∨
     (waitingResolvers s' = [] ∧
      idleResolved s' = idleResolved s ++ waitingResolvers s ∧
      isIdle s' = true))).
  { intros X [Hc HX] s0. unfold s0.
    destruct (untouched_install w wid X)
      as (_&_&_&_&_& -> & -> &_& -> &_).
    split; [done|]. destruct HX as [?|(?&?&?)]; [by left|right].
    split_and!; [done..|]. by apply isIdle_install. }
  destruct (variant s), res; intros [= <-].
  1,2,3: by apply Hloop, Hgo.
  unfold install. by apply (Hgo s).
Qed.

Lemma other_idle_bookkeeping s e s' :
  (∀ w r, e ≠ Settle w r) → step s e = Some s' →
  idleChecks s' = idleChecks s ∧
  (∀ p, p ∈ waitingResolvers s → p ∈ waitingResolvers s') ∧
  (∀ p, p ∈ idleResolved s → p ∈ idleResolved s').
Proof.
  intros He. destruct e; simpl; try (by destruct (He w r)).
  - unfold enqueue. destruct (isAcceptingWork s); simpl; intros [= <-];
      [|done].
    rewrite notifyWorkersOfNewWork_norm. simpl.
    destruct (untouched_ensureWorkers (pushJob j s))
      as (_&_&_&_&_& -> & -> &_& -> &_).
    by rewrite pushJob_norm.
  - intros [= <-]. rewrite waitForIdle_norm. simpl. split; [done|].
    destruct (isIdle s); split; intros p Hp; try done;
      apply elem_of_app; by left.
  - intros [= <-]. unfold finishAllWork.
    by rewrite notifyWorkersOfNewWork_norm.
  - unfold finishResume. repeat case_match; try done. by intros [= <-].
  - unfold resume. repeat case_match; try done. intros [= <-].
    by destruct (untouched_install w workerId0 s)
      as (_&_&_&_&_& -> & -> &_& -> &_).
  - unfold elapse. case_match; [|done]. by intros [= <-].
  - unfold timerFire. repeat case_match; try done. by intros [= <-].
  - by intros [= <-].
Qed.

Lemma settle_or_other e :
  (∃ w r, e = Settle w r) ∨ (∀ w r, e ≠ Settle w r).
Proof. destruct e; eauto; by right. Qed.

(** ** Induction over the segments *)

Lemma settle_runs v c s w wid j st nf res r :
  reachable v c s →
  coroutines s !! w = Some (mkCoroutine wid (WExecuting j st nf res)) →
  settle w r s =
    Some (install w wid
            (workerLoop wid
               (finallyBlock j (delivered res (toJobResult r (jobProps j)) s)))) ∧
  (v = PromisePerJob →
     ∃ id, res = Some id ∧ concurrentJobId j = Some id ∧
           jobPromises s !! id = Some None).
Proof.
  intros Hr Hco. pose proof (reachable_variant _ _ _ Hr) as Hv.
  destruct (Deliv_reachable _ _ _ Hr) as [HD Hh].
  pose proof (Hh _ _ Hco) as Hres. simpl in Hres.
  pose proof (executingJobs_split _ _ _ _ _ _ _ Hco) as Hex.
  destruct (DelivOn_settled s j res r _ (DelivOn_perm _ _ _ Hex HD) Hres)
    as [_ Hid].
  unfold settle. rewrite Hco, deliver_norm. rewrite Hv in *.
  destruct v.
  - split; [done|]. done.
  - destruct (Hid eq_refl) as (id & -> & Hp & _). split; [done|].
    intros _. exists id. split_and!; [done| |done].
    by rewrite <- (Hres eq_refl).
Qed.


Lemma reachable_segments v c (P : State → Prop) :
  P (init v c) →
  (∀ s j, reachable v c s → P s → isAcceptingWork s = true →
     P (notifyWorkersOfNewWork (ensureWorkers (pushJob j s)))) →
  (∀ s, reachable v c s → P s → P (snd (waitForIdle s))) →
  (∀ s, reachable v c s → P s → P (finishAllWork s)) →
  (∀ s k ws, reachable v c s → P s →
     finishCalls s !! k = Some (mkFinishCall ws false) →
     forallb (isTerminated s) ws = true →
     P (set_finishCalls (<[k := mkFinishCall ws true]> (finishCalls s))
          (set_workers [] s))) →
  (∀ s w wid p, reachable v c s → P s →
     coroutines s !! w = Some (mkCoroutine wid (WAwaitWork p)) →
     p ∈ signalled s →
     P (install w wid (workerLoop wid s))) →
  (∀ s w wid j st nf res r, reachable v c s → P s →
     coroutines s !! w = Some (mkCoroutine wid (WExecuting j st nf res)) →
     P (install w wid
          (workerLoop wid
             (finallyBlock j (delivered res (toJobResult r (jobProps j)) s))))) →
  (∀ s d, reachable v c s → P s → 0 ≤ d → P (set_now (now s + d) s)) →
  (∀ s w wid j st nf res, reachable v c s → P s →
     coroutines s !! w = Some (mkCoroutine wid (WExecuting j st nf res)) →
     P (set_coroutines
          (<[w := mkCoroutine wid (WExecuting j st (nf + watchdogPeriod) res)]>
             (coroutines s))
          (set_warnLog
             (warnLog s ++ [watchdogReport w wid (jobProps j) st nf])
             (set_now nf s)))) →
  (∀ s l a, reachable v c s → P s → P (callerWrite l a s)) →
  ∀ s, reachable v c s → P s.
Proof.
  intros Hinit Henq Hidle Hfin Hfr Hres Hset Hel Htf Hcw s Hr.
  induction Hr as [|s e s' Hr IH Hstep]; [done|].
  destruct e; simpl in Hstep.
  - unfold enqueue in Hstep. destruct (isAcceptingWork s) eqn:Ha;
      simpl in Hstep; simplify_eq; [|done]. by apply Henq.
  - simplify_eq. by apply Hidle.
  - simplify_eq. by apply Hfin.
  - unfold finishResume in Hstep.
    destruct (finishCalls s !! k) as [[ws [|]]|] eqn:Hk; try done.
    destruct (forallb (isTerminated s) ws) eqn:Hall; [|done].
    simplify_eq. by eapply Hfr.
  - unfold resume in Hstep.
    destruct (coroutines s !! w) as [[wid [p|j st nf res| |]]|] eqn:Hco;
      try done.
    case_bool_decide; [|done]. simplify_eq. by eapply Hres.
  - destruct (coroutines s !! w) as [[wid [p|j st nf res| |]]|] eqn:Hco;
      try (unfold settle in Hstep; rewrite Hco in Hstep; done).
    destruct (settle_runs _ _ _ _ _ _ _ _ _ r Hr Hco) as [Hs _].
    rewrite Hs in Hstep. simplify_eq. by eapply Hset.
  - unfold elapse in Hstep. case_match eqn:Hd; [|done]. simplify_eq.
    apply andb_true_iff in Hd as [Hd _]. apply bool_decide_eq_true in Hd.
    by apply Hel.
  - unfold timerFire in Hstep.
    destruct (coroutines s !! w) as [[wid [p|j st nf res| |]]|] eqn:Hco;
      try done.
    case_match; [|done]. simplify_eq.
    exact (Htf s w wid j st nf res Hr IH Hco).
  - simplify_eq. by apply Hcw.
Qed.

Lemma install_after_job w wid X :
  produced (install w wid (workerLoop wid X)) = produced X ∧
  deref (install w wid (workerLoop wid X))
        (getResults (install w wid (workerLoop wid X))) =
    deref X (getResults X) ∧
  jobPromises (install w wid (workerLoop wid X)) = jobPromises X ∧
  isAcceptingWork (install w wid (workerLoop wid X)) = isAcceptingWork X ∧
  coroutines (install w wid (workerLoop wid X)) =
    <[w := mkCoroutine wid (fst (workerLoop wid X))]> (coroutines X) ∧
  (∀ j' rest, queue X = j' :: rest →
     executingJob (mkCoroutine wid (fst (workerLoop wid X))) = Some j' ∧
     queue (install w wid (workerLoop wid X)) = rest).
Proof.
  pose proof (untouched_install w wid X)
    as (_ & _ & Eres & Eheap & Eacc & _ & _ & _ & _ & _ & Eprod & Eprom & _).
  split_and!; try done.
  - unfold deref, getResults. by rewrite Eres, Eheap.
  - rewrite install_eq. simpl. by rewrite workerLoop_coroutines.
  - intros j' rest Hq.
    destruct (workerLoop_start wid X j' rest Hq) as [E1 E2].
    rewrite install_eq. cbn [executingJob wstate fst snd].
    rewrite E1. split; [done|].
    cbn [queue set_coroutines]. exact E2.
Qed.

Lemma job_end_state j res o s :
  produced (finallyBlock j (delivered res o s)) = produced s ++ [o] ∧
  queue (finallyBlock j (delivered res o s)) = queue s ∧
  coroutines (finallyBlock j (delivered res o s)) = coroutines s ∧
  isAcceptingWork (finallyBlock j (delivered res o s)) = isAcceptingWork s ∧
  (variant s = Accumulate → is_Some (heap s !! results s) →
     deref (finallyBlock j (delivered res o s))
           (getResults (finallyBlock j (delivered res o s))) =
       deref s (getResults s) ++ [o]) ∧
  (variant s = PromisePerJob →
     ∀ id, res = Some id → jobPromises s !! id = Some None →
       jobPromises (finallyBlock j (delivered res o s)) !! id = Some (Some o)).
Proof.
  split_and!.
  - by rewrite finallyBlock_norm, checkIfIdle_norm.
  - by rewrite finallyBlock_queue.
  - by rewrite finallyBlock_coroutines.
  - by rewrite finallyBlock_isAcceptingWork.
  - intros Hv [a Ha]. unfold deref, getResults.
    rewrite finallyBlock_norm, checkIfIdle_norm. simpl. rewrite Hv.
    rewrite lookup_alter_eq. by rewrite Ha.
  - intros Hv id -> Hp.
    rewrite finallyBlock_norm, checkIfIdle_norm. simpl. rewrite Hv.
    unfold resolvePromise. rewrite Hp.
    apply list_lookup_insert_eq. by apply lookup_lt_Some in Hp.
Qed.

Lemma job_end_scheduling w wid j res o o' s :
  scheduling (install w wid (workerLoop wid (finallyBlock j (delivered res o s)))) =
  scheduling (install w wid (workerLoop wid (finallyBlock j (delivered res o' s)))).
Proof.
  apply scheduling_install;
    rewrite !finallyBlock_norm, !checkIfIdle_norm; done.
Qed.

Lemma HeapOk_run s es s' :
  noCallerWrite es → HeapOk s → run s es = Some s' → HeapOk s'.
Proof.
  unfold noCallerWrite. revert s.
  induction es as [|e es IH]; simpl; intros s Hes HH Hrun.
  - by simplify_eq.
  - apply andb_true_iff in Hes as [He Hes].
    destruct (step s e) as [s1|] eqn:Hstep; [|done].
    eapply IH; [done| |done]. eapply HeapOk_step; [|done..].
    by destruct (isCallerWrite e).
Qed.

(** ** Order of execution *)

Lemma callJob_call j wid :
  callJob (mkExecuteCall (execute j) wid (properties j)) = j.
Proof. by destruct j. Qed.

Lemma Fifo_frame s s' :
  invocations s' = invocations s → queue s' = queue s →
  submitted s' = submitted s → Fifo s → Fifo s'.
Proof. unfold Fifo. by intros -> -> ->. Qed.

Lemma Fifo_loop wid s : Fifo s → Fifo (snd (workerLoop wid s)).
Proof.
  unfold Fifo. intros H. loop_cases_raw wid s; try done.
  rewrite map_app, <- app_assoc. simpl. rewrite callJob_call, <- H.
  by match goal with Hq : queue _ = _ |- _ => rewrite Hq end.
Qed.

Lemma Fifo_install w wid s : Fifo s → Fifo (install w wid (workerLoop wid s)).
Proof.
  intros H. rewrite install_eq.
  eapply Fifo_frame; [..|exact (Fifo_loop wid s H)]; done.
Qed.

Lemma Fifo_spawn s i : Fifo s → Fifo (spawnWorker s i).
Proof.
  intros H. rewrite spawnWorker_eq. cbv zeta.
  eapply Fifo_frame; [..|exact (Fifo_loop (Z.of_nat i + 1) s H)]; done.
Qed.

Lemma Fifo_ensureWorkers s : Fifo s → Fifo (ensureWorkers s).
Proof.
  intros H. unfold ensureWorkers. case_match; [|done].
  apply (foldl_spawn_ind (λ _ s', Fifo s') (λ k s' H', Fifo_spawn s' k H')
           _ 0%nat s H).
Qed.

Lemma Fifo_reachable v c s : reachable v c s → Fifo s.
Proof.
  revert s. apply reachable_segments.
  - done.
  - intros s j _ H _. rewrite notifyWorkersOfNewWork_norm.
    eapply Fifo_frame; [..|apply Fifo_ensureWorkers]; [done..|].
    rewrite pushJob_norm. unfold Fifo in *. simpl.
    by rewrite map_app, app_assoc, H.
  - intros s _ H. rewrite waitForIdle_norm. by eapply Fifo_frame.
  - intros s _ H. unfold finishAllWork. rewrite notifyWorkersOfNewWork_norm.
    by eapply Fifo_frame.
  - intros s k ws _ H _ _. by eapply Fifo_frame.
  - intros s w wid p _ H _ _. by apply Fifo_install.
  - intros s w wid j st nf res r _ H _. apply Fifo_install.
    eapply Fifo_frame; [..|exact H];
      by rewrite finallyBlock_norm, checkIfIdle_norm.
  - intros s d _ H _. by eapply Fifo_frame.
  - intros s w wid j st nf res _ H _. by eapply Fifo_frame.
  - intros s l a _ H. by eapply Fifo_frame.
Qed.

(** ** Who calls [execute] *)

Lemma foldl_spawn_ind_lt (P : State → Prop) n :
  (∀ k s, (k < n)%nat → P s → P (spawnWorker s k)) →
  ∀ s, P s → P (foldl spawnWorker s (seq 0 n)).
Proof.
  intros Hs.
  assert (H : ∀ m k s, (k + m ≤ n)%nat → P s →
                P (foldl spawnWorker s (seq k m))).
  { induction m as [|m IH]; intros k s Hk HP; simpl; [done|].
    apply IH; [lia|]. apply Hs; [lia|done]. }
  intros s HP. by apply (H n 0%nat).
Qed.

Lemma CallsFrom_frame hi s s' :
  invocations s' = invocations s → CallsFrom hi s → CallsFrom hi s'.
Proof. unfold CallsFrom. by intros ->. Qed.

Lemma CallsFrom_loop hi wid s :
  1 ≤ wid ≤ hi → CallsFrom hi s → CallsFrom hi (snd (workerLoop wid s)).
Proof.
  unfold CallsFrom. intros Hw H. loop_cases_raw wid s; try done.
  intros call [?| ->%list_elem_of_singleton]%elem_of_app; [by apply H|done].
Qed.

Lemma CallsFrom_install hi w wid s :
  1 ≤ wid ≤ hi → CallsFrom hi s →
  CallsFrom hi (install w wid (workerLoop wid s)).
Proof.
  intros Hw H. rewrite install_eq.
  eapply CallsFrom_frame; [|exact (CallsFrom_loop hi wid s Hw H)]. done.
Qed.

Lemma CallsFrom_ensureWorkers s :
  CallsFrom (concurrency s) s → CallsFrom (concurrency s) (ensureWorkers s).
Proof.
  intros H. unfold ensureWorkers. case_match; [|done].
  apply (foldl_spawn_ind_lt (λ s', CallsFrom (concurrency s) s')); [|done].
  intros k s' Hk H'. rewrite spawnWorker_eq. cbv zeta.
  eapply CallsFrom_frame;
    [|apply (CallsFrom_loop (concurrency s) (Z.of_nat k + 1) s'); [lia|done]].
  done.
Qed.

Lemma worker_id_bound c s w co :
  Life c s → coroutines s !! w = Some co → 1 ≤ workerId co ≤ c.
Proof.
  intros HL Hco. rewrite (life_ids _ _ _ HL _ _ Hco).
  apply lookup_lt_Some in Hco. destruct (life_len _ _ _ HL); lia.
Qed.

Lemma CallsFrom_reachable v c s : reachable v c s → CallsFrom c s.
Proof.
  revert s. apply reachable_segments.
  - intros call Hc. by apply elem_of_nil in Hc.
  - intros s j Hr H _. rewrite notifyWorkersOfNewWork_norm.
    eapply CallsFrom_frame; [done|].
    pose proof (life_conc _ _ _ (Life_reachable _ _ _ Hr)) as Hc.
    assert (Hc' : concurrency (pushJob j s) = c) by by rewrite pushJob_norm.
    rewrite <- Hc'. apply CallsFrom_ensureWorkers. rewrite Hc'.
    eapply CallsFrom_frame; [|exact H]. by rewrite pushJob_norm.
  - intros s _ H. rewrite waitForIdle_norm. by eapply CallsFrom_frame.
  - intros s _ H. unfold finishAllWork. rewrite notifyWorkersOfNewWork_norm.
    by eapply CallsFrom_frame.
  - intros s k ws _ H _ _. by eapply CallsFrom_frame.
  - intros s w wid p Hr H Hco _. apply CallsFrom_install; [|done].
    apply (worker_id_bound c s w _ (Life_reachable _ _ _ Hr) Hco).
  - intros s w wid j st nf res r Hr H Hco. apply CallsFrom_install.
    + apply (worker_id_bound c s w _ (Life_reachable _ _ _ Hr) Hco).
    + eapply CallsFrom_frame; [|exact H].
      by rewrite finallyBlock_norm, checkIfIdle_norm.
  - intros s d _ H _. by eapply CallsFrom_frame.
  - intros s w wid j st nf res _ H _. by eapply CallsFrom_frame.
  - intros s l a _ H. by eapply CallsFrom_frame.
Qed.

(** ** The resolver map *)

Lemma workerLoop_queue_split wid s :
  executingJobOf (fst (workerLoop wid s)) ++ queue (snd (workerLoop wid s)) =
  queue s.
Proof. loop_cases_raw wid s; done. Qed.

Lemma workerLoop_resolveMap wid s :
  resolveMap (snd (workerLoop wid s)) = resolveMap s.
Proof. loop_cases_raw wid s; done. Qed.

Lemma pendingIds_loop wid s ex :
  omap concurrentJobId
    (queue (snd (workerLoop wid s)) ++
     executingJobOf (fst (workerLoop wid s)) ++ ex) ≡ₚ
  omap concurrentJobId (queue s ++ ex).
Proof.
  rewrite <- (workerLoop_queue_split wid s).
  apply omap_Permutation. rewrite !app_assoc. f_equiv.
  apply Permutation_app_comm.
Qed.

Lemma pendingIds_install s w wid old :
  coroutines s !! w = Some (mkCoroutine wid old) →
  omap concurrentJobId (executingJobOf old) ++
    pendingIds (install w wid (workerLoop wid s)) ≡ₚ pendingIds s.
Proof.
  intros Hco. rewrite install_eq. unfold pendingIds. simpl.
  rewrite workerLoop_coroutines, <- omap_app.
  rewrite <- (pendingIds_loop wid s (executingJobs (coroutines s))).
  apply omap_Permutation.
  rewrite <- (executingJobs_insert _ _ _ wid (fst (workerLoop wid s)) Hco).
  simpl. rewrite !app_assoc. f_equiv. apply Permutation_app_comm.
Qed.

Lemma pendingIds_spawn s i : pendingIds (spawnWorker s i) ≡ₚ pendingIds s.
Proof.
  rewrite spawnWorker_eq. cbv zeta. unfold pendingIds. simpl.
  rewrite workerLoop_coroutines, executingJobs_app, executingJobs_single.
  rewrite <- (pendingIds_loop (Z.of_nat i + 1) s (executingJobs (coroutines s))).
  apply omap_Permutation. f_equiv. apply Permutation_app_comm.
Qed.

Lemma Resolvers_frame s s' :
  resolveMap s' = resolveMap s → variant s' = variant s →
  pendingIds s' ≡ₚ pendingIds s → Resolvers s → Resolvers s'.
Proof.
  unfold Resolvers. intros -> -> HP H id p Hid.
  destruct (H id p Hid). by rewrite HP.
Qed.

Lemma Resolvers_spawn s i : Resolvers s → Resolvers (spawnWorker s i).
Proof.
  apply Resolvers_frame; [| |apply pendingIds_spawn].
  - rewrite spawnWorker_eq. cbv zeta. simpl. apply workerLoop_resolveMap.
  - by destruct (untouched_spawnWorker s i) as [-> _].
Qed.

Lemma Resolvers_ensureWorkers s : Resolvers s → Resolvers (ensureWorkers s).
Proof.
  intros H. unfold ensureWorkers. case_match; [|done].
  apply (foldl_spawn_ind (λ _ s', Resolvers s')
           (λ k s' H', Resolvers_spawn s' k H') _ 0%nat s H).
Qed.

Lemma Resolvers_pushJob j s : Resolvers s → Resolvers (pushJob j s).
Proof.
  intros H id p. rewrite pushJob_norm. unfold pendingIds. simpl.
  rewrite <- !app_assoc, !omap_app. simpl.
  destruct (variant s) eqn:Hv; simpl.
  - intros Hid. destruct (H id p Hid) as [? _]. congruence.
  - intros [[<- _]|[_ Hid]]%lookup_insert_Some; (split; [done|]).
    + apply elem_of_app. right. by left.
    + destruct (H id p Hid) as [_ Hin]. unfold pendingIds in Hin.
      rewrite omap_app in Hin. apply elem_of_app in Hin as [?|?].
      * apply elem_of_app. by left.
      * apply elem_of_app. right. by right.
Qed.

Lemma Resolvers_install s w wid old :
  coroutines s !! w = Some (mkCoroutine wid old) →
  executingJobOf old = [] →
  Resolvers s → Resolvers (install w wid (workerLoop wid s)).
Proof.
  intros Hco Hold. apply Resolvers_frame.
  - rewrite install_eq. simpl. apply workerLoop_resolveMap.
  - by destruct (untouched_install w wid s) as [-> _].
  - rewrite <- (pendingIds_install s w wid old Hco). by rewrite Hold.
Qed.

Lemma Resolvers_settle s w wid j st nf res o :
  coroutines s !! w = Some (mkCoroutine wid (WExecuting j st nf res)) →
  Resolvers s →
  Resolvers (install w wid (workerLoop wid (finallyBlock j (delivered res o s)))).
Proof.
  intros Hco H.
  assert (Em : resolveMap (finallyBlock j (delivered res o s)) =
                 match variant s, concurrentJobId j with
                 | PromisePerJob, Some id => delete id (resolveMap s)
                 | _, _ => resolveMap s
                 end)
    by by rewrite finallyBlock_norm, checkIfIdle_norm.
  assert (Evar : variant (finallyBlock j (delivered res o s)) = variant s)
    by by rewrite finallyBlock_norm, checkIfIdle_norm.
  pose proof (pendingIds_install (finallyBlock j (delivered res o s)) w wid
                (WExecuting j st nf res)) as HP.
  rewrite finallyBlock_coroutines in HP. specialize (HP Hco).
  assert (Epend : pendingIds (finallyBlock j (delivered res o s)) = pendingIds s).
  { unfold pendingIds. by rewrite finallyBlock_coroutines, finallyBlock_queue. }
  rewrite Epend in HP. clear Epend.
  revert Em Evar HP. generalize (finallyBlock j (delivered res o s)).
  intros X Em Evar HP id p Hid.
  destruct (untouched_install w wid X) as [Ev _]. rewrite Ev, Evar.
  rewrite install_eq in Hid. simpl in Hid.
  rewrite workerLoop_resolveMap, Em in Hid. simpl in HP.
  destruct (variant s) eqn:Hv.
  - destruct (H id p Hid) as [? _]. congruence.
  - split; [done|].
    destruct (concurrentJobId j) as [id0|] eqn:Hj; simpl in HP.
    + apply lookup_delete_Some in Hid as [Hne Hid].
      destruct (H id p Hid) as [_ Hin]. rewrite <- HP in Hin.
      apply elem_of_cons in Hin as [?|?]; [congruence|done].
    + destruct (H id p Hid) as [_ Hin]. by rewrite <- HP in Hin.
Qed.

Lemma Resolvers_reachable v c s : reachable v c s → Resolvers s.
Proof.
  revert s. apply reachable_segments.
  - intros id p Hid. simpl in Hid. by rewrite lookup_empty in Hid.
  - intros s j _ H _. rewrite notifyWorkersOfNewWork_norm.
    eapply Resolvers_frame;
      [..|apply Resolvers_ensureWorkers, (Resolvers_pushJob j), H]; done.
  - intros s _ H. rewrite waitForIdle_norm. by eapply Resolvers_frame.
  - intros s _ H. unfold finishAllWork. rewrite notifyWorkersOfNewWork_norm.
    by eapply Resolvers_frame.
  - intros s k ws _ H _ _. by eapply Resolvers_frame.
  - intros s w wid p _ H Hco _.
    by apply (Resolvers_install s w wid (WAwaitWork p)).
  - intros s w wid j st nf res r _ H Hco.
    by apply (Resolvers_settle s w wid j st nf res).
  - intros s d _ H _. by eapply Resolvers_frame.
  - intros s w wid j st nf res _ H Hco.
    apply (Resolvers_frame s); [done|done| |exact H].
    unfold pendingIds. simpl. apply omap_Permutation. f_equiv.
    apply (Permutation_app_inv_l [j]).
    rewrite (executingJobs_insert _ _ (mkCoroutine wid (WExecuting j st nf res))
               wid (WExecuting j st (nf + watchdogPeriod) res) Hco).
    done.
  - intros s l a _ H. by eapply Resolvers_frame.
Qed.

(** ** Counting jobs *)

Lemma executingJobs_length cs : length (executingJobs cs) = inFlight cs.
Proof.
  induction cs as [|x cs IH]; [done|].
  unfold executingJobs, inFlight, isExecuting, executingJob in *. simpl.
  destruct (wstate x); simpl; auto.
Qed.

Lemma conservation v c s :
  reachable v c s →
  length (submitted s) =
    (length (produced s) + length (queue s) + inFlight (coroutines s))%nat.
Proof.
  intros Hr. destruct (Deliv_reachable _ _ _ Hr) as [[Hc _] _].
  apply Permutation_length in Hc.
  rewrite !length_app, !length_map, executingJobs_length in Hc. lia.
Qed.

Lemma submitted_enqueue j s :
  submitted (notifyWorkersOfNewWork (ensureWorkers (pushJob j s))) =
  submitted s ++ [j].
Proof.
  rewrite notifyWorkersOfNewWork_norm. simpl.
  destruct (untouched_ensureWorkers (pushJob j s))
    as (_&_&_&_&_&_&_&_&_& -> &_).
  by rewrite pushJob_norm.
Qed.




(** ** Submitting *)

Lemma enqueue_accepting j s :
  isAcceptingWork s = true →
  enqueue j s = Ok (notifyWorkersOfNewWork (ensureWorkers (pushJob j s))).
Proof. intros H. unfold enqueue. by rewrite H. Qed.

Lemma enqueue_closed j s :
  isAcceptingWork s = false →
  enqueue j s = Throw (mkError "Error" "Cannot enqueue jobs after shutdown").
Proof. intros H. unfold enqueue. by rewrite H. Qed.

Lemma enqueue_frame j s :
  isAcceptingWork (notifyWorkersOfNewWork (ensureWorkers (pushJob j s))) =
    isAcceptingWork s ∧
  variant (notifyWorkersOfNewWork (ensureWorkers (pushJob j s))) = variant s ∧
  jobPromises (notifyWorkersOfNewWork (ensureWorkers (pushJob j s))) =
    jobPromises s ++
    match variant s with
    | PromisePerJob => [None]
    | Accumulate => []
    end.
Proof.
  rewrite notifyWorkersOfNewWork_norm. simpl.
  destruct (untouched_ensureWorkers (pushJob j s))
    as (-> &_&_&_& -> &_&_&_&_&_&_& -> &_).
  rewrite pushJob_norm. simpl. split_and!; [done..|].
  destruct (variant s); [|done]. by rewrite app_nil_r.
Qed.


(** ** Progress of the worker loops *)

Lemma workerLoop_step_cases wid s :
  (queue s = [] ∧ isExecutingState (fst (workerLoop wid s)) = false ∧
   queue (snd (workerLoop wid s)) = []) ∨
  (∃ j rest, queue s = j :: rest ∧
     isExecutingState (fst (workerLoop wid s)) = true ∧
     queue (snd (workerLoop wid s)) = rest).
Proof.
  loop_cases_raw wid s; try (by left).
  right. by eexists _, _.
Qed.

Lemma install_workLeft s w wid old :
  coroutines s !! w = Some (mkCoroutine wid old) →
  (workLeft (install w wid (workerLoop wid s)) +
   (if isExecutingState old then 1 else 0) +
   (match queue s with [] => 0 | _ => 1 end) = workLeft s)%nat.
Proof.
  intros Hco. unfold workLeft. rewrite install_eq. simpl.
  rewrite workerLoop_coroutines.
  pose proof (inFlight_insert (coroutines s) w _
                (mkCoroutine wid (fst (workerLoop wid s))) Hco) as H.
  unfold isExecuting in H. simpl in H.
  change (match old with WExecuting _ _ _ _ => true | _ => false end)
    with (isExecutingState old) in H.
  change (match fst (workerLoop wid s) with
          | WExecuting _ _ _ _ => true | _ => false end)
    with (isExecutingState (fst (workerLoop wid s))) in H.
  destruct (workerLoop_step_cases wid s)
    as [(Hq & He & Hq')|(j & rest & Hq & He & Hq')];
    rewrite Hq, Hq' in *; rewrite He in H; simpl; lia.
Qed.

Lemma install_live s w wid :
  finishCalls (install w wid (workerLoop wid s)) = finishCalls s ∧
  isAcceptingWork (install w wid (workerLoop wid s)) = isAcceptingWork s ∧
  submitted (install w wid (workerLoop wid s)) = submitted s ∧
  length (coroutines (install w wid (workerLoop wid s))) =
    length (coroutines s).
Proof.
  destruct (untouched_install w wid s)
    as (_&_&_&_& Ea &_&_&_&_& Es &_&_&_& Ef &_).
  split_and!; try done.
  rewrite install_eq. simpl. by rewrite length_insert, workerLoop_coroutines.
Qed.

Lemma job_end_live j res o s :
  finishCalls (finallyBlock j (delivered res o s)) = finishCalls s ∧
  isAcceptingWork (finallyBlock j (delivered res o s)) = isAcceptingWork s ∧
  submitted (finallyBlock j (delivered res o s)) = submitted s ∧
  coroutines (finallyBlock j (delivered res o s)) = coroutines s ∧
  queue (finallyBlock j (delivered res o s)) = queue s.
Proof. by rewrite finallyBlock_norm, checkIfIdle_norm. Qed.

Lemma inFlight_pos_inv cs :
  (0 < inFlight cs)%nat →
  ∃ w wid j st nf res, cs !! w = Some (mkCoroutine wid (WExecuting j st nf res)).
Proof.
  induction cs as [|[wid st] cs IH]; unfold inFlight; simpl; [lia|].
  destruct st as [p|j st nf res| |]; unfold isExecuting; simpl.
  2: { intros _. by exists 0%nat, wid, j, st, nf, res. }
  all: intros H; destruct (IH H) as (w & ?); by exists (S w).
Qed.

Lemma settle_workLeft v c s w wid j st nf res r :
  reachable v c s →
  coroutines s !! w = Some (mkCoroutine wid (WExecuting j st nf res)) →
  ∃ s', settle w r s = Some s' ∧ (workLeft s' < workLeft s)%nat ∧
        finishCalls s' = finishCalls s ∧
        isAcceptingWork s' = isAcceptingWork s ∧
        submitted s' = submitted s ∧
        length (coroutines s') = length (coroutines s).
Proof.
  intros Hr Hco.
  destruct (settle_runs _ _ _ _ _ _ _ _ _ r Hr Hco) as [Hs _].
  eexists. split; [exact Hs|].
  destruct (job_end_live j res (toJobResult r (jobProps j)) s)
    as (Ef & Ea & Es & Ec & Eq).
  destruct (install_live (finallyBlock j (delivered res (toJobResult r (jobProps j)) s))
              w wid) as (Ff & Fa & Fs & Fc).
  pose proof (install_workLeft
                (finallyBlock j (delivered res (toJobResult r (jobProps j)) s))
                w wid (WExecuting j st nf res)) as Hm.
  rewrite Ec in Hm. specialize (Hm Hco). simpl in Hm.
  assert (Hw : workLeft (finallyBlock j (delivered res (toJobResult r (jobProps j)) s))
               = workLeft s).
  { unfold workLeft. by rewrite Ec, Eq. }
  rewrite Hw in Hm.
  split_and!; [lia|congruence..].
Qed.

Lemma resume_workLeft v c s w wid p :
  reachable v c s →
  coroutines s !! w = Some (mkCoroutine wid (WAwaitWork p)) →
  queue s ≠ [] →
  ∃ s', resume w s = Some s' ∧ (workLeft s' < workLeft s)%nat ∧
        finishCalls s' = finishCalls s ∧
        isAcceptingWork s' = isAcceptingWork s ∧
        submitted s' = submitted s ∧
        length (coroutines s') = length (coroutines s).
Proof.
  intros Hr Hco Hq. unfold resume. rewrite Hco.
  destruct (decide (p ∈ signalled s)) as [Hp|Hp].
  - rewrite bool_decide_eq_true_2 by done. eexists. split; [done|].
    destruct (install_live s w wid) as (Ff & Fa & Fs & Fc).
    pose proof (install_workLeft s w wid (WAwaitWork p) Hco) as Hm.
    simpl in Hm. split_and!; try done.
    destruct (queue s); [done|lia].
  - by destruct (Quiet_reachable _ _ _ Hr _ _ _ Hco eq_refl Hp).
Qed.

Lemma settlesAs_app out s es1 s1 es2 :
  run s es1 = Some s1 → settlesAs out s es1 → settlesAs out s1 es2 →
  settlesAs out s (es1 ++ es2).
Proof.
  revert s. induction es1 as [|e es1 IH]; simpl; intros s Hrun H1 H2.
  - by simplify_eq.
  - destruct (step s e) as [s0|] eqn:Hs; [|done].
    destruct H1 as [He H1]. split; [done|]. by apply IH.
Qed.

Lemma drain_steps v c (out : Job → Settlement) :
  1 ≤ c →
  ∀ n s, reachable v c s → (workLeft s ≤ n)%nat →
    ∃ es s', run s es = Some s' ∧ isIdle s' = true ∧
             forallb isWorkerEvent es = true ∧ settlesAs out s es ∧
             (length es ≤ n)%nat ∧
             finishCalls s' = finishCalls s ∧
             isAcceptingWork s' = isAcceptingWork s ∧
             submitted s' = submitted s ∧
             length (coroutines s') = length (coroutines s).
Proof.
  intros Hc. induction n as [|n IH]; intros s Hr Hn.
  - exists [], s. split_and!; try done.
    pose proof (life_active _ _ _ (Life_reachable _ _ _ Hr)) as Ha.
    unfold workLeft in Hn. unfold isIdle.
    rewrite !bool_decide_eq_true_2; [done|lia|lia].
  - destruct (decide (workLeft s ≤ n)%nat) as [Hle|Hgt].
    { destruct (IH s Hr Hle) as (es & s' & ? & ? & ? & ? & ? & ? & ? & ? & ?).
      exists es, s'. split_and!; try done. lia. }
    assert (Hnext : ∃ e s1, step s e = Some s1 ∧ isWorkerEvent e = true ∧
              (∀ w r, e = Settle w r →
                 ∃ co j, coroutines s !! w = Some co ∧
                         executingJob co = Some j ∧ r = out (job j)) ∧
              (workLeft s1 < workLeft s)%nat ∧
              finishCalls s1 = finishCalls s ∧
              isAcceptingWork s1 = isAcceptingWork s ∧
              submitted s1 = submitted s ∧
              length (coroutines s1) = length (coroutines s)).
    { destruct (decide (0 < inFlight (coroutines s))%nat) as [Hf|Hf].
      - destruct (inFlight_pos_inv _ Hf) as (w & wid & j & st & nf & res & Hco).
        destruct (settle_workLeft _ _ _ _ _ _ _ _ _ (out (job j)) Hr Hco)
          as (s1 & Hs & ? & ? & ? & ? & ?).
        exists (Settle w (out (job j))), s1. split_and!; try done.
        intros w' r' [= <- <-]. by eexists _, j.
      - assert (Hq : queue s ≠ []).
        { intros Hq. unfold workLeft in Hgt. rewrite Hq in Hgt. simpl in Hgt.
          lia. }
        pose proof (Life_reachable _ _ _ Hr) as HL.
        destruct (coroutines s !! 0%nat) as [[wid st]|] eqn:Hco.
        2: { apply lookup_ge_None in Hco.
             assert (Ecs : coroutines s = [])
               by (apply length_zero_iff_nil; lia).
             destruct (life_empty _ _ _ HL Ecs); [done|lia]. }
        destruct st as [p|j st nf res| |].
        + destruct (resume_workLeft _ _ _ _ _ _ Hr Hco Hq)
            as (s1 & Hs & ? & ? & ? & ? & ?).
          exists (Resume 0), s1. split_and!; done.
        + pose proof (inFlight_pos _ _ _ Hco eq_refl) as Hpos. lia.
        + by destruct (life_term _ _ _ HL _ _ Hco eq_refl).
        + destruct (Deliv_reachable _ _ _ Hr) as [_ Hh].
          by specialize (Hh _ _ Hco). }
    destruct Hnext as (e & s1 & Hs & He & Hout & Hlt & E1 & E2 & E3 & E4).
    destruct (IH s1)
      as (es & s' & Hrun & Hidle & Hes & Hsa & Hlen & F1 & F2 & F3 & F4);
      [by eapply reachable_step|lia|].
    exists (e :: es), s'. simpl. rewrite Hs, He.
    split_and!; try done; try congruence. lia.
Qed.

Lemma idle_promises_kept s es s' p :
  run s es = Some s' →
  p ∈ idleResolved s ++ waitingResolvers s →
  p ∈ idleResolved s' ++ waitingResolvers s'.
Proof.
  revert s. induction es as [|e es IH]; simpl; intros s Hrun Hp.
  - by simplify_eq.
  - destruct (step s e) as [s1|] eqn:Hs; [|done].
    apply (IH s1); [done|]. clear IH Hrun.
    apply elem_of_app in Hp. apply elem_of_app.
    destruct (settle_or_other e) as [(w & r & ->)|Hne].
    + destruct (settle_idle_bookkeeping _ _ _ _ Hs)
        as [_ [[-> ->]|(-> & -> & _)]]; [done|].
      left. apply elem_of_app. by destruct Hp; [left|right].
    + destruct (other_idle_bookkeeping _ _ _ Hne Hs) as (_ & H1 & H2).
      destruct Hp; [left|right]; auto.
Qed.

(** ** Retiring the workers after shutdown *)

Lemma sleeping_insert cs w c c' :
  cs !! w = Some c →
  (sleeping (<[w := c']> cs) + (if isAwaiting c then 1 else 0) =
   sleeping cs + (if isAwaiting c' then 1 else 0))%nat.
Proof.
  revert w; induction cs as [|x cs IH]; intros [|w] H; simplify_eq/=.
  - unfold sleeping; simpl. destruct (isAwaiting c), (isAwaiting c'); simpl; lia.
  - specialize (IH _ H). unfold sleeping in *; simpl.
    destruct (isAwaiting x); simpl; lia.
Qed.

Lemma sleeping_pos cs w c :
  cs !! w = Some c → isAwaiting c = true → (1 ≤ sleeping cs)%nat.
Proof.
  intros Hw He.
  pose proof (sleeping_insert cs w c (mkCoroutine 0 WTerminated) Hw) as H.
  rewrite He in H. unfold isAwaiting in H. simpl in H. lia.
Qed.

Lemma sleeping_pos_inv cs :
  (0 < sleeping cs)%nat →
  ∃ w wid p, cs !! w = Some (mkCoroutine wid (WAwaitWork p)).
Proof.
  induction cs as [|[wid st] cs IH]; unfold sleeping; simpl; [lia|].
  destruct st as [p|j st nf res| |]; unfold isAwaiting; simpl.
  1: { intros _. by exists 0%nat, wid, p. }
  all: intros H; destruct (IH H) as (w & ?); by exists (S w).
Qed.

Lemma all_terminated_when_quiet v c s :
  reachable v c s →
  inFlight (coroutines s) = 0%nat → sleeping (coroutines s) = 0%nat →
  allTerminated (coroutines s).
Proof.
  intros Hr Hf Hz w [wid st] Hco. simpl.
  destruct st as [p|j st nf res| |]; [| |done|].
  - pose proof (sleeping_pos _ _ _ Hco eq_refl). lia.
  - pose proof (inFlight_pos _ _ _ Hco eq_refl). lia.
  - destruct (Deliv_reachable _ _ _ Hr) as [_ Hh]. by specialize (Hh _ _ Hco).
Qed.

Lemma workerLoop_exit wid s :
  queue s = [] → isAcceptingWork s = false →
  workerLoop wid s = (WTerminated, s).
Proof. intros Hq Ha. unfold workerLoop. by rewrite Hq, Ha. Qed.

Lemma retire_steps v c :
  ∀ n s, reachable v c s →
    isAcceptingWork s = false → queue s = [] →
    inFlight (coroutines s) = 0%nat → (sleeping (coroutines s) ≤ n)%nat →
    ∃ es s', run s es = Some s' ∧ allTerminated (coroutines s') ∧
             forallb isWorkerEvent es = true ∧
             (∀ out, settlesAs out s es) ∧
             finishCalls s' = finishCalls s ∧
             length (coroutines s') = length (coroutines s) ∧
             submitted s' = submitted s ∧ queue s' = [] ∧
             activeJobs s' = activeJobs s.
Proof.
  induction n as [|n IH]; intros s Hr Ha Hq Hf Hn.
  - exists [], s. split_and!; try done.
    apply (all_terminated_when_quiet _ _ _ Hr Hf). lia.
  - destruct (decide (sleeping (coroutines s) ≤ n)%nat) as [?|Hgt];
      [by apply IH|].
    destruct (sleeping_pos_inv (coroutines s)) as (w & wid & p & Hco); [lia|].
    assert (Hp : p ∈ signalled s).
    { destruct (decide (p ∈ signalled s)) as [?|Hp]; [done|].
      destruct (Quiet_reachable _ _ _ Hr _ _ _ Hco eq_refl Hp). congruence. }
    assert (Hs : step s (Resume w) =
              Some (set_coroutines
                      (<[w := mkCoroutine wid WTerminated]> (coroutines s)) s)).
    { simpl. unfold resume. rewrite Hco, bool_decide_eq_true_2 by done.
      by rewrite (workerLoop_exit wid s Hq Ha). }
    pose proof (sleeping_insert _ _ _ (mkCoroutine wid WTerminated) Hco) as Hsl.
    pose proof (inFlight_insert _ _ _ (mkCoroutine wid WTerminated) Hco) as Hin.
    unfold isAwaiting, isExecuting in Hsl, Hin. simpl in Hsl, Hin.
    destruct (IH _ (reachable_step _ _ _ _ _ Hr Hs))
      as (es & s' & Hrun & Hall & Hes & Hsa & F1 & F2 & F3 & F4 & F5);
      simpl; try done; try lia.
    exists (Resume w :: es), s'.
    change (run s (Resume w :: es))
      with (match step s (Resume w) with
            | Some s1 => run s1 es
            | None => None
            end).
    rewrite Hs. simpl in F1, F2, F3, F4, F5. rewrite length_insert in F2.
    split_and!; try done.
    intros out.
    change (settlesAs out s (Resume w :: es))
      with ((∀ w0 r, Resume w = Settle w0 r →
               ∃ co j, coroutines s !! w0 = Some co ∧
                       executingJob co = Some j ∧ r = out (job j)) ∧
            match step s (Resume w) with
            | Some s1 => settlesAs out s1 es
            | None => True
            end).
    rewrite Hs. split; [done|apply Hsa].
Qed.

Lemma terminated_forallb s ws :
  allTerminated (coroutines s) →
  (∀ w, w ∈ ws → (w < length (coroutines s))%nat) →
  forallb (isTerminated s) ws = true.
Proof.
  intros H Hws. apply forallb_forall. intros w Hw%list_elem_of_In%Hws.
  destruct (lookup_lt_is_Some_2 (coroutines s) w) as [[wid st] Hco]; [lia|].
  unfold isTerminated. rewrite Hco. by rewrite (H _ _ Hco : st = _).
Qed.

Lemma shutdown_steps v c (out : Job → Settlement) s :
  1 ≤ c → reachable v c s →
  ∃ es s' ws,
    run (finishAllWork s) (es ++ [FinishResume (length (finishCalls s))]) =
      Some s' ∧
    forallb isWorkerEvent es = true ∧
    settlesAs out (finishAllWork s) es ∧
    finishCalls s' !! length (finishCalls s) = Some (mkFinishCall ws true) ∧
    queue s' = [] ∧ activeJobs s' = 0 ∧ workers s' = [] ∧
    submitted s' = submitted s ∧ reachable v c s'.
Proof.
  intros Hc Hr.
  assert (Hr1 : reachable v c (finishAllWork s))
    by by eapply (reachable_step _ _ s FinishAllWork).
  assert (E1 : finishCalls (finishAllWork s) =
                 finishCalls s ++ [mkFinishCall (workers s) false] ∧
               isAcceptingWork (finishAllWork s) = false ∧
               submitted (finishAllWork s) = submitted s ∧
               coroutines (finishAllWork s) = coroutines s).
  { unfold finishAllWork. by rewrite notifyWorkersOfNewWork_norm. }
  destruct E1 as (Ef & Ea & Es & Ec).
  destruct (drain_steps v c out Hc _ _ Hr1 (le_n _))
    as (es1 & s2 & Hrun1 & Hidle & Hes1 & Hsa1 & _ & F1 & F2 & F3 & F4).
  pose proof (reachable_run _ _ _ _ _ Hr1 Hrun1) as Hr2.
  unfold isIdle in Hidle. apply andb_true_iff in Hidle as [Hact Hq].
  apply bool_decide_eq_true in Hact, Hq. apply length_zero_iff_nil in Hq.
  pose proof (life_active _ _ _ (Life_reachable _ _ _ Hr2)) as Hfl.
  destruct (retire_steps v c (sleeping (coroutines s2)) s2 Hr2)
    as (es2 & s3 & Hrun2 & Hall & Hes2 & Hsa2 & G1 & G2 & G3 & G4 & G5);
    [congruence|done|lia|done|].
  pose proof (reachable_run _ _ _ _ _ Hr2 Hrun2) as Hr3.
  assert (Hk : finishCalls s3 !! length (finishCalls s) =
                 Some (mkFinishCall (workers s) false)).
  { rewrite G1, F1, Ef. by apply list_lookup_middle. }
  assert (Hws : forallb (isTerminated s3) (workers s) = true).
  { apply terminated_forallb; [done|]. intros w Hw.
    rewrite G2, F4, Ec.
    destruct (life_workers _ _ _ (Life_reachable _ _ _ Hr)) as [E|(_ & E & _)];
      rewrite E in Hw.
    - apply list_elem_of_In, in_seq in Hw. lia.
    - by apply elem_of_nil in Hw. }
  assert (Hfin : step s3 (FinishResume (length (finishCalls s))) =
            Some (set_finishCalls
                    (<[length (finishCalls s) := mkFinishCall (workers s) true]>
                       (finishCalls s3))
                    (set_workers [] s3))).
  { simpl. unfold finishResume. by rewrite Hk, Hws. }
  eexists (es1 ++ es2), _, (workers s). split_and!.
  - rewrite <- app_assoc, run_app, Hrun1. simpl.
    rewrite run_app, Hrun2. simpl. simpl in Hfin. by rewrite Hfin.
  - by rewrite forallb_app, Hes1, Hes2.
  - by eapply settlesAs_app.
  - simpl. apply list_lookup_insert_eq. by apply lookup_lt_Some in Hk.
  - done.
  - simpl. lia.
  - done.
  - simpl. congruence.
  - by eapply reachable_step.
Qed.

(** ** After [finishAllWork] has been called *)

Lemma queue_install_le w wid s :
  (length (queue (install w wid (workerLoop wid s))) ≤ length (queue s))%nat.
Proof.
  rewrite install_eq. simpl. rewrite <- (workerLoop_queue_split wid s).
  rewrite length_app. lia.
Qed.

Lemma step_closed s e s' :
  step s e = Some s' → isAcceptingWork s = false →
  isAcceptingWork s' = false ∧ submitted s' = submitted s ∧
  (length (queue s') ≤ length (queue s))%nat.
Proof.
  intros Hs Ha. destruct e; simpl in Hs.
  - rewrite (enqueue_closed j s Ha) in Hs. by simplify_eq.
  - simplify_eq. by rewrite waitForIdle_norm.
  - simplify_eq. unfold finishAllWork. by rewrite notifyWorkersOfNewWork_norm.
  - unfold finishResume in Hs. repeat case_match; by simplify_eq.
  - unfold resume in Hs.
    destruct (coroutines s !! w) as [[wid [p|j st nf res| |]]|]; try done.
    case_match; [|done]. simplify_eq.
    destruct (install_live s w wid) as (_ & -> & -> & _).
    split_and!; [done..|apply queue_install_le].
  - unfold settle in Hs.
    destruct (coroutines s !! w) as [[wid [p|j st nf res| |]]|]; try done.
    rewrite deliver_norm in Hs.
    assert (Hgo : ∀ o,
      isAcceptingWork (install w wid (workerLoop wid
        (finallyBlock j (delivered res o s)))) = false ∧
      submitted (install w wid (workerLoop wid
        (finallyBlock j (delivered res o s)))) = submitted s ∧
      (length (queue (install w wid (workerLoop wid
         (finallyBlock j (delivered res o s))))) ≤ length (queue s))%nat).
    { intros o.
      destruct (job_end_live j res o s) as (_ & Ea & Es & _ & Eq).
      destruct (install_live (finallyBlock j (delivered res o s)) w wid)
        as (_ & -> & -> & _).
      rewrite <- Eq. split_and!; [congruence|done|apply queue_install_le]. }
    destruct (variant s), res; simplify_eq; try apply Hgo.
    unfold install. simpl. by rewrite finallyBlock_norm, checkIfIdle_norm.
  - unfold elapse in Hs. case_match; by simplify_eq.
  - unfold timerFire in Hs. repeat case_match; by simplify_eq.
  - by simplify_eq.
Qed.

Lemma jobPromises_job_end j res o s :
  jobPromises (finallyBlock j (delivered res o s)) =
    match variant s, res with
    | PromisePerJob, Some p => resolvePromise p o (jobPromises s)
    | _, _ => jobPromises s
    end.
Proof. by rewrite finallyBlock_norm, checkIfIdle_norm. Qed.

(** ** Completion order *)

Lemma produced_step v c s e s' :
  reachable v c s → step s e = Some s' →
  produced s' = produced s ++ outcomeOf s e.
Proof.
  intros Hr Hs. destruct e; simpl in Hs |- *; rewrite ?app_nil_r.
  - unfold enqueue in Hs. destruct (isAcceptingWork s); simpl in Hs;
      simplify_eq; [|done].
    rewrite notifyWorkersOfNewWork_norm. simpl.
    destruct (untouched_ensureWorkers (pushJob j s))
      as (_&_&_&_&_&_&_&_&_&_& -> &_).
    by rewrite pushJob_norm.
  - simplify_eq. by rewrite waitForIdle_norm.
  - simplify_eq. unfold finishAllWork. by rewrite notifyWorkersOfNewWork_norm.
  - unfold finishResume in Hs. repeat case_match; by simplify_eq.
  - unfold resume in Hs.
    destruct (coroutines s !! w) as [[wid [p|j st nf res| |]]|]; try done.
    case_match; [|done]. simplify_eq.
    by destruct (untouched_install w wid s) as (_&_&_&_&_&_&_&_&_&_& -> &_).
  - destruct (coroutines s !! w) as [[wid [p|j st nf res| |]]|] eqn:Hco;
      try (unfold settle in Hs; rewrite Hco in Hs; done).
    destruct (settle_runs _ _ _ _ _ _ _ _ _ r Hr Hco) as [Hs' _].
    rewrite Hs' in Hs. simplify_eq.
    destruct (install_after_job w wid
                (finallyBlock j (delivered res (toJobResult r (jobProps j)) s)))
      as (-> & _).
    by destruct (job_end_state j res (toJobResult r (jobProps j)) s) as (-> & _).
  - unfold elapse in Hs. case_match; by simplify_eq.
  - unfold timerFire in Hs. repeat case_match; by simplify_eq.
  - by simplify_eq.
Qed.

Lemma produced_run v c s es s' :
  reachable v c s → run s es = Some s' →
  produced s' = produced s ++ outcomesOf s es.
Proof.
  revert s. induction es as [|e es IH]; simpl; intros s Hr Hrun.
  - simplify_eq. by rewrite app_nil_r.
  - destruct (step s e) as [s1|] eqn:Hs; [|done].
    rewrite (IH s1 (reachable_step _ _ _ _ _ Hr Hs) Hrun).
    by rewrite (produced_step _ _ _ _ _ Hr Hs), <- app_assoc.
Qed.

(** ** The two classes side by side *)






















End EngineFacts.

(** * Properties of the one-shot runner *)

Module OneShotFacts.
Import OneShot.

Lemma arraySet_length i o a :
  length (arraySet i o a) = (length a `max` S i)%nat.
Proof.
  unfold arraySet. case_bool_decide.
  - rewrite length_insert. lia.
  - rewrite !length_app, length_replicate. simpl. lia.
Qed.

Lemma arraySet_lookup_eq i o a : arraySet i o a !! i = Some (Some o).
Proof.
  unfold arraySet. case_bool_decide.
  - by apply list_lookup_insert_eq.
  - rewrite lookup_app_r by lia.
    rewrite lookup_app_r by (rewrite length_replicate; lia).
    rewrite length_replicate. by rewrite Nat.sub_diag.
Qed.

Lemma arraySet_lookup_ne i o a i' o' :
  i' ≠ i → arraySet i o a !! i' = Some (Some o') ↔ a !! i' = Some (Some o').
Proof.
  intros Hne. unfold arraySet. case_bool_decide.
  - by rewrite list_lookup_insert_ne.
  - destruct (decide (i' < length a)%nat).
    + by rewrite lookup_app_l.
    + rewrite lookup_app_r by lia. rewrite (lookup_ge_None_2 a) by lia.
      split; [|done]. intros H'.
      apply lookup_app_Some in H' as [H'|[Hge H']].
      * by apply lookup_replicate in H' as [? _].
      * rewrite length_replicate in *.
        apply list_lookup_singleton_Some in H' as [? _]. lia.
Qed.

Lemma executing_app ws1 ws2 :
  executing (ws1 ++ ws2) = executing ws1 ++ executing ws2.
Proof. apply omap_app. Qed.


Lemma executing_insert ws w x wid st :
  ws !! w = Some x →
  indexOf (wstate x) ++ executing (<[w := mkWorker wid st]> ws) ≡ₚ
  indexOf st ++ executing ws.
Proof.
  revert w; induction ws as [|y ws IH]; intros [|w] H; simplify_eq/=.
  - destruct x as [wid0 st0]. unfold executing, executingIndex. simpl.
    destruct st0, st; simpl; try done. apply perm_swap.
  - specialize (IH _ H). unfold executing in *. simpl.
    destruct (executingIndex y) as [z|]; simpl; [|done].
    rewrite <- !Permutation_middle. by f_equiv.
Qed.


Lemma executing_nil ws : forallb isDone ws = true → executing ws = [].
Proof.
  induction ws as [|x ws IH]; simpl; [done|].
  intros [Hx Hws]%andb_true_iff. unfold executing in *. simpl.
  rewrite (IH Hws). unfold isDone, executingIndex in *.
  by destruct (wstate x).
Qed.



Lemma foldl_spawn_ind_os (P : nat → State → Prop) :
  (∀ k s, P k s → P (S k) (spawnWorker s k)) →
  ∀ n k s, P k s → P (k + n)%nat (foldl spawnWorker s (seq k n)).
Proof.
  intros Hs n; induction n as [|n IH]; intros k s HP; simpl.
  - by rewrite Nat.add_0_r.
  - replace (k + S n)%nat with (S k + n)%nat by lia. apply IH, Hs, HP.
Qed.

Lemma RunInv_perm ex ex' s : ex ≡ₚ ex' → RunInv ex s → RunInv ex' s.
Proof.
  intros HP [H1 H2 H3 H4 H5 H6]. split; auto.
  - by rewrite <- HP.
  - intros i Hi. apply H2. by rewrite HP.
  - intros i Hi Hl. destruct (H3 i Hi Hl); [left; by rewrite <- HP|by right].
  - intros i o Hi. destruct (H4 i o Hi). split; [done|]. by rewrite <- HP.
Qed.

Lemma RunInv_frame ex s s' :
  jobs s' = jobs s → nextIndex s' = nextIndex s → results s' = results s →
  invocations s' = invocations s → RunInv ex s → RunInv ex s'.
Proof.
  intros E1 E2 E3 E4 []. split; rewrite ?E1, ?E2, ?E3, ?E4; auto.
Qed.

Lemma workerLoop_jobs wid s : jobs (snd (workerLoop wid s)) = jobs s.
Proof. unfold workerLoop. by destruct (jobs s !! nextIndex s). Qed.

Lemma workerLoop_workers wid s : workers (snd (workerLoop wid s)) = workers s.
Proof. unfold workerLoop. by destruct (jobs s !! nextIndex s). Qed.

Lemma workerLoop_nextIndex wid s :
  nextIndex (snd (workerLoop wid s)) = S (nextIndex s).
Proof. unfold workerLoop. by destruct (jobs s !! nextIndex s). Qed.

Lemma workerLoop_results wid s : results (snd (workerLoop wid s)) = results s.
Proof. unfold workerLoop. by destruct (jobs s !! nextIndex s). Qed.

Lemma workerLoop_done wid s :
  fst (workerLoop wid s) = RDone → (length (jobs s) ≤ nextIndex s)%nat.
Proof.
  unfold workerLoop. destruct (jobs s !! nextIndex s) eqn:E; [done|].
  intros _. by apply lookup_ge_None.
Qed.

Lemma RunInv_loop wid ex s :
  RunInv ex s →
  RunInv (indexOf (fst (workerLoop wid s)) ++ ex) (snd (workerLoop wid s)).
Proof.
  intros [H1 H2 H3 H4 H5 H6]. unfold workerLoop.
  destruct (jobs s !! nextIndex s) as [j|] eqn:E; simpl.
  - pose proof (lookup_lt_Some _ _ _ E) as Hlt.
    split; simpl; auto.
    + constructor; [|done]. intros Hin%H2. lia.
    + intros i [->|Hi%H2]%elem_of_cons; lia.
    + intros i Hi Hl. destruct (decide (i = nextIndex s)) as [->|Hne].
      * left. by left.
      * destruct (H3 i) as [?|?]; [lia|done| |]; [left; by right|by right].
    + intros i o Hi. destruct (H4 i o Hi) as [? Hn]. split; [lia|].
      intros [->|?]%elem_of_cons; [lia|done].
    + rewrite map_app, H6. simpl.
      rewrite (take_S_r _ _ j E), map_app. done.
  - apply lookup_ge_None in E.
    split; simpl; auto.
    + intros i Hi. destruct (H2 i Hi). lia.
    + intros i Hi Hl. apply H3; lia.
    + intros i o Hi. destruct (H4 i o Hi). split; [lia|done].
    + rewrite H6. by rewrite !take_ge by lia.
Qed.

Lemma RunInv_settle ex s i j o :
  RunInv (i :: ex) s → jobs s !! i = Some j →
  resultProperties o = properties j →
  RunInv ex (set_results (arraySet i o (results s)) s).
Proof.
  intros [H1 H2 H3 H4 H5 H6] Hj Ho.
  apply NoDup_cons in H1 as [Hnin H1].
  destruct (H2 i) as [Hi1 Hi2]; [by left|].
  split; simpl; auto.
  - intros i' Hi'. apply H2. by right.
  - intros i' Hi' Hl. destruct (decide (i' = i)) as [->|Hne].
    + right. exists o, j. by rewrite arraySet_lookup_eq.
    + destruct (H3 i' Hi' Hl) as [[->|?]%elem_of_cons|(o' & j' & ? & ? & ?)];
        [done|by left|].
      right. exists o', j'. by rewrite arraySet_lookup_ne.
  - intros i' o' Hi'. destruct (decide (i' = i)) as [->|Hne]; [done|].
    rewrite arraySet_lookup_ne in Hi' by done.
    destruct (H4 _ _ Hi') as [? Hn]. split; [done|].
    intros ?. apply Hn. by right.
  - rewrite arraySet_length. lia.
Qed.

Lemma PoolOk_spawn js k s :
  PoolOk js k s → PoolOk js (S k) (spawnWorker s k).
Proof.
  intros [Hj Hn Hid Hd Hr]. unfold spawnWorker.
  pose proof (RunInv_loop (Z.of_nat k + 1) _ s Hr) as Hr'.
  pose proof (workerLoop_done (Z.of_nat k + 1) s) as Hdone.
  pose proof (workerLoop_jobs (Z.of_nat k + 1) s) as E1.
  pose proof (workerLoop_workers (Z.of_nat k + 1) s) as E2.
  pose proof (workerLoop_nextIndex (Z.of_nat k + 1) s) as E3.
  destruct (workerLoop (Z.of_nat k + 1) s) as [st s1]. simpl in *.
  split; simpl; rewrite ?E1, ?E2, ?E3; auto.
  - rewrite length_app. simpl. lia.
  - intros w x [?|[Hge Hx]]%lookup_app_Some; [eauto|].
    apply list_lookup_singleton_Some in Hx as [Hx <-]. simpl. f_equal. lia.
  - intros w x [Hw|[Hge Hx]]%lookup_app_Some Hdn.
    + specialize (Hd _ _ Hw Hdn). lia.
    + apply list_lookup_singleton_Some in Hx as [Hx <-].
      unfold isDone in Hdn. simpl in Hdn. destruct st; [done|].
      specialize (Hdone eq_refl). lia.
  - eapply RunInv_frame; [..|eapply RunInv_perm; [|exact Hr']]; try done.
    rewrite executing_app. rewrite Permutation_app_comm. f_equiv.
    by destruct st.
Qed.

Lemma PoolOk_start js : PoolOk js 0 (start js).
Proof.
  split; simpl; try done. split; simpl; try done.
  - constructor.
  - intros i Hi. by apply elem_of_nil in Hi.
  - intros i Hi. lia.
  - lia.
Qed.

Lemma PoolOk_runJobs js c s :
  runJobs js c = Ok s →
  ∃ n, c = CInt n ∧ 1 ≤ n ∧
       PoolOk js (Z.to_nat (Z.min n (Z.of_nat (length js)))) s.
Proof.
  unfold runJobs. destruct c as [| | |n]; simpl; try done.
  case_bool_decide; [done|]. intros [= <-]. exists n.
  split; [done|]. split; [lia|].
  apply (foldl_spawn_ind_os (PoolOk js) (PoolOk_spawn js) _ 0%nat).
  apply PoolOk_start.
Qed.

Lemma PoolOk_settle js n w r s s' :
  PoolOk js n s → settle w r s = Some s' → PoolOk js n s'.
Proof.
  intros [Hj Hn Hid Hd Hr]. unfold settle.
  destruct (workers s !! w) as [[wid [i st nf|]]|] eqn:Hw; try done.
  destruct (jobs s !! i) as [j|] eqn:Hji; [|done].
  set (o := toJobResult r (properties j)).
  set (s1 := set_results (arraySet i o (results s)) s).
  pose proof (executing_insert _ _ _ wid RDone Hw) as Hex. simpl in Hex.
  assert (Hr1 : RunInv (executing (<[w:=mkWorker wid RDone]> (workers s))) s1).
  { apply (RunInv_settle _ _ _ j); [|done|apply toJobResult_properties].
    eapply RunInv_perm; [|exact Hr]. by symmetry. }
  pose proof (RunInv_loop wid _ s1 Hr1) as Hr'.
  pose proof (workerLoop_done wid s1) as Hdone.
  pose proof (workerLoop_jobs wid s1) as E1.
  pose proof (workerLoop_workers wid s1) as E2.
  pose proof (workerLoop_nextIndex wid s1) as E3.
  destruct (workerLoop wid s1) as [st' s2]. simpl in *. intros [= <-].
  split; simpl; rewrite ?E1, ?E2, ?E3; auto.
  - by rewrite length_insert.
  - intros i' x [(-> & <- & _)|[? Hi']]%list_lookup_insert_Some; [|eauto].
    by apply Hid in Hw.
  - intros i' x [(-> & <- & _)|[? Hi']]%list_lookup_insert_Some Hdn.
    + unfold isDone in Hdn. simpl in Hdn. destruct st'; [done|].
      specialize (Hdone eq_refl). lia.
    + specialize (Hd _ _ Hi' Hdn). lia.
  - eapply RunInv_frame; [..|eapply RunInv_perm; [|exact Hr']]; try done.
    apply (Permutation_app_inv_l [i]).
    etrans; [|symmetry; apply (executing_insert _ _ _ wid st' Hw)].
    rewrite <- Hex. simpl. apply Permutation_middle.
Qed.

Lemma PoolOk_frame js n s s' :
  jobs s' = jobs s → nextIndex s' = nextIndex s → results s' = results s →
  invocations s' = invocations s →
  length (workers s') = length (workers s) →
  (∀ w x', workers s' !! w = Some x' →
     ∃ x, workers s !! w = Some x ∧ workerId x' = workerId x ∧
          isDone x' = isDone x) →
  executing (workers s') = executing (workers s) →
  PoolOk js n s → PoolOk js n s'.
Proof.
  intros E1 E2 E3 E4 E5 Hw E6 [Hj Hn Hid Hd Hr].
  split; rewrite ?E1, ?E2, ?E5, ?E6; auto.
  - intros w x' Hx'. destruct (Hw _ _ Hx') as (x & Hx & -> & _). eauto.
  - intros w x' Hx' Hdn. destruct (Hw _ _ Hx') as (x & Hx & _ & Hdx).
    rewrite Hdx in Hdn. eauto.
  - by eapply RunInv_frame.
Qed.

Lemma PoolOk_step js n s e s' :
  PoolOk js n s → step s e = Some s' → PoolOk js n s'.
Proof.
  intros HP. destruct e; simpl.
  - by apply PoolOk_settle.
  - unfold elapse. case_match; [|done]. intros [= <-].
    eapply PoolOk_frame; [..|exact HP]; simpl; eauto.
  - unfold timerFire.
    destruct (workers s !! w) as [[wid [i st nf|]]|] eqn:Hw; try done.
    destruct (jobs s !! i) as [j|]; [|done].
    case_match; [|done]. intros [= <-].
    eapply PoolOk_frame; [..|exact HP]; simpl; try done.
    + by rewrite length_insert.
    + intros w' x' [(-> & <- & _)|[? Hi']]%list_lookup_insert_Some; eauto.
    + clear -Hw. revert w Hw. induction (workers s) as [|y ws IH];
        intros [|w] Hw; simplify_eq/=; [done|].
      unfold executing in *. simpl. by rewrite (IH _ Hw).
Qed.

Lemma PoolOk_reachable js c s :
  reachable js c s →
  ∃ n, c = CInt n ∧ 1 ≤ n ∧
       PoolOk js (Z.to_nat (Z.min n (Z.of_nat (length js)))) s.
Proof.
  induction 1 as [s Hs|s e s' _ (n & -> & Hn & HP) Hstep].
  - by apply PoolOk_runJobs.
  - exists n. split; [done|]. split; [done|]. by eapply PoolOk_step.
Qed.

(** The array [runJobs] resolves with. *)
Lemma resolved_in_input_order js c s res :
  reachable js c s → resolved s = Some res →
  length res = length js ∧
  ∀ i j, js !! i = Some j →
    ∃ o, res !! i = Some (Some o) ∧ resultProperties o = properties j.
Proof.
  intros Hr Hres.
  destruct (PoolOk_reachable _ _ _ Hr)
    as (n & -> & Hn & [Hj Hsize _ Hd [_ _ Hset _ Hlen _]]).
  unfold resolved in Hres.
  destruct (forallb isDone (workers s)) eqn:Hall; [|done].
  injection Hres as <-.
  rewrite (executing_nil _ Hall) in Hset.
  assert (Hnext : (length js ≤ nextIndex s)%nat).
  { destruct (workers s) as [|x ws] eqn:Hws.
    - simpl in Hsize. lia.
    - simpl in Hall. apply andb_true_iff in Hall as [Hx _].
      rewrite <- Hj. by apply (Hd 0%nat x). }
  rewrite Hj in *.
  assert (Hall' : ∀ i j, js !! i = Some j →
    ∃ o, results s !! i = Some (Some o) ∧ resultProperties o = properties j).
  { intros i j Hi. pose proof (lookup_lt_Some _ _ _ Hi) as Hlt.
    destruct (Hset i) as [Hin|(o & j' & Ho & Hj' & Hp)]; [lia|done| |].
    - by apply elem_of_nil in Hin.
    - exists o. split; [done|]. by simplify_eq. }
  split; [|done].
  destruct (decide (length js = 0%nat)) as [Hz|Hnz]; [lia|].
  destruct (lookup_lt_is_Some_2 js (length js - 1)) as [j Hj']; [lia|].
  destruct (Hall' _ _ Hj') as (o & Ho & _).
  apply lookup_lt_Some in Ho. lia.
Qed.

Lemma step_nextIndex s e s' :
  step s e = Some s' → (nextIndex s ≤ nextIndex s')%nat.
Proof.
  destruct e; simpl.
  - unfold settle. repeat case_match; try done; simplify_eq.
    intros [= <-]. simpl.
    match goal with H : workerLoop ?wid ?X = (_, ?Y) |- _ =>
      pose proof (workerLoop_nextIndex wid X) as E; rewrite H in E end.
    simpl in E. rewrite E. simpl. lia.
  - unfold elapse. case_match; [|done]. by intros [= <-].
  - unfold timerFire. repeat case_match; try done. by intros [= <-].
Qed.

Lemma settle_writes_index s w wid i st nf j r s' :
  workers s !! w = Some (mkWorker wid (RExecuting i st nf)) →
  jobs s !! i = Some j → settle w r s = Some s' →
  results s' !! i = Some (Some (toJobResult r (properties j))) ∧
  ∀ i' o, i' ≠ i →
    results s' !! i' = Some (Some o) ↔ results s !! i' = Some (Some o).
Proof.
  intros Hw Hj. unfold settle. rewrite Hw, Hj.
  set (t0 := set_results _ s).
  pose proof (workerLoop_results wid t0) as Er.
  destruct (workerLoop wid t0) as [stx t2]. simpl in *. intros [= <-].
  simpl. rewrite Er. split.
  - apply arraySet_lookup_eq.
  - intros i' o Hne. by apply arraySet_lookup_ne.
Qed.

(** ** Progress: as long as every job settles, the call resolves *)

Lemma executing_none_done ws : executing ws = [] → forallb isDone ws = true.
Proof.
  induction ws as [|x ws IH]; [done|]. unfold executing in *. simpl.
  unfold executingIndex, isDone. destruct (wstate x); [done|]. auto.
Qed.

Lemma executing_some ws :
  executing ws ≠ [] →
  ∃ w wid i st nf, ws !! w = Some (mkWorker wid (RExecuting i st nf)).
Proof.
  induction ws as [|[wid [i st nf|]] ws IH]; [done| |].
  - intros _. by exists 0%nat, wid, i, st, nf.
  - intros H. destruct (IH H) as (w & ?). by exists (S w).
Qed.

Lemma settle_progress js c s w wid i st nf r :
  reachable js c s →
  workers s !! w = Some (mkWorker wid (RExecuting i st nf)) →
  ∃ s', settle w r s = Some s' ∧ (remaining s' < remaining s)%nat.
Proof.
  intros Hr Hw.
  destruct (PoolOk_reachable _ _ _ Hr)
    as (n & -> & Hn & [Hj _ _ _ [_ Hcl _ _ _ _]]).
  assert (Hin : i ∈ executing (workers s)).
  { apply list_elem_of_omap. exists (mkWorker wid (RExecuting i st nf)).
    split; [by eapply list_elem_of_lookup_2|done]. }
  destruct (Hcl _ Hin) as [_ Hlt].
  destruct (lookup_lt_is_Some_2 _ _ Hlt) as [job Hjob].
  unfold settle. rewrite Hw, Hjob.
  set (t0 := set_results _ s).
  pose proof (workerLoop_workers wid t0) as Ew.
  pose proof (workerLoop_nextIndex wid t0) as En.
  pose proof (workerLoop_jobs wid t0) as Ej.
  pose proof (workerLoop_done wid t0) as Hd.
  destruct (workerLoop wid t0) as [stx t2] eqn:Hloop. simpl in *.
  eexists. split; [done|]. unfold remaining. simpl. rewrite Ew, En, Ej.
  pose proof (Permutation_length (executing_insert _ _ _ wid stx Hw)) as Hlen.
  rewrite !length_app in Hlen. simpl in Hlen.
  destruct stx as [i' st' nf'|]; simpl in Hlen.
  - assert (nextIndex s < length (jobs s))%nat; [|lia].
    unfold workerLoop in Hloop. simpl in Hloop.
    destruct (jobs s !! nextIndex s) eqn:E; [|done].
    by apply lookup_lt_Some in E.
  - lia.
Qed.

Lemma runJobs_resolves js c s :
  reachable js c s →
  ∃ es s', run s es = Some s' ∧ is_Some (resolved s').
Proof.
  remember (remaining s) as m eqn:Hm. revert s Hm.
  induction (lt_wf m) as [m _ IH]. intros s -> Hr.
  destruct (executing (workers s)) as [|i ex] eqn:Hex.
  - exists [], s. split; [done|]. unfold resolved.
    by rewrite (executing_none_done _ Hex).
  - destruct (executing_some (workers s)) as (w & wid & i' & st & nf & Hw).
    { by rewrite Hex. }
    destruct (settle_progress _ _ _ _ _ _ _ _ (Resolves VUndefined) Hr Hw)
      as (s' & Hs & Hlt).
    destruct (IH _ Hlt s' eq_refl) as (es & s'' & Hrun & Hres).
    { by eapply (reachable_step _ _ _ (Settle w (Resolves VUndefined))). }
    exists (Settle w (Resolves VUndefined) :: es), s''. simpl.
    by rewrite Hs.
Qed.

(** ** The watchdog of the one-shot runner *)









(** ** Who calls [execute] in the one-shot runner *)

Lemma CallsOk_mono hi hi' s : hi ≤ hi' → CallsOk hi s → CallsOk hi' s.
Proof.
  intros Hle [H1 H2]. split; [done|]. intros call Hc.
  specialize (H2 _ Hc). lia.
Qed.

Lemma CallsOk_frame hi s s' :
  jobs s' = jobs s → nextIndex s' = nextIndex s →
  invocations s' = invocations s → CallsOk hi s → CallsOk hi s'.
Proof. intros E1 E2 E3 [H1 H2]. split; rewrite ?E1, ?E2, ?E3; done. Qed.

Lemma CallsOk_loop hi wid s :
  1 ≤ wid ≤ hi → CallsOk hi s → CallsOk hi (snd (workerLoop wid s)).
Proof.
  intros Hw [H1 H2]. unfold workerLoop.
  destruct (jobs s !! nextIndex s) as [j|] eqn:E; simpl.
  - split; simpl.
    + rewrite map_app, H1. simpl. rewrite (take_S_r _ _ j E).
      by destruct j.
    + intros call [?| ->%list_elem_of_singleton]%elem_of_app; [auto|done].
  - apply lookup_ge_None in E. split; simpl; [|done].
    rewrite H1. by rewrite !take_ge by lia.
Qed.

Lemma CallsOk_spawn k s :
  CallsOk (Z.of_nat k) s → CallsOk (Z.of_nat (S k)) (spawnWorker s k).
Proof.
  intros H. unfold spawnWorker.
  pose proof (CallsOk_loop (Z.of_nat (S k)) (Z.of_nat k + 1) s) as Hl.
  destruct (workerLoop (Z.of_nat k + 1) s) as [st s1]. simpl in *.
  eapply CallsOk_frame; [..|apply Hl]; try done; [lia|].
  eapply CallsOk_mono; [|exact H]. lia.
Qed.

Lemma CallsOk_runJobs js n s :
  runJobs js (CInt n) = Ok s →
  CallsOk (Z.of_nat (Z.to_nat (Z.min n (Z.of_nat (length js))))) s.
Proof.
  unfold runJobs. simpl. case_bool_decide; [done|]. intros [= <-].
  apply (foldl_spawn_ind_os (λ k s, CallsOk (Z.of_nat k) s) CallsOk_spawn
           _ 0%nat).
  split; simpl; [done|]. intros call Hc. by apply elem_of_nil in Hc.
Qed.

Lemma CallsOk_step js n s e s' :
  PoolOk js n s → CallsOk (Z.of_nat n) s → step s e = Some s' →
  CallsOk (Z.of_nat n) s'.
Proof.
  intros [Hj Hn Hid _ _] HC. destruct e; simpl.
  - unfold settle.
    destruct (workers s !! w) as [[wid [i st nf|]]|] eqn:Hw; try done.
    destruct (jobs s !! i) as [j|] eqn:Hji; [|done].
    set (s1 := set_results _ s).
    pose proof (CallsOk_loop (Z.of_nat n) wid s1) as Hl.
    destruct (workerLoop wid s1) as [st' s2]. simpl in *. intros [= <-].
    eapply CallsOk_frame; [..|apply Hl]; try done.
    + pose proof (Hid _ _ Hw) as Hwid. simpl in Hwid.
      apply lookup_lt_Some in Hw. lia.
    + by eapply CallsOk_frame; [..|exact HC].
  - unfold elapse. case_match; [|done]. intros [= <-].
    by eapply CallsOk_frame; [..|exact HC].
  - unfold timerFire.
    destruct (workers s !! w) as [[wid [i st nf|]]|] eqn:Hw; try done.
    destruct (jobs s !! i) as [j|]; [|done].
    case_match; [|done]. intros [= <-].
    by eapply CallsOk_frame; [..|exact HC].
Qed.

Lemma CallsOk_reachable js n s :
  reachable js (CInt n) s →
  CallsOk (Z.of_nat (Z.to_nat (Z.min n (Z.of_nat (length js))))) s.
Proof.
  induction 1 as [s Hs|s e s' Hr IH Hstep].
  - by apply CallsOk_runJobs.
  - destruct (PoolOk_reachable _ _ _ Hr) as (n' & [= <-] & _ & HP).
    by eapply CallsOk_step.
Qed.

(** ** The synchronous part of [runJobs] *)

Lemma spawn_started js :
  ∀ m k s, (k + m ≤ length js)%nat →
    jobs s = js → nextIndex s = k → results s = [] → now s = 0 →
    invocations s = startedCalls js k → workers s = startedWorkers js k →
    let s' := foldl spawnWorker s (seq k m) in
    nextIndex s' = (k + m)%nat ∧ results s' = [] ∧
    invocations s' = startedCalls js (k + m) ∧
    workers s' = startedWorkers js (k + m).
Proof.
  induction m as [|m IH]; intros k s Hk Hj Hn Hr Hnow Hi Hw; simpl.
  - by rewrite Nat.add_0_r.
  - destruct (lookup_lt_is_Some_2 js k) as [j Hjk]; [lia|].
    replace (k + S m)%nat with (S k + m)%nat by lia.
    assert (Hloop : workerLoop (Z.of_nat k + 1) s =
              (RExecuting k 0 watchdogPeriod,
               set_invocations
                 (invocations s ++
                    [mkExecuteCall (execute j) (Z.of_nat k + 1) (properties j)])
                 (set_nextIndex (S k) s))).
    { unfold workerLoop. by rewrite Hn, Hj, Hjk, Hnow. }
    apply IH; unfold spawnWorker; rewrite ?Hloop; simpl; try done; try lia.
    + rewrite Hi. unfold startedCalls. rewrite (take_S_r _ _ _ Hjk), imap_app.
      simpl. rewrite length_take_le by lia. by rewrite Nat.add_0_r.
    + rewrite Hw. unfold startedWorkers.
      rewrite (take_S_r _ _ _ Hjk), imap_app.
      simpl. rewrite length_take_le by lia. by rewrite Nat.add_0_r.
Qed.

(** ** Counting settlements *)

Lemma executing_started js k :
  (k ≤ length js)%nat → executing (startedWorkers js k) = seq 0 k.
Proof.
  induction k as [|k IH]; intros Hk; [done|].
  destruct (lookup_lt_is_Some_2 js k) as [j Hj]; [lia|].
  unfold startedWorkers in *.
  rewrite (take_S_r _ _ _ Hj), imap_app, executing_app, IH by lia.
  rewrite seq_S. simpl. rewrite length_take_le by lia.
  by rewrite Nat.add_0_r.
Qed.

Lemma remaining_start js c s :
  1 ≤ c → runJobs js (CInt c) = Ok s → remaining s = length js.
Proof.
  intros Hc. unfold runJobs. simpl. rewrite bool_decide_eq_false_2 by lia.
  intros [= <-].
  destruct (spawn_started js (Z.to_nat (Z.min c (Z.of_nat (length js)))) 0
              (start js)) as (E1 & _ & _ & E4); try done; [lia|].
  pose proof (PoolOk_runJobs js (CInt c)
    (foldl spawnWorker (start js)
       (seq 0 (Z.to_nat (Z.min c (Z.of_nat (length js))))))) as HP.
  destruct HP as (n & [= <-] & _ & [Hj _ _ _ _]).
  { unfold runJobs. simpl. by rewrite bool_decide_eq_false_2 by lia. }
  unfold remaining. rewrite Hj, E1, E4. simpl.
  rewrite executing_started, length_seq by lia. lia.
Qed.

Lemma settle_remaining js c s w r s' :
  reachable js c s → settle w r s = Some s' →
  S (remaining s') = remaining s.
Proof.
  intros Hr. unfold settle.
  destruct (workers s !! w) as [[wid [i st nf|]]|] eqn:Hw; try done.
  destruct (jobs s !! i) as [j|] eqn:Hji; [|done].
  set (t0 := set_results _ s).
  pose proof (workerLoop_workers wid t0) as Ew.
  pose proof (workerLoop_nextIndex wid t0) as En.
  pose proof (workerLoop_jobs wid t0) as Ej.
  pose proof (workerLoop_done wid t0) as Hd.
  destruct (workerLoop wid t0) as [stx t2] eqn:Hloop. simpl in *.
  intros [= <-]. unfold remaining. simpl. rewrite Ew, En, Ej.
  pose proof (Permutation_length (executing_insert _ _ _ wid stx Hw)) as Hlen.
  rewrite !length_app in Hlen. simpl in Hlen.
  destruct stx as [i' st' nf'|]; simpl in Hlen.
  - assert (nextIndex s < length (jobs s))%nat; [|lia].
    unfold workerLoop in Hloop. simpl in Hloop.
    destruct (jobs s !! nextIndex s) eqn:E; [|done].
    by apply lookup_lt_Some in E.
  - specialize (Hd eq_refl). lia.
Qed.

Lemma other_remaining s e s' :
  isSettle e = false → step s e = Some s' → remaining s' = remaining s.
Proof.
  intros He. destruct e; simpl; try done.
  - unfold elapse. case_match; [|done]. by intros [= <-].
  - unfold timerFire.
    destruct (workers s !! w) as [[wid [i st nf|]]|] eqn:Hw; try done.
    destruct (jobs s !! i) as [j|]; [|done].
    case_match; [|done]. intros [= <-]. unfold remaining. simpl. f_equal.
    f_equal. clear -Hw. revert w Hw. induction (workers s) as [|y ws IH];
      intros [|w] Hw; simplify_eq/=; [done|].
    unfold executing in *. simpl. by rewrite (IH _ Hw).
Qed.

Lemma remaining_run js c s es s' :
  reachable js c s → run s es = Some s' →
  (remaining s' + length (List.filter isSettle es))%nat = remaining s.
Proof.
  revert s. induction es as [|e es IH]; simpl; intros s Hr Hrun.
  - simplify_eq. lia.
  - destruct (step s e) as [s1|] eqn:Hs; [|done].
    specialize (IH s1 (reachable_step _ _ _ _ _ Hr Hs) Hrun).
    destruct (isSettle e) eqn:He; simpl.
    + destruct e; try done. simpl in Hs.
      pose proof (settle_remaining _ _ _ _ _ _ Hr Hs). lia.
    + pose proof (other_remaining _ _ _ He Hs). lia.
Qed.

Lemma resolved_remaining js c s :
  1 ≤ c → reachable js (CInt c) s →
  is_Some (resolved s) ↔ remaining s = 0%nat.
Proof.
  intros Hc Hr.
  destruct (PoolOk_reachable _ _ _ Hr) as (n & [= <-] & _ & [Hj Hn _ Hd _]).
  unfold resolved, remaining. split.
  - destruct (forallb isDone (workers s)) eqn:Hall; [|by intros [? ?]].
    intros _. rewrite (executing_nil _ Hall). simpl.
    destruct (workers s) as [|x ws] eqn:Hws.
    + simpl in Hn. rewrite Hj. lia.
    + simpl in Hall. apply andb_true_iff in Hall as [Hx _].
      specialize (Hd 0%nat x eq_refl Hx). lia.
  - intros H0.
    assert (He : executing (workers s) = [])
      by (apply length_zero_iff_nil; lia).
    rewrite (executing_none_done _ He). by eexists.
Qed.
End OneShotFacts.

(** * The specification, claim by claim *)

Import Engine.

Lemma oneShot_reachable_run js c s es s' :
  OneShot.reachable js c s → OneShot.run s es = Some s' →
  OneShot.reachable js c s'.
Proof.
  intros Hr; revert s Hr; induction es as [|e es IH]; simpl; intros s Hr H.
  - by simplify_eq.
  - destruct (OneShot.step s e) eqn:E; [|done]. eapply IH; [|done].
    by eapply OneShot.reachable_step.
Qed.



Lemma idle_nothing_pending c s :
  Life c s → isIdle s = true → queue s = [] ∧ executingJobs (coroutines s) = [].
Proof.
  intros HL Hidle. unfold isIdle in Hidle.
  apply andb_true_iff in Hidle as [Ha Hq].
  apply bool_decide_eq_true in Ha, Hq.
  split; [by apply length_zero_iff_nil|].
  apply executingJobs_nil. pose proof (life_active _ _ _ HL). lia.
Qed.

(** C2. Once every submitted job has run (the engine is idle, or the
    one-shot runner has resolved), exactly one Outcome has been produced per
    submitted job, and the [properties] of each Outcome are those of its
    job, whichever the tag.  In the accumulate variant the Outcomes are the
    contents of the results array as long as the caller has not written to
    it; in the promise-per-job variant the promise of the i-th submission
    holds the Outcome of the i-th job; the one-shot runner resolves with an
    array that holds at index i the Outcome of job i. *)
Theorem one_outcome_per_job
    (v : Variant) (c : Z) (es : list Event) (s : State)
    (js : list Job) (cc : OneShot.Concurrency) (s1 : OneShot.State)
    (res : list (option JobResult)) :
  run (init v c) es = Some s →
  isIdle s = true →
  OneShot.reachable js cc s1 →
  OneShot.resolved s1 = Some res →
  (∀ r p, resultProperties (toJobResult r p) = p) ∧
  (length (produced s) = length (submitted s) ∧
   map properties (submitted s) ≡ₚ map resultProperties (produced s) ∧
   (v = Accumulate → noCallerWrite es →
      deref s (getResults s) = produced s) ∧
   (v = PromisePerJob →
      length (jobPromises s) = length (submitted s) ∧
      ∀ i j, submitted s !! i = Some j →
        ∃ o, jobPromises s !! i = Some (Some o) ∧
             resultProperties o = properties j)) ∧
  (length res = length js ∧
   ∀ i j, js !! i = Some j →
     ∃ o, res !! i = Some (Some o) ∧ resultProperties o = properties j).
Proof.
  intros Hrun Hidle Hr1 Hres. split; [apply toJobResult_properties|].
  pose proof (reachable_of_run _ _ _ _ Hrun) as Hr.
  pose proof (Life_reachable _ _ _ Hr) as HL.
  destruct (idle_nothing_pending _ _ HL Hidle) as [Hq Hex].
  destruct (Deliv_reachable _ _ _ Hr) as [[Hcons Hpool] _].
  rewrite Hq, Hex in *. simpl in *. rewrite app_nil_r in Hcons.
  split; [split_and!|].
  - apply Permutation_length in Hcons. by rewrite !length_map in Hcons.
  - done.
  - intros -> Hnw.
    destruct (HeapOk_run (init Accumulate c) es s Hnw) as [_ Hh]; [|done|].
    { split; simpl; [by eexists|done]. }
    unfold deref, getResults. rewrite Hh; [done|].
    by apply (reachable_variant _ _ _ Hr).
  - intros ->. specialize (Hpool (reachable_variant _ _ _ Hr)).
    destruct Hpool as [_ Hlen _ _ Huns Hset]. split; [done|].
    intros i j Hi. pose proof (lookup_lt_Some _ _ _ Hi) as Hlt.
    rewrite <- Hlen in Hlt. apply lookup_lt_is_Some in Hlt as [[o|] Ho].
    + exists o. split; [done|]. destruct (Hset _ _ Ho) as (j' & Hj' & ?).
      by simplify_eq.
    + apply Huns in Ho. by apply elem_of_nil in Ho.
  - by eapply OneShotFacts.resolved_in_input_order.
Qed.

Lemma one_outcome_per_job_witness :
  length (produced (Demo.runPool PromisePerJob 2 Demo.poolTrace)) = 3%nat ∧
  OneShot.resolved
    (Demo.runOneShot [Demo.job1; Demo.job2; Demo.job3] 2 Demo.oneShotTrace) =
    Some [Some (Fulfilled (VStr "success1") (properties Demo.job1));
          Some (Rejected Demo.testError (properties Demo.job2));
          Some (Fulfilled (VStr "success2") (properties Demo.job3))].
Proof.
  destruct (one_outcome_per_job PromisePerJob 2 Demo.poolTrace
    (Demo.runPool PromisePerJob 2 Demo.poolTrace)
    [Demo.job1; Demo.job2; Demo.job3] (OneShot.CInt 2)
    (Demo.runOneShot [Demo.job1; Demo.job2; Demo.job3] 2 Demo.oneShotTrace)
    [Some (Fulfilled (VStr "success1") (properties Demo.job1));
     Some (Rejected Demo.testError (properties Demo.job2));
     Some (Fulfilled (VStr "success2") (properties Demo.job3))])
    as (_ & (H1 & _) & _).
  - vm_compute. reflexivity.
  - vm_compute. reflexivity.
  - eapply (oneShot_reachable_run _ _ _ Demo.oneShotTrace).
    + apply OneShot.reachable_start. vm_compute. reflexivity.
    + vm_compute. reflexivity.
  - vm_compute. reflexivity.
  - split; [exact H1|]. vm_compute. reflexivity.
Defined.

Lemma allTerminated_forallb s :
  allTerminated (coroutines s) →
  forallb (isTerminated s) (seq 0 (length (coroutines s))) = true.
Proof.
  intros H. apply forallb_forall. intros w Hw%in_seq.
  destruct (lookup_lt_is_Some_2 (coroutines s) w) as [[wid st] Hco]; [lia|].
  unfold isTerminated. rewrite Hco. by rewrite (H _ _ Hco : st = _).
Qed.

Lemma shutdownResolved_step s e s' :
  shutdownResolved s → step s e = Some s' → shutdownResolved s'.
Proof.
  intros (k & ws & Hk). unfold shutdownResolved. destruct e; simpl.
  - unfold enqueue. destruct (isAcceptingWork s); simpl; intros [= <-];
      [|eauto].
    rewrite notifyWorkersOfNewWork_norm. simpl.
    destruct (untouched_ensureWorkers (pushJob j s))
      as (_&_&_&_&_&_&_&_&_&_&_&_&_& -> &_).
    rewrite pushJob_norm. simpl. eauto.
  - intros [= <-]. rewrite waitForIdle_norm. simpl. eauto.
  - intros [= <-]. unfold finishAllWork.
    rewrite notifyWorkersOfNewWork_norm. simpl.
    exists k, ws. by apply lookup_app_l_Some.
  - unfold finishResume.
    destruct (finishCalls s !! k0) as [[ws' []]|] eqn:Hk0; try done.
    case_match; [|done]. intros [= <-]. simpl.
    destruct (decide (k = k0)) as [->|Hne]; [congruence|].
    exists k, ws. by rewrite list_lookup_insert_ne.
  - unfold resume. repeat case_match; try done. intros [= <-].
    destruct (untouched_install w workerId0 s)
      as (_&_&_&_&_&_&_&_&_&_&_&_&_& -> &_). eauto.
  - unfold settle.
    destruct (coroutines s !! w) as [[wid [p|j st nf res| |]]|]; try done.
    rewrite deliver_norm.
    destruct (variant s), res; intros [= <-].
    1,2,3: match goal with |- context [install _ _ (workerLoop _ ?X)] =>
      destruct (untouched_install w wid X)
        as (_&_&_&_&_&_&_&_&_&_&_&_&_& -> &_) end;
      rewrite finallyBlock_norm, checkIfIdle_norm; simpl; eauto.
    unfold install. simpl. rewrite finallyBlock_norm, checkIfIdle_norm.
    simpl. eauto.
  - unfold elapse. case_match; [|done]. intros [= <-]. simpl. eauto.
  - unfold timerFire. repeat case_match; try done. intros [= <-]. simpl. eauto.
  - intros [= <-]. simpl. eauto.
Qed.

(** C3, as the spec states it, fails for a pool built with concurrency 0:
    no worker is ever created, [finishAllWork] waits for an empty list of
    workers and returns while the submitted job is still queued. *)
Lemma shutdown_leaves_queue_without_workers : ¬ shutdownDrains Accumulate 0.
Proof.
  intros H.
  destruct (H (Demo.runPool Accumulate 0
                 [Enqueue Demo.job1; FinishAllWork; FinishResume 0]))
    as [Hq _].
  - apply (reachable_of_run _ _
             [Enqueue Demo.job1; FinishAllWork; FinishResume 0]).
    vm_compute. reflexivity.
  - exists 0%nat, []. vm_compute. reflexivity.
  - vm_compute in Hq. discriminate Hq.
Qed.

(** C3, amended: for a pool engine built with concurrency [c >= 1], once a
    call of [finishAllWork] has returned the queue is empty and no job is
    active, and this stays so; a further call of [finishAllWork] can return
    at once, in a state with the same properties; and every later [enqueue]
    throws 'Cannot enqueue jobs after shutdown' and changes nothing. *)
Theorem shutdown_drains_and_closes (v : Variant) (c : Z) (s : State) :
  1 ≤ c →
  reachable v c s →
  shutdownResolved s →
  (queueLength s = 0%nat ∧ activeJobCount s = 0) ∧
  (∀ e s', step s e = Some s' → shutdownResolved s') ∧
  (∃ s2, finishResume (length (finishCalls s)) (finishAllWork s) = Some s2 ∧
         shutdownResolved s2 ∧
         queueLength s2 = 0%nat ∧ activeJobCount s2 = 0) ∧
  (∀ j, enqueue j s =
          Throw (mkError "Error" "Cannot enqueue jobs after shutdown") ∧
        step s (Enqueue j) = Some s).
Proof.
  intros Hc Hr (k & ws & Hk).
  destruct (Life_reachable _ _ _ Hr) as [_ Ha _ _ Hw Ht He _ Hf].
  destruct (Hf _ _ Hk) as (Hacc & _ & Hterm). specialize (Hterm eq_refl).
  assert (Hq : queue s = []).
  { destruct (coroutines s) as [|co cs] eqn:Hcs.
    - destruct (He eq_refl); [done|lia].
    - rewrite <- Hcs in *. apply (Ht 0%nat co); [by rewrite Hcs|].
      apply (Hterm 0%nat). by rewrite Hcs. }
  assert (Hact : activeJobs s = 0).
  { rewrite inFlight_zero in Ha; [lia|]. intros w co Hco.
    unfold isExecuting. by rewrite (Hterm _ _ Hco). }
  split_and!.
  - unfold queueLength. by rewrite Hq.
  - done.
  - intros e s'. apply shutdownResolved_step. by exists k, ws.
  - unfold finishResume, finishAllWork.
    rewrite notifyWorkersOfNewWork_norm. simpl.
    rewrite lookup_app_r by lia. rewrite Nat.sub_diag. simpl.
    assert (forallb
      (isTerminated
         (set_finishCalls (finishCalls s ++ [mkFinishCall (workers s) false])
            (set_resolveWorkAvailable None
               (set_workAvailablePromise
                  match resolveWorkAvailable s with
                  | Some _ => None
                  | None => workAvailablePromise s
                  end
                  (set_signalled
                     match resolveWorkAvailable s with
                     | Some p => signalled s ++ [p]
                     | None => signalled s
                     end (set_isAcceptingWork false s))))))
      (workers s) = true) as ->.
    { destruct Hw as [->|(_ & -> & _)]; [|done].
      by apply (allTerminated_forallb s). }
    eexists. split; [done|]. split_and!; simpl.
    + exists (length (finishCalls s)), (workers s). simpl.
      rewrite list_lookup_insert_eq; [done|]. rewrite length_app. simpl. lia.
    + unfold queueLength. simpl. by rewrite Hq.
    + done.
  - intros j. unfold step, enqueue. by rewrite Hacc.
Qed.

Lemma shutdown_drains_and_closes_witness :
  queueLength (Demo.runPool Accumulate 2 Demo.shutdownTrace) = 0%nat ∧
  enqueue Demo.job1 (Demo.runPool Accumulate 2 Demo.shutdownTrace) =
    Throw (mkError "Error" "Cannot enqueue jobs after shutdown").
Proof.
  destruct (shutdown_drains_and_closes Accumulate 2
              (Demo.runPool Accumulate 2 Demo.shutdownTrace))
    as ((H1 & _) & _ & _ & H4).
  - lia.
  - apply (reachable_of_run _ _ Demo.shutdownTrace). vm_compute. reflexivity.
  - exists 0%nat, [0%nat; 1%nat]. vm_compute. reflexivity.
  - split; [exact H1|]. exact (proj1 (H4 Demo.job1)).
Defined.

(** C4. A job whose [execute] throws or rejects with [e], in a pool engine
    or in the one-shot runner: the settlement is always handled (nothing is
    rethrown, the worker does not crash); the Outcome [rejected e] with the
    job's properties goes where a fulfilled one would (results array, per-job
    promise, [results[i]]); the worker goes on to the next queued job or
    index if there is one; the other workers are untouched; and what the
    engine will run next is exactly what it would be had the job
    succeeded. *)
Theorem failed_job_is_contained
    (v : Variant) (c : Z) (s : State) (w : nat) (wid : Z) (j : QueuedJob)
    (st nf : Z) (res : option nat) (e : JsVal)
    (js : list Job) (cc : OneShot.Concurrency) (t : OneShot.State)
    (u : nat) (uid : Z) (i : nat) (st' nf' : Z) :
  reachable v c s →
  coroutines s !! w = Some (mkCoroutine wid (WExecuting j st nf res)) →
  OneShot.reachable js cc t →
  OneShot.workers t !! u =
    Some (OneShot.mkWorker uid (OneShot.RExecuting i st' nf')) →
  (∃ s1 co,
     settle w (Throws e) s = Some s1 ∧
     produced s1 = produced s ++ [Rejected e (jobProps j)] ∧
     (v = Accumulate →
        deref s1 (getResults s1) =
          deref s (getResults s) ++ [Rejected e (jobProps j)]) ∧
     (v = PromisePerJob →
        ∃ id, concurrentJobId j = Some id ∧
              jobPromises s !! id = Some None ∧
              jobPromises s1 !! id = Some (Some (Rejected e (jobProps j)))) ∧
     coroutines s1 !! w = Some co ∧ workerId co = wid ∧
     wstate co ≠ WCrashed ∧
     (∀ j' rest, queue s = j' :: rest →
        executingJob co = Some j' ∧ queue s1 = rest) ∧
     (∀ w2, w2 ≠ w → coroutines s1 !! w2 = coroutines s !! w2) ∧
     isAcceptingWork s1 = isAcceptingWork s ∧
     (∀ x, ∃ s2, settle w (Resolves x) s = Some s2 ∧
                 scheduling s1 = scheduling s2)) ∧
  (∃ t1 job x,
     js !! i = Some job ∧
     OneShot.settle u (Throws e) t = Some t1 ∧
     OneShot.results t1 !! i = Some (Some (Rejected e (properties job))) ∧
     OneShot.workers t1 !! u = Some x ∧ OneShot.workerId x = uid ∧
     (∀ job', js !! OneShot.nextIndex t = Some job' →
        OneShot.executingIndex x = Some (OneShot.nextIndex t)) ∧
     (∀ u2, u2 ≠ u → OneShot.workers t1 !! u2 = OneShot.workers t !! u2)).
Proof.
  intros Hr Hco Ht Hu. split.
  - destruct (settle_runs _ _ _ _ _ _ _ _ _ (Throws e) Hr Hco) as [Hs Hid].
    destruct (install_after_job w wid
                (finallyBlock j
                   (delivered res (toJobResult (Throws e) (jobProps j)) s)))
      as (Eprod & Ederef & Eprom & Eacc & Eco & Hnext).
    destruct (job_end_state j res (toJobResult (Throws e) (jobProps j)) s)
      as (Fprod & Fq & Fco & Facc & Fderef & Fprom).
    assert (Hlt : (w < length (coroutines s))%nat)
      by by apply lookup_lt_Some in Hco.
    eexists _, _.
    split; [exact Hs|]. split_and!.
    + rewrite Eprod. exact Fprod.
    + intros Hv. rewrite Ederef. apply Fderef.
      * rewrite <- Hv. exact (reachable_variant _ _ _ Hr).
      * exact (results_allocated _ _ _ Hr).
    + intros Hv. destruct (Hid Hv) as (id & Hres & Hcid & Hp).
      exists id. split; [exact Hcid|]. split; [exact Hp|].
      rewrite Eprom. apply Fprom; [|exact Hres|exact Hp].
      rewrite <- Hv. exact (reachable_variant _ _ _ Hr).
    + rewrite Eco, Fco. by apply list_lookup_insert_eq.
    + reflexivity.
    + apply workerLoop_not_crashed.
    + intros j' rest Hq. apply Hnext. rewrite Fq. exact Hq.
    + intros w2 Hne. rewrite Eco, Fco. by apply list_lookup_insert_ne.
    + rewrite Eacc. exact Facc.
    + intros x.
      destruct (settle_runs _ _ _ _ _ _ _ _ _ (Resolves x) Hr Hco) as [Hs2 _].
      eexists. split; [exact Hs2|]. apply job_end_scheduling.
  - destruct (OneShotFacts.PoolOk_reachable _ _ _ Ht)
      as (n & -> & Hn & [Hj _ _ _ [_ Hcl _ _ _ _]]).
    assert (Hin : i ∈ OneShot.executing (OneShot.workers t)).
    { apply list_elem_of_omap.
      exists (OneShot.mkWorker uid (OneShot.RExecuting i st' nf')).
      split; [by eapply list_elem_of_lookup_2|done]. }
    destruct (Hcl _ Hin) as [_ Hlt].
    destruct (lookup_lt_is_Some_2 _ _ Hlt) as [job Hjob].
    unfold OneShot.settle. rewrite Hu, Hjob.
    set (t0 := OneShot.set_results _ t).
    pose proof (OneShotFacts.workerLoop_workers uid t0) as Ew.
    pose proof (OneShotFacts.workerLoop_results uid t0) as Er.
    assert (Hloop : ∀ job', OneShot.jobs t0 !! OneShot.nextIndex t0 = Some job' →
      fst (OneShot.workerLoop uid t0) =
        OneShot.RExecuting (OneShot.nextIndex t0) (OneShot.now t0)
          (OneShot.now t0 + watchdogPeriod)).
    { intros job' Hj'. unfold OneShot.workerLoop. by rewrite Hj'. }
    destruct (OneShot.workerLoop uid t0) as [stx t2]. simpl in *.
    assert (Hlen : (u < length (OneShot.workers t))%nat)
      by by apply lookup_lt_Some in Hu.
    eexists _, job, (OneShot.mkWorker uid stx).
    rewrite <- Hj. split_and!; [done|done|..]; simpl.
    + rewrite Er. apply OneShotFacts.arraySet_lookup_eq.
    + rewrite Ew. by apply list_lookup_insert_eq.
    + done.
    + intros job' Hj'. unfold OneShot.executingIndex. simpl.
      by rewrite (Hloop _ Hj').
    + intros u2 Hne. rewrite Ew. by apply list_lookup_insert_ne.
Qed.

Lemma failed_job_is_contained_witness :
  ∃ s1,
    settle 1 (Throws Demo.testError)
      (Demo.runPool PromisePerJob 2 Demo.busyTrace) = Some s1 ∧
    produced s1 = [Rejected Demo.testError (properties Demo.job2)].
Proof.
  destruct (failed_job_is_contained PromisePerJob 2
              (Demo.runPool PromisePerJob 2 Demo.busyTrace)
              1 2 (mkQueuedJob Demo.job2 (Some 1%nat)) 0 60000 (Some 1%nat)
              Demo.testError
              [Demo.job1; Demo.job2; Demo.job3] (OneShot.CInt 2)
              (Demo.oneShotStart [Demo.job1; Demo.job2; Demo.job3] 2)
              1 2 1 0 60000)
    as [(s1 & co & Hs & Hp & _) _].
  - apply (reachable_of_run _ _ Demo.busyTrace). vm_compute. reflexivity.
  - vm_compute. reflexivity.
  - apply OneShot.reachable_start. vm_compute. reflexivity.
  - vm_compute. reflexivity.
  - exists s1. split; [exact Hs|]. exact Hp.
Defined.

(** C5. A call [runJobs(js, c, logger)] with an integer [c >= 1] starts
    exactly [min(c, number of jobs)] workers, numbered from 1.  The cursor
    [nextIndex] never decreases; the jobs whose [execute] has been called
    are the first [nextIndex] jobs, each called once, and no two workers hold
    the same index.  Settling the job at index [i] writes its Outcome to
    [results[i]] and leaves the other entries alone; if the jobs keep
    settling the call resolves, and the array it resolves with has one
    Outcome per job, at the job's own index. *)
Theorem one_shot_runner_in_input_order
    (js : list Job) (c : Z) (s : OneShot.State) :
  1 ≤ c →
  OneShot.reachable js (OneShot.CInt c) s →
  length (OneShot.workers s) = Z.to_nat (Z.min c (Z.of_nat (length js))) ∧
  (∀ w x, OneShot.workers s !! w = Some x →
     OneShot.workerId x = Z.of_nat w + 1) ∧
  NoDup (OneShot.executing (OneShot.workers s)) ∧
  (∀ i, i ∈ OneShot.executing (OneShot.workers s) →
     (i < OneShot.nextIndex s)%nat ∧ (i < length js)%nat) ∧
  map callBody (OneShot.invocations s) =
    map execute (take (OneShot.nextIndex s) js) ∧
  (∀ e s', OneShot.step s e = Some s' →
     (OneShot.nextIndex s ≤ OneShot.nextIndex s')%nat) ∧
  (∀ w wid i st nf j r s',
     OneShot.workers s !! w =
       Some (OneShot.mkWorker wid (OneShot.RExecuting i st nf)) →
     js !! i = Some j → OneShot.settle w r s = Some s' →
     OneShot.results s' !! i = Some (Some (toJobResult r (properties j))) ∧
     ∀ i' o, i' ≠ i →
       OneShot.results s' !! i' = Some (Some o) ↔
       OneShot.results s !! i' = Some (Some o)) ∧
  (∃ es s', OneShot.run s es = Some s' ∧ is_Some (OneShot.resolved s')) ∧
  (∀ res, OneShot.resolved s = Some res →
     length res = length js ∧
     ∀ i j, js !! i = Some j →
       ∃ o, res !! i = Some (Some o) ∧ resultProperties o = properties j).
Proof.
  intros Hc Hr.
  destruct (OneShotFacts.PoolOk_reachable _ _ _ Hr)
    as (n & [= <-] & Hn & [Hj Hsize Hids _ [Hnd Hcl _ _ _ Hcalls]]).
  rewrite Hj in *. split_and!; try done.
  - intros e s'. apply OneShotFacts.step_nextIndex.
  - intros w wid i st nf j r s' Hw Hji. rewrite <- Hj in Hji.
    by apply (OneShotFacts.settle_writes_index s w wid i st nf).
  - by apply (OneShotFacts.runJobs_resolves _ _ _ Hr).
  - intros res. by apply (OneShotFacts.resolved_in_input_order _ _ _ _ Hr).
Qed.

Lemma one_shot_runner_in_input_order_witness :
  length (OneShot.workers
            (Demo.runOneShot [Demo.job1; Demo.job2; Demo.job3] 2
               Demo.oneShotTrace)) = 2%nat ∧
  OneShot.nextIndex
    (Demo.runOneShot [Demo.job1; Demo.job2; Demo.job3] 2 Demo.oneShotTrace) =
    5%nat.
Proof.
  destruct (one_shot_runner_in_input_order
              [Demo.job1; Demo.job2; Demo.job3] 2
              (Demo.runOneShot [Demo.job1; Demo.job2; Demo.job3] 2
                 Demo.oneShotTrace)) as (H1 & _).
  - lia.
  - eapply (oneShot_reachable_run _ _ _ Demo.oneShotTrace).
    + apply OneShot.reachable_start. vm_compute. reflexivity.
    + vm_compute. reflexivity.
  - split; [exact H1|]. vm_compute. reflexivity.
Defined.

(** C6.  The guard of [runJobs] rejects [null], [undefined] and every
    integer [<= 0] with 'Invalid concurrency: ...' before anything is
    started, and lets every integer [>= 1] through.  [NaN] also passes the
    guard, since [NaN <= 0] is false; the call then fails in
    [Array(Math.min(NaN, jobs.length))] with a RangeError, not with the
    'Invalid concurrency' error. *)
Theorem runJobs_guard (js : list Job) (n : nat) (p : positive) :
  OneShot.runJobs js OneShot.CNull =
    Throw (OneShot.invalidConcurrency OneShot.CNull) ∧
  OneShot.runJobs js OneShot.CUndefined =
    Throw (OneShot.invalidConcurrency OneShot.CUndefined) ∧
  OneShot.runJobs js (OneShot.CInt (- Z.of_nat n)) =
    Throw (OneShot.invalidConcurrency (OneShot.CInt (- Z.of_nat n))) ∧
  OneShot.runJobs [Demo.job1] (OneShot.CInt 0) =
    Throw (mkError "Error"
             "Invalid concurrency: 0. Must be a positive integer.") ∧
  (∃ s, OneShot.runJobs js (OneShot.CInt (Z.pos p)) = Ok s) ∧
  OneShot.runJobs js OneShot.CNaN = Throw OneShot.invalidArrayLength ∧
  errorName OneShot.invalidArrayLength = "RangeError"%string ∧
  errorName (OneShot.invalidConcurrency OneShot.CNaN) = "Error"%string.
Proof.
  split_and!; try done.
  - unfold OneShot.runJobs, OneShot.guardRejects.
    by rewrite bool_decide_eq_true_2 by lia.
  - unfold OneShot.runJobs, OneShot.guardRejects.
    rewrite bool_decide_eq_false_2 by lia. by eexists.
Qed.




(** C8, as the spec states it, fails in its last clause.  After
    [enqueue(job1)] on a pool of one worker, the worker runs the job and no
    promise is in the slot; a [notifyWorkersOfNewWork] now does nothing, and
    the [waitForWorkAvailable] that follows it makes a fresh promise that is
    not resolved: the notification is not remembered. *)
Lemma notify_is_not_remembered :
  ¬ armAfterNotifyIsResolved (Demo.runPool Accumulate 1 [Enqueue Demo.job1]).
Proof.
  unfold armAfterNotifyIsResolved. vm_compute.
  intros H. by apply elem_of_nil in H.
Qed.

(** C8, amended.  In every reachable state of a pool engine:
    [notifyWorkersOfNewWork] does nothing when no promise is in the slot;
    otherwise it resolves the promise every sleeping worker waits on, each
    promise once; a worker whose promise is resolved can resume, and when
    it has resumed it no longer waits on that promise; a worker whose
    promise is not resolved cannot resume, and this only happens while the
    queue is empty and the engine accepts work, because the worker looks at
    the queue and the shutdown flag in the same segment in which it arms
    the wait. *)
Theorem work_signal (v : Variant) (c : Z) (s : State) :
  reachable v c s →
  (resolveWorkAvailable s = None → notifyWorkersOfNewWork s = s) ∧
  (∀ w co p, coroutines s !! w = Some co → wstate co = WAwaitWork p →
     p ∈ signalled (notifyWorkersOfNewWork s)) ∧
  NoDup (signalled (notifyWorkersOfNewWork s)) ∧
  (∀ w co p, coroutines s !! w = Some co → wstate co = WAwaitWork p →
     p ∈ signalled s →
     ∃ s' co', resume w s = Some s' ∧ coroutines s' !! w = Some co' ∧
               wstate co' ≠ WAwaitWork p) ∧
  (∀ w co p, coroutines s !! w = Some co → wstate co = WAwaitWork p →
     p ∉ signalled s →
     resume w s = None ∧ queue s = [] ∧ isAcceptingWork s = true).
Proof.
  intros Hr. pose proof (Sig_reachable _ _ _ Hr) as HS.
  pose proof (Quiet_reachable _ _ _ Hr) as HQ.
  split_and!.
  - intros H. unfold notifyWorkersOfNewWork. by rewrite H.
  - by apply notify_wakes_all.
  - by apply (sig_once _ (Sig_notify _ HS)).
  - intros w [wid st] p Hco Hp Hin. simpl in Hp. subst st.
    unfold resume. rewrite Hco. rewrite bool_decide_eq_true_2 by done.
    rewrite install_eq.
    eexists _, (mkCoroutine wid (fst (workerLoop wid s))).
    split; [done|]. split.
    + simpl. rewrite workerLoop_coroutines.
      apply list_lookup_insert_eq. by apply lookup_lt_Some in Hco.
    + simpl. destruct HS as [Hslot Hfresh Hbound _ _].
      pose proof (workerLoop_outcome wid s) as Hloop.
      inversion Hloop as [? ? E1 E2|? ? E1 E2|j0 rest0 Hq0 E1 E2]; try done.
      rewrite waitForWorkAvailable_fst. rewrite Hslot.
      destruct (resolveWorkAvailable s) as [q|] eqn:Hq; simpl.
      * intros [= E]. subst q. by destruct (Hfresh _ eq_refl).
      * intros [= E]. specialize (Hbound _ Hin). lia.
  - intros w [wid st] p Hco Hp Hnin. simpl in Hp. subst st.
    split; [|by eapply HQ].
    unfold resume. rewrite Hco. by rewrite bool_decide_eq_false_2.
Qed.

Lemma work_signal_witness :
  signalled (notifyWorkersOfNewWork
               (Demo.runPool Accumulate 2 Demo.poolTrace)) = [0%nat; 1%nat] ∧
  NoDup (signalled (notifyWorkersOfNewWork
                      (Demo.runPool Accumulate 2 Demo.poolTrace))).
Proof.
  destruct (work_signal Accumulate 2
              (Demo.runPool Accumulate 2 Demo.poolTrace))
    as (_ & _ & H & _).
  - apply (reachable_of_run _ _ Demo.poolTrace). vm_compute. reflexivity.
  - split; [vm_compute; reflexivity|exact H].
Defined.



(** C10. In the accumulate variant [getResults()] returns the reference
    held in the field [results], which is never reassigned: every call
    returns the same array.  Read through a reference obtained earlier, the
    array shows the Outcome of a job that completes later; an array the
    caller writes through that reference is what the engine returns from
    then on, and later Outcomes are pushed onto what the caller wrote. *)
Theorem getResults_returns_the_array
    (c : Z) (s : State) (w : nat) (wid : Z) (j : QueuedJob) (st nf : Z)
    (res : option nat) :
  reachable Accumulate c s →
  coroutines s !! w = Some (mkCoroutine wid (WExecuting j st nf res)) →
  getResults s = getResults (init Accumulate c) ∧
  (∀ e s', step s e = Some s' → getResults s' = getResults s) ∧
  (∀ r, ∃ s', settle w r s = Some s' ∧
     deref s' (getResults s) =
       deref s (getResults s) ++ [toJobResult r (jobProps j)]) ∧
  (∀ a, deref (callerWrite (getResults s) a s)
          (getResults (callerWrite (getResults s) a s)) = a) ∧
  (∀ a r, ∃ s', settle w r (callerWrite (getResults s) a s) = Some s' ∧
     deref s' (getResults s') = a ++ [toJobResult r (jobProps j)]).
Proof.
  intros Hr Hco.
  assert (Hpush : ∀ s0 r, reachable Accumulate c s0 →
    coroutines s0 !! w = Some (mkCoroutine wid (WExecuting j st nf res)) →
    ∃ s', settle w r s0 = Some s' ∧ results s' = results s0 ∧
      deref s' (results s0) =
        deref s0 (results s0) ++ [toJobResult r (jobProps j)]).
  { intros s0 r Hr0 Hco0.
    destruct (settle_runs _ _ _ _ _ _ _ _ _ r Hr0 Hco0) as [Hs _].
    eexists. split; [exact Hs|].
    destruct (settle_heap _ _ _ _ _ _ _ _ _ Hco0 Hs) as (Er & Eh & _).
    split; [done|]. unfold deref. rewrite Eh.
    rewrite (reachable_variant _ _ _ Hr0), lookup_alter_eq.
    by destruct (results_allocated _ _ _ Hr0) as [a ->]. }
  split_and!.
  - unfold getResults. clear Hco Hpush.
    induction Hr as [|s e s' _ IH Hstep]; [done|].
    by rewrite (results_fixed _ _ _ Hstep).
  - intros e s'. apply results_fixed.
  - intros r. destruct (Hpush s r Hr Hco) as (s' & ? & _ & ?). eauto.
  - intros a. unfold deref, callerWrite, getResults. simpl.
    by rewrite lookup_insert_eq.
  - intros a r.
    destruct (Hpush (callerWrite (getResults s) a s) r) as (s' & Hs & Er & Hd).
    + by eapply (reachable_step _ _ _ (CallerWrite (getResults s) a)).
    + done.
    + exists s'. split; [done|]. unfold getResults in *. rewrite Er, Hd.
      unfold deref, callerWrite. simpl. by rewrite lookup_insert_eq.
Qed.

Lemma getResults_returns_the_array_witness :
  ∃ s',
    settle 1 (Throws Demo.testError)
      (Demo.runPool Accumulate 2 Demo.busyTrace) = Some s' ∧
    deref s' (getResults (Demo.runPool Accumulate 2 Demo.busyTrace)) =
      [Rejected Demo.testError (properties Demo.job2)].
Proof.
  destruct (getResults_returns_the_array 2
              (Demo.runPool Accumulate 2 Demo.busyTrace)
              1 2 (mkQueuedJob Demo.job2 None) 0 60000 None)
    as (_ & _ & H & _).
  - apply (reachable_of_run _ _ Demo.busyTrace). vm_compute. reflexivity.
  - vm_compute. reflexivity.
  - destruct (H (Throws Demo.testError)) as (s' & Hs & Hd).
    exists s'. split; [exact Hs|]. exact Hd.
Defined.

(** * Further properties of the pool engines *)





(** X3. In the promise-per-job pool the resolver map holds exactly the ids
    of the jobs that are queued or running: an entry is filed when the job
    is accepted and deleted when the job ends.  The ids are distinct and
    were handed out below [jobCounter], which counts the accepted jobs.  An
    idle pool has an empty map; the queue class never uses the map.  The
    resolver a worker looks up is therefore always there, and no worker
    loop ever throws. *)
Theorem resolver_map_tracks_pending_jobs (v : Variant) (c : Z) (s : State) :
  reachable v c s →
  (∀ id, is_Some (resolveMap s !! id) ↔
         v = PromisePerJob ∧ id ∈ pendingIds s) ∧
  (v = PromisePerJob →
     NoDup (pendingIds s) ∧
     jobCounter s = length (submitted s) ∧
     ∀ id, id ∈ pendingIds s → (id < jobCounter s)%nat) ∧
  (isIdle s = true → resolveMap s = ∅) ∧
  (v = Accumulate → resolveMap s = ∅) ∧
  (∀ w co, coroutines s !! w = Some co → wstate co ≠ WCrashed).
Proof.
  intros Hr.
  pose proof (Resolvers_reachable _ _ _ Hr) as HR.
  pose proof (reachable_variant _ _ _ Hr) as Hv.
  destruct (Deliv_reachable _ _ _ Hr) as [[_ HP] Hh].
  assert (Hpend : ∀ id, v = PromisePerJob → id ∈ pendingIds s →
            resolveMap s !! id = Some id ∧ (id < length (submitted s))%nat).
  { intros id -> Hin. specialize (HP Hv).
    apply list_elem_of_omap in Hin as (qj & Hqj & Hid).
    destruct (pool_pending _ _ HP qj Hqj) as (id' & Hid' & Hm & _ & Hs).
    simplify_eq. split; [done|]. by apply lookup_lt_Some in Hs. }
  split_and!.
  - intros id. split.
    + intros [p Hp]. destruct (HR id p Hp) as [? ?]. split; [congruence|done].
    + intros [Hpp Hin]. destruct (Hpend id Hpp Hin) as [-> _]. by eexists.
  - intros ->. specialize (HP Hv). split_and!.
    + apply (pool_distinct _ _ HP).
    + apply (pool_counter _ _ HP).
    + intros id Hin. rewrite (pool_counter _ _ HP).
      by destruct (Hpend id eq_refl Hin).
  - intros Hidle. apply map_empty. intros id.
    destruct (resolveMap s !! id) as [p|] eqn:Hp; [|done].
    destruct (HR id p Hp) as [_ Hin]. exfalso.
    unfold isIdle in Hidle. apply andb_true_iff in Hidle as [Ha Hq].
    apply bool_decide_eq_true in Ha, Hq.
    apply length_zero_iff_nil in Hq.
    pose proof (life_active _ _ _ (Life_reachable _ _ _ Hr)) as Hact.
    unfold pendingIds in Hin. rewrite Hq, executingJobs_nil in Hin by lia.
    by apply elem_of_nil in Hin.
  - intros ->. apply map_empty. intros id.
    destruct (resolveMap s !! id) as [p|] eqn:Hp; [|done].
    destruct (HR id p Hp) as [? _]. congruence.
  - intros w co Hco Hcr. specialize (Hh _ _ Hco). by rewrite Hcr in Hh.
Qed.

Lemma resolver_map_tracks_pending_jobs_witness :
  resolveMap (Demo.runPool PromisePerJob 2 Demo.poolTrace) = ∅ ∧
  NoDup (pendingIds (Demo.runPool PromisePerJob 2 Demo.busyTrace)).
Proof.
  split.
  - destruct (resolver_map_tracks_pending_jobs PromisePerJob 2
                (Demo.runPool PromisePerJob 2 Demo.poolTrace))
      as (_ & _ & H & _).
    + apply (reachable_of_run _ _ Demo.poolTrace). vm_compute. reflexivity.
    + apply H. vm_compute. reflexivity.
  - destruct (resolver_map_tracks_pending_jobs PromisePerJob 2
                (Demo.runPool PromisePerJob 2 Demo.busyTrace))
      as (_ & H & _).
    + apply (reachable_of_run _ _ Demo.busyTrace). vm_compute. reflexivity.
    + by destruct (H eq_refl).
Defined.

(** X4. At every moment each accepted job is in exactly one place: it has
    produced its Outcome, it waits in the queue, or it is running.  So
    [queueLength + activeJobCount] is the number of accepted jobs that have
    not finished, [activeJobCount] is never negative, and the engine is
    idle exactly when every accepted job has produced its Outcome. *)
Theorem accepted_jobs_are_accounted_for (v : Variant) (c : Z) (s : State) :
  reachable v c s →
  Z.of_nat (length (submitted s)) =
    Z.of_nat (length (produced s)) + Z.of_nat (queueLength s) +
    activeJobCount s ∧
  0 ≤ activeJobCount s ∧
  (isIdle s = true ↔ length (produced s) = length (submitted s)).
Proof.
  intros Hr. pose proof (conservation _ _ _ Hr) as Hc.
  pose proof (life_active _ _ _ (Life_reachable _ _ _ Hr)) as Ha.
  unfold queueLength, activeJobCount, isIdle. split_and!; [lia..|].
  rewrite andb_true_iff, !bool_decide_eq_true. lia.
Qed.

Lemma accepted_jobs_are_accounted_for_witness :
  Z.of_nat (length (submitted (Demo.runPool Accumulate 2 Demo.busyTrace))) =
    Z.of_nat (length (produced (Demo.runPool Accumulate 2 Demo.busyTrace))) +
    Z.of_nat (queueLength (Demo.runPool Accumulate 2 Demo.busyTrace)) +
    activeJobCount (Demo.runPool Accumulate 2 Demo.busyTrace).
Proof.
  destruct (accepted_jobs_are_accounted_for Accumulate 2
              (Demo.runPool Accumulate 2 Demo.busyTrace)) as [H _].
  - apply (reachable_of_run _ _ Demo.busyTrace). vm_compute. reflexivity.
  - exact H.
Defined.

(** X5. A pool engine built with a concurrency limit of 0 or less accepts
    jobs and never runs them: it has no worker loops, calls no [execute],
    produces no Outcome, and every accepted job stays in the queue.  A
    [waitForIdle] promise that is pending in such a pool is never
    resolved. *)
Theorem pool_without_workers_runs_nothing (v : Variant) (c : Z) (s : State) :
  c ≤ 0 → reachable v c s →
  coroutines s = [] ∧ invocations s = [] ∧ produced s = [] ∧
  map job (queue s) = submitted s ∧ activeJobCount s = 0 ∧
  (∀ es s' p, run s es = Some s' → p ∈ waitingResolvers s →
     p ∈ waitingResolvers s' ∧ p ∉ idleResolved s').
Proof.
  intros Hc Hr.
  assert (Hno : ∀ s, reachable v c s → coroutines s = []).
  { intros s0 Hr0. apply length_zero_iff_nil.
    destruct (life_len _ _ _ (Life_reachable _ _ _ Hr0)); lia. }
  assert (Hinv : invocations s = []).
  { destruct (invocations s) as [|call l] eqn:E; [done|].
    assert (1 ≤ callWorkerId call ≤ c); [|lia].
    apply (CallsFrom_reachable _ _ _ Hr). rewrite E. by left. }
  pose proof (Fifo_reachable _ _ _ Hr) as HF. unfold Fifo in HF.
  rewrite Hinv in HF. simpl in HF.
  pose proof (conservation _ _ _ Hr) as Hcons.
  rewrite <- HF, length_map, (Hno _ Hr) in Hcons.
  pose proof (life_active _ _ _ (Life_reachable _ _ _ Hr)) as Hact.
  rewrite (Hno _ Hr) in Hact.
  split_and!; try done.
  - by apply Hno.
  - apply length_zero_iff_nil. unfold inFlight in Hcons. simpl in Hcons. lia.
  - unfold activeJobCount. unfold inFlight in Hact. simpl in Hact. lia.
  - intros es s' p Hrun Hp.
    assert (Hkeep : p ∈ waitingResolvers s').
    { clear -Hno Hr Hrun Hp. revert s Hr Hrun Hp.
      induction es as [|e es IH]; simpl; intros s Hr Hrun Hp.
      - by simplify_eq.
      - destruct (step s e) as [s1|] eqn:Hs; [|done].
        apply (IH s1); [by eapply reachable_step|done|].
        destruct (settle_or_other e) as [(w & r & ->)|Hne].
        + simpl in Hs. unfold settle in Hs. by rewrite (Hno _ Hr) in Hs.
        + by destruct (other_idle_bookkeeping _ _ _ Hne Hs) as (_ & H & _);
            apply H. }
    split; [done|]. intros Hres.
    pose proof (idle_once _ (IdleInv_reachable _ _ _
                  (reachable_run _ _ _ _ _ Hr Hrun))) as Hnd.
    apply NoDup_app in Hnd as (_ & Hdis & _). by apply (Hdis p).
Qed.

Lemma pool_without_workers_runs_nothing_witness :
  invocations
    (Demo.runPool Accumulate 0 [Enqueue Demo.job1; WaitForIdle]) = [] ∧
  map job (queue (Demo.runPool Accumulate 0 [Enqueue Demo.job1; WaitForIdle])) =
    [Demo.job1].
Proof.
  destruct (pool_without_workers_runs_nothing Accumulate 0
              (Demo.runPool Accumulate 0 [Enqueue Demo.job1; WaitForIdle]))
    as (_ & H1 & _ & H2 & _).
  - lia.
  - apply (reachable_of_run _ _ [Enqueue Demo.job1; WaitForIdle]).
    vm_compute. reflexivity.
  - split; [exact H1|exact H2].
Defined.

(** X6. [enqueueAll(jobs)] is [enqueue] applied to each job in order, and
    it is all or nothing.  On an engine that accepts work every job is
    accepted, in order, and in the promise-per-job pool one new pending
    promise is created per job; the engine still accepts work afterwards.
    After shutdown the call throws 'Cannot enqueue jobs after shutdown'
    at the first job and accepts none; with an empty array it does nothing
    and does not throw. *)
Theorem enqueueAll_accepts_all_or_throws (js : list Job) (s : State) :
  (isAcceptingWork s = true →
     ∃ s', enqueueAll js s = Ok s' ∧ run s (map Enqueue js) = Some s' ∧
           isAcceptingWork s' = true ∧ submitted s' = submitted s ++ js ∧
           jobPromises s' =
             jobPromises s ++
             match variant s with
             | PromisePerJob => replicate (length js) None
             | Accumulate => []
             end) ∧
  (isAcceptingWork s = false →
     enqueueAll js s =
       match js with
       | [] => Ok s
       | _ :: _ =>
           Throw (mkError "Error" "Cannot enqueue jobs after shutdown")
       end).
Proof.
  split.
  - revert s. induction js as [|j js IH]; intros s Ha; simpl.
    + exists s. rewrite !app_nil_r. split_and!; try done.
      destruct (variant s); by rewrite ?app_nil_r.
    + rewrite (enqueue_accepting j s Ha).
      destruct (enqueue_frame j s) as (Ea & Ev & Ep).
      destruct (IH (notifyWorkersOfNewWork (ensureWorkers (pushJob j s))))
        as (s' & H1 & H2 & H3 & H4 & H5); [congruence|].
      exists s'. split_and!; try done.
      * rewrite H4, submitted_enqueue. by rewrite <- app_assoc.
      * rewrite H5, Ep, Ev. destruct (variant s); by rewrite <- app_assoc.
  - intros Ha. destruct js as [|j js]; simpl; [done|].
    by rewrite (enqueue_closed j s Ha).
Qed.



(** X8. No job is lost and no worker sleeps through queued work.  From
    every reachable state of a pool engine with a limit of at least 1, and
    however the jobs settle ([out] gives the settlement of each job), the
    worker loops alone bring the engine to an idle state: a schedule of job
    settlements and worker resumptions, at most two per queued job plus one
    per running job, with no new submission.  In the idle state every
    accepted job has produced its Outcome and every [waitForIdle] promise
    that was pending is resolved. *)
Theorem pool_engine_drains
    (v : Variant) (c : Z) (s : State) (out : Job → Settlement) :
  1 ≤ c → reachable v c s →
  ∃ es s',
    run s es = Some s' ∧
    forallb isWorkerEvent es = true ∧ settlesAs out s es ∧
    (length es ≤ 2 * queueLength s + inFlight (coroutines s))%nat ∧
    isIdle s' = true ∧ queueLength s' = 0%nat ∧ activeJobCount s' = 0 ∧
    submitted s' = submitted s ∧
    length (produced s') = length (submitted s) ∧
    (∀ p, p ∈ waitingResolvers s → p ∈ idleResolved s').
Proof.
  intros Hc Hr.
  destruct (drain_steps v c out Hc _ _ Hr (le_n _))
    as (es & s' & Hrun & Hidle & Hes & Hsa & Hlen & _ & _ & Hsub & _).
  exists es, s'.
  pose proof (reachable_run _ _ _ _ _ Hr Hrun) as Hr'.
  pose proof Hidle as Hi. unfold isIdle in Hi.
  apply andb_true_iff in Hi as [Hact Hq].
  apply bool_decide_eq_true in Hact, Hq.
  pose proof (conservation _ _ _ Hr') as Hcons.
  pose proof (life_active _ _ _ (Life_reachable _ _ _ Hr')) as Hfl.
  split_and!; try done.
  - rewrite <- Hsub. lia.
  - intros p Hp.
    assert (Hin : p ∈ idleResolved s' ++ waitingResolvers s').
    { apply (idle_promises_kept _ _ _ _ Hrun). apply elem_of_app. by right. }
    rewrite (idle_level _ (IdleInv_reachable _ _ _ Hr') Hidle) in Hin.
    by rewrite app_nil_r in Hin.
Qed.

Lemma pool_engine_drains_witness :
  ∃ es s',
    run (Demo.runPool Accumulate 2 Demo.busyTrace) es = Some s' ∧
    isIdle s' = true ∧ (length es ≤ 4)%nat.
Proof.
  destruct (pool_engine_drains Accumulate 2
              (Demo.runPool Accumulate 2 Demo.busyTrace)
              (λ _, Resolves VUndefined))
    as (es & s' & Hrun & _ & _ & Hlen & Hidle & _).
  - lia.
  - apply (reachable_of_run _ _ Demo.busyTrace). vm_compute. reflexivity.
  - exists es, s'. split; [exact Hrun|]. split; [exact Hidle|exact Hlen].
Defined.

(** X9. [finishAllWork] returns.  Called in any reachable state of a pool
    engine with a limit of at least 1, and however the jobs settle, the
    worker loops run the queue dry and terminate, after which the pending
    call of [finishAllWork] resumes and returns: then nothing is queued,
    nothing runs, the [workers] array is empty and every job accepted
    before the call has produced its Outcome. *)
Theorem finishAllWork_returns
    (v : Variant) (c : Z) (s : State) (out : Job → Settlement) :
  1 ≤ c → reachable v c s →
  ∃ es s' ws,
    run (finishAllWork s) (es ++ [FinishResume (length (finishCalls s))]) =
      Some s' ∧
    forallb isWorkerEvent es = true ∧
    settlesAs out (finishAllWork s) es ∧
    finishCalls s' !! length (finishCalls s) = Some (mkFinishCall ws true) ∧
    shutdownResolved s' ∧
    queueLength s' = 0%nat ∧ activeJobCount s' = 0 ∧ workers s' = [] ∧
    submitted s' = submitted s ∧
    length (produced s') = length (submitted s).
Proof.
  intros Hc Hr.
  destruct (shutdown_steps v c out s Hc Hr)
    as (es & s' & ws & Hrun & Hes & Hsa & Hk & Hq & Hact & Hw & Hsub & Hr').
  exists es, s', ws.
  pose proof (conservation _ _ _ Hr') as Hcons.
  pose proof (life_active _ _ _ (Life_reachable _ _ _ Hr')) as Hfl.
  unfold queueLength, activeJobCount. rewrite Hq in *. simpl in *.
  split_and!; try done.
  - by exists (length (finishCalls s)), ws.
  - rewrite <- Hsub. lia.
Qed.

Lemma finishAllWork_returns_witness :
  ∃ es s',
    run (finishAllWork (Demo.runPool Accumulate 2 Demo.busyTrace))
        (es ++ [FinishResume 0]) = Some s' ∧
    shutdownResolved s' ∧ length (produced s') = 3%nat.
Proof.
  destruct (finishAllWork_returns Accumulate 2
              (Demo.runPool Accumulate 2 Demo.busyTrace)
              (λ _, Resolves VUndefined))
    as (es & s' & ws & Hrun & _ & _ & _ & Hsr & _ & _ & _ & _ & Hp).
  - lia.
  - apply (reachable_of_run _ _ Demo.busyTrace). vm_compute. reflexivity.
  - exists es, s'. split; [exact Hrun|]. split; [exact Hsr|exact Hp].
Defined.

(** X10. Shutdown is permanent from the moment [finishAllWork] is called,
    not only once it has returned: whatever happens afterwards, the engine
    never accepts work again, every [enqueue] throws 'Cannot enqueue jobs
    after shutdown', the set of accepted jobs is frozen and the queue only
    shrinks. *)
Theorem shutdown_is_permanent
    (s : State) (es : list Event) (s' : State) (j : Job) :
  isAcceptingWork s = false →
  run s es = Some s' →
  isAcceptingWork s' = false ∧
  enqueue j s' =
    Throw (mkError "Error" "Cannot enqueue jobs after shutdown") ∧
  submitted s' = submitted s ∧
  (queueLength s' ≤ queueLength s)%nat.
Proof.
  intros Ha Hrun.
  assert (H : isAcceptingWork s' = false ∧ submitted s' = submitted s ∧
              (length (queue s') ≤ length (queue s))%nat).
  { revert s Ha Hrun. induction es as [|e es IH]; simpl; intros s Ha Hrun.
    - by simplify_eq.
    - destruct (step s e) as [s1|] eqn:Hs; [|done].
      destruct (step_closed _ _ _ Hs Ha) as (Ha1 & Hs1 & Hq1).
      destruct (IH s1 Ha1 Hrun) as (? & ? & ?).
      split_and!; [done|congruence|lia]. }
  destruct H as (Ha' & Hs' & Hq').
  split_and!; try done. by apply enqueue_closed.
Qed.

Lemma shutdown_is_permanent_witness :
  enqueue Demo.job1
    (Demo.runPool Accumulate 2
       (Demo.busyTrace ++ [FinishAllWork; Settle 0 (Resolves VUndefined)])) =
  Throw (mkError "Error" "Cannot enqueue jobs after shutdown").
Proof.
  destruct (shutdown_is_permanent
              (Demo.runPool Accumulate 2 (Demo.busyTrace ++ [FinishAllWork]))
              [Settle 0 (Resolves VUndefined)]
              (Demo.runPool Accumulate 2
                 (Demo.busyTrace ++
                    [FinishAllWork; Settle 0 (Resolves VUndefined)]))
              Demo.job1) as (_ & H & _).
  - vm_compute. reflexivity.
  - vm_compute. reflexivity.
  - exact H.
Defined.

(** X11. The promise [enqueue] returns in the promise-per-job pool is
    settled at most once and never rejected: once it holds an Outcome it
    keeps that Outcome for ever, and a pending promise becomes settled only
    by the end of its own job (the job that was given the same id, the
    i-th accepted job), with the Outcome of that job, fulfilled or
    rejected. *)
Theorem job_promise_settles_once
    (v : Variant) (c : Z) (s : State) (e : Event) (s' : State) (i : nat) :
  reachable v c s → step s e = Some s' →
  (∀ o, jobPromises s !! i = Some (Some o) →
     jobPromises s' !! i = Some (Some o)) ∧
  (∀ o, jobPromises s !! i = Some None →
     jobPromises s' !! i = Some (Some o) →
     ∃ w r co j,
       e = Settle w r ∧ coroutines s !! w = Some co ∧
       executingJob co = Some j ∧ concurrentJobId j = Some i ∧
       submitted s !! i = Some (job j) ∧
       o = toJobResult r (jobProps j)).
Proof.
  intros Hr Hs.
  assert (Hsame : jobPromises s' = jobPromises s →
    (∀ o, jobPromises s !! i = Some (Some o) →
       jobPromises s' !! i = Some (Some o)) ∧
    (∀ o, jobPromises s !! i = Some None →
       jobPromises s' !! i = Some (Some o) →
       ∃ w r co j,
         e = Settle w r ∧ coroutines s !! w = Some co ∧
         executingJob co = Some j ∧ concurrentJobId j = Some i ∧
         submitted s !! i = Some (job j) ∧
         o = toJobResult r (jobProps j))).
  { intros ->. split; [done|]. intros o H1 H2. congruence. }
  destruct e; simpl in Hs.
  - unfold enqueue in Hs. destruct (isAcceptingWork s); simpl in Hs;
      simplify_eq; [|by apply Hsame].
    destruct (enqueue_frame j s) as (_ & _ & ->).
    split.
    + intros o Ho. by apply lookup_app_l_Some.
    + intros o Ho Ho'. rewrite (lookup_app_l_Some _ _ _ _ Ho) in Ho'. done.
  - simplify_eq. apply Hsame. by rewrite waitForIdle_norm.
  - simplify_eq. apply Hsame. unfold finishAllWork.
    by rewrite notifyWorkersOfNewWork_norm.
  - apply Hsame. unfold finishResume in Hs. repeat case_match; by simplify_eq.
  - apply Hsame. unfold resume in Hs.
    destruct (coroutines s !! w) as [[wid [p|j st nf res| |]]|]; try done.
    case_match; [|done]. simplify_eq.
    by destruct (untouched_install w wid s)
      as (_&_&_&_&_&_&_&_&_&_&_& -> &_).
  - destruct (coroutines s !! w) as [[wid [p|j st nf res| |]]|] eqn:Hco;
      try (unfold settle in Hs; rewrite Hco in Hs; done).
    destruct (settle_runs _ _ _ _ _ _ _ _ _ r Hr Hco) as [Hs' Hid].
    rewrite Hs' in Hs. simplify_eq.
    pose proof (reachable_variant _ _ _ Hr) as Hv.
    assert (Ep : jobPromises (install w wid (workerLoop wid
                   (finallyBlock j (delivered res (toJobResult r (jobProps j)) s))))
                 = match variant s, res with
                   | PromisePerJob, Some p =>
                       resolvePromise p (toJobResult r (jobProps j)) (jobPromises s)
                   | _, _ => jobPromises s
                   end).
    { destruct (untouched_install w wid
                  (finallyBlock j (delivered res (toJobResult r (jobProps j)) s)))
        as (_&_&_&_&_&_&_&_&_&_&_& -> &_).
      apply jobPromises_job_end. }
    destruct v.
    + apply Hsame. by rewrite Ep, Hv.
    + destruct (Hid eq_refl) as (id & -> & Hcid & Hp).
      rewrite Ep, Hv. unfold resolvePromise. rewrite Hp.
      destruct (decide (i = id)) as [->|Hne].
      * split; [intros o Ho; congruence|].
        intros o _ Ho.
        rewrite list_lookup_insert_eq in Ho by by apply lookup_lt_Some in Hp.
        simplify_eq.
        exists w, r, (mkCoroutine wid (WExecuting j st nf (Some id))), j.
        split_and!; try done.
        destruct (Deliv_reachable _ _ _ Hr) as [[_ HP] _].
        specialize (HP Hv).
        destruct (pool_pending _ _ HP j) as (id' & Hid' & _ & _ & Hsub).
        { apply elem_of_app. right. apply list_elem_of_omap.
          eexists. split; [by eapply list_elem_of_lookup_2|done]. }
        congruence.
      * rewrite list_lookup_insert_ne by done. split; [done|].
        intros o H1 H2. congruence.
  - apply Hsame. unfold elapse in Hs. case_match; by simplify_eq.
  - apply Hsame. unfold timerFire in Hs. repeat case_match; by simplify_eq.
  - apply Hsame. by simplify_eq.
Qed.

Lemma job_promise_settles_once_witness :
  jobPromises
    (Demo.runPool PromisePerJob 2
       (Demo.busyTrace ++ [Settle 1 (Throws Demo.testError);
                           Settle 0 (Resolves VUndefined)])) !! 1%nat =
  Some (Some (Rejected Demo.testError (properties Demo.job2))).
Proof.
  destruct (job_promise_settles_once PromisePerJob 2
              (Demo.runPool PromisePerJob 2
                 (Demo.busyTrace ++ [Settle 1 (Throws Demo.testError)]))
              (Settle 0 (Resolves VUndefined))
              (Demo.runPool PromisePerJob 2
                 (Demo.busyTrace ++ [Settle 1 (Throws Demo.testError);
                                     Settle 0 (Resolves VUndefined)]))
              1) as [H _].
  - apply (reachable_of_run _ _
             (Demo.busyTrace ++ [Settle 1 (Throws Demo.testError)])).
    vm_compute. reflexivity.
  - vm_compute. reflexivity.
  - apply H. vm_compute. reflexivity.
Defined.

(** * Properties of the helpers *)

Lemma lookupProp_assign_eq k v o : lookupProp k (assign k v o) = Some v.
Proof.
  induction o as [|[k' v'] o IH]; simpl.
  - by rewrite String.eqb_refl.
  - destruct (String.eqb k k') eqn:E; simpl; rewrite ?String.eqb_refl, ?E; done.
Qed.

Lemma lookupProp_assign_ne k k' v o :
  k ≠ k' → lookupProp k (assign k' v o) = lookupProp k o.
Proof.
  intros Hne. apply String.eqb_neq in Hne.
  induction o as [|[k2 v2] o IH]; simpl.
  - by rewrite Hne.
  - destruct (String.eqb k' k2) eqn:E; simpl.
    + apply String.eqb_eq in E as <-. by rewrite Hne.
    + by rewrite IH.
Qed.

Lemma lookupProp_None k o : k ∉ o.*1 → lookupProp k o = None.
Proof.
  induction o as [|[k' v'] o IH]; simpl; [done|].
  intros Hn. apply not_elem_of_cons in Hn as [Hne Hn].
  apply String.eqb_neq in Hne. rewrite Hne. by apply IH.
Qed.

Lemma lookupProp_spread k a b :
  NoDup b.*1 →
  lookupProp k (spread a b) =
    match lookupProp k b with
    | Some v => Some v
    | None => lookupProp k a
    end.
Proof.
  unfold spread. revert a. induction b as [|[k' v'] b IH]; intros a Hnd;
    simpl; [done|].
  apply NoDup_cons in Hnd as [Hnin Hnd]. rewrite (IH _ Hnd).
  destruct (String.eqb k k') eqn:E.
  - apply String.eqb_eq in E as ->.
    by rewrite (lookupProp_None k' b Hnin), lookupProp_assign_eq.
  - apply String.eqb_neq in E. by rewrite lookupProp_assign_ne.
Qed.

(** X12. The payload of a watchdog report, [{ ...context, ...properties }],
    carries every property of the job unchanged, plus [workerId]: the id of
    the worker, unless the job has a property named [workerId] of its own,
    which then replaces the worker's id in the report. *)
Theorem watchdog_payload_merges_properties
    (w : nat) (wid : Z) (p : Props) (st t : Z) (k : string) :
  NoDup p.*1 →
  lookupProp k (warnPayload (watchdogReport w wid p st t)) =
    match lookupProp k p with
    | Some x => Some x
    | None => if String.eqb k "workerId" then Some (VNum wid) else None
    end.
Proof. intros Hnd. simpl. by rewrite lookupProp_spread. Qed.

Lemma watchdog_payload_merges_properties_witness :
  lookupProp "workerId"
    (warnPayload
       (watchdogReport 0 1 [("workerId"%string, VStr "mine");
                            ("id"%string, VNum 7)] 0 60000)) =
  Some (VStr "mine").
Proof.
  apply (watchdog_payload_merges_properties 0 1
           [("workerId"%string, VStr "mine"); ("id"%string, VNum 7)]
           0 60000 "workerId").
  apply (bool_decide_unpack _). vm_compute. exact I.
Defined.

(** X13. [numberOfCpus()] is the number of entries [cpus()] reports, and 1
    when that array is empty, so it is always at least 1.  Used as the
    concurrency of [runJobs] it always passes the guard. *)
Theorem numberOfCpus_is_a_valid_concurrency
    (A : Type) (cpus : list A) (js : list Job) :
  1 ≤ numberOfCpus cpus ∧
  numberOfCpus cpus = Z.max 1 (Z.of_nat (length cpus)) ∧
  numberOfCpus (@nil A) = 1 ∧
  OneShot.guardRejects (OneShot.CInt (numberOfCpus cpus)) = false ∧
  ∃ s, OneShot.runJobs js (OneShot.CInt (numberOfCpus cpus)) = Ok s.
Proof.
  assert (H : 1 ≤ numberOfCpus cpus ∧
              numberOfCpus cpus = Z.max 1 (Z.of_nat (length cpus))).
  { unfold numberOfCpus. simpl. case_bool_decide; lia. }
  destruct H as [H1 H2]. split_and!; try done.
  - simpl. by rewrite bool_decide_eq_false_2 by lia.
  - unfold OneShot.runJobs. simpl.
    rewrite bool_decide_eq_false_2 by lia. by eexists.
Qed.

(** * Further properties of the one-shot runner *)

(** X14. [runJobs] calls [execute] for the jobs in input order, each with
    its own [properties]: the k-th call is made for job k.  The [workerId]
    of every call lies between 1 and [min(concurrency, number of jobs)].
    When the call resolves, every job has been started exactly once. *)
Theorem runner_calls_each_job_once
    (js : list Job) (c : Z) (s : OneShot.State) :
  1 ≤ c → OneShot.reachable js (OneShot.CInt c) s →
  map callJob (OneShot.invocations s) = take (OneShot.nextIndex s) js ∧
  (∀ call, call ∈ OneShot.invocations s →
     1 ≤ callWorkerId call ≤ Z.min c (Z.of_nat (length js))) ∧
  (∀ k call, OneShot.invocations s !! k = Some call →
     ∃ j, js !! k = Some j ∧
          callBody call = execute j ∧ callProperties call = properties j) ∧
  (∀ res, OneShot.resolved s = Some res →
     map callJob (OneShot.invocations s) = js).
Proof.
  intros Hc Hr.
  destruct (OneShotFacts.CallsOk_reachable _ _ _ Hr) as [H1 H2].
  destruct (OneShotFacts.PoolOk_reachable _ _ _ Hr)
    as (n & [= <-] & _ & [Hj Hn _ Hd _]).
  rewrite Hj in H1. split_and!.
  - done.
  - intros call Hin. specialize (H2 _ Hin). lia.
  - intros k call Hk. exists (callJob call). split; [|done].
    assert (Hk' : take (OneShot.nextIndex s) js !! k = Some (callJob call)).
    { rewrite <- H1. by rewrite list_lookup_fmap, Hk. }
    by apply lookup_take_Some in Hk' as [? _].
  - intros res Hres. rewrite H1. unfold OneShot.resolved in Hres.
    destruct (forallb OneShot.isDone (OneShot.workers s)) eqn:Hall; [|done].
    destruct (OneShot.workers s) as [|x ws] eqn:Hws.
    + simpl in Hn.
      assert (js = []) as -> by (apply length_zero_iff_nil; lia).
      by rewrite take_nil.
    + simpl in Hall. apply andb_true_iff in Hall as [Hx _].
      apply take_ge. rewrite <- Hj. apply (Hd 0%nat x); [done|exact Hx].
Qed.

Lemma runner_calls_each_job_once_witness :
  map callJob
    (OneShot.invocations
       (Demo.runOneShot [Demo.job1; Demo.job2; Demo.job3] 2
          Demo.oneShotTrace)) =
  [Demo.job1; Demo.job2; Demo.job3].
Proof.
  destruct (runner_calls_each_job_once [Demo.job1; Demo.job2; Demo.job3] 2
              (Demo.runOneShot [Demo.job1; Demo.job2; Demo.job3] 2
                 Demo.oneShotTrace)) as (_ & _ & _ & H).
  - lia.
  - eapply (oneShot_reachable_run _ _ _ Demo.oneShotTrace).
    + apply OneShot.reachable_start. vm_compute. reflexivity.
    + vm_compute. reflexivity.
  - eapply H. vm_compute. reflexivity.
Defined.



(** * Utilisation *)



(** X17. The one-shot runner keeps all its workers busy while unstarted
    jobs remain: as long as the cursor has not passed the end of the job
    list, none of the [min(concurrency, number of jobs)] workers has
    returned, so exactly that many jobs are in flight. *)
Theorem runner_keeps_every_worker_busy
    (js : list Job) (c : Z) (s : OneShot.State) :
  1 ≤ c → OneShot.reachable js (OneShot.CInt c) s →
  (OneShot.nextIndex s < length js)%nat →
  (∀ w x, OneShot.workers s !! w = Some x → OneShot.isDone x = false) ∧
  Z.of_nat (length (OneShot.executing (OneShot.workers s))) =
    Z.min c (Z.of_nat (length js)).
Proof.
  intros Hc Hr Hlt.
  destruct (OneShotFacts.PoolOk_reachable _ _ _ Hr)
    as (n & [= <-] & _ & [Hj Hn _ Hd _]).
  assert (Hall : ∀ w x, OneShot.workers s !! w = Some x →
                   OneShot.isDone x = false).
  { intros w x Hw. destruct (OneShot.isDone x) eqn:E; [|done].
    specialize (Hd _ _ Hw E). rewrite Hj in Hd. lia. }
  split; [done|].
  assert (Hex : length (OneShot.executing (OneShot.workers s)) =
                length (OneShot.workers s)).
  { clear -Hall. induction (OneShot.workers s) as [|x ws IH]; [done|].
    pose proof (Hall 0%nat x eq_refl) as Hx.
    unfold OneShot.executing, OneShot.executingIndex, OneShot.isDone in *.
    simpl. destruct (OneShot.wstate x); [|done]. simpl. f_equal.
    apply IH. intros w y Hw. by apply (Hall (S w)). }
  rewrite Hex, Hn. lia.
Qed.

Lemma runner_keeps_every_worker_busy_witness :
  Z.of_nat
    (length (OneShot.executing
               (OneShot.workers
                  (Demo.oneShotStart [Demo.job1; Demo.job2; Demo.job3] 2)))) =
  Z.min 2 3.
Proof.
  destruct (runner_keeps_every_worker_busy [Demo.job1; Demo.job2; Demo.job3] 2
              (Demo.oneShotStart [Demo.job1; Demo.job2; Demo.job3] 2))
    as [_ H].
  - lia.
  - apply OneShot.reachable_start. vm_compute. reflexivity.
  - vm_compute. lia.
  - exact H.
Defined.

(** X18. [runJobs] resolves exactly when every job has an Outcome: in a
    reachable state all workers have returned if and only if [results]
    holds an Outcome at every index of the job list.  An Outcome, once
    written, is never overwritten. *)
Theorem runner_resolves_exactly_when_all_settled
    (js : list Job) (c : OneShot.Concurrency) (s : OneShot.State) :
  OneShot.reachable js c s →
  (is_Some (OneShot.resolved s) ↔
   ∀ i, (i < length js)%nat → ∃ o, OneShot.results s !! i = Some (Some o)) ∧
  (∀ e s' i o, OneShot.step s e = Some s' →
     OneShot.results s !! i = Some (Some o) →
     OneShot.results s' !! i = Some (Some o)).
Proof.
  intros Hr.
  destruct (OneShotFacts.PoolOk_reachable _ _ _ Hr)
    as (n & -> & Hn1 & [Hj Hn Hid Hd [Hnd Hcl Hst Hwr Hlen _]]).
  split.
  - split.
    + intros [res Hres] i Hi.
      destruct (OneShotFacts.resolved_in_input_order _ _ _ _ Hr Hres)
        as [_ Hall].
      destruct (lookup_lt_is_Some_2 js i Hi) as [j Hji].
      destruct (Hall _ _ Hji) as (o & Ho & _).
      unfold OneShot.resolved in Hres.
      destruct (forallb OneShot.isDone (OneShot.workers s)); [|done].
      simplify_eq. by exists o.
    + intros Hall. unfold OneShot.resolved.
      rewrite OneShotFacts.executing_none_done; [by eexists|].
      destruct (OneShot.executing (OneShot.workers s)) as [|i ex] eqn:E;
        [done|].
      destruct (Hcl i) as [_ Hi]; [by left|]. rewrite Hj in Hi.
      destruct (Hall i Hi) as (o & Ho).
      destruct (Hwr _ _ Ho) as [_ Hn']. exfalso. apply Hn'. by left.
  - intros e s' i o Hs Ho. destruct e; simpl in Hs.
    + unfold OneShot.settle in Hs.
      destruct (OneShot.workers s !! w) as [[wid [i' st nf|]]|] eqn:Hw;
        try done.
      destruct (OneShot.jobs s !! i') as [j|] eqn:Hji; [|done].
      set (s1 := OneShot.set_results _ s) in Hs.
      pose proof (OneShotFacts.workerLoop_results wid s1) as Er.
      destruct (OneShot.workerLoop wid s1) as [st' s2]. simpl in *.
      simplify_eq. simpl. rewrite Er.
      apply OneShotFacts.arraySet_lookup_ne; [|done].
      intros ->. destruct (Hwr _ _ Ho) as [_ Hn']. apply Hn'.
      apply list_elem_of_omap.
      exists (OneShot.mkWorker wid (OneShot.RExecuting i' st nf)).
      split; [by eapply list_elem_of_lookup_2|done].
    + unfold OneShot.elapse in Hs. case_match; by simplify_eq.
    + unfold OneShot.timerFire in Hs. repeat case_match; by simplify_eq.
Qed.

Lemma runner_resolves_exactly_when_all_settled_witness :
  is_Some (OneShot.resolved
             (Demo.runOneShot [Demo.job1; Demo.job2; Demo.job3] 2
                Demo.oneShotTrace)).
Proof.
  destruct (runner_resolves_exactly_when_all_settled
              [Demo.job1; Demo.job2; Demo.job3] (OneShot.CInt 2)
              (Demo.runOneShot [Demo.job1; Demo.job2; Demo.job3] 2
                 Demo.oneShotTrace)) as [[_ H] _].
  - eapply (oneShot_reachable_run _ _ _ Demo.oneShotTrace).
    + apply OneShot.reachable_start. vm_compute. reflexivity.
    + vm_compute. reflexivity.
  - apply H. intros i Hi. simpl in Hi.
    destruct i as [|[|[|i]]]; [by eexists..|lia].
Defined.

(** X19. All sleeping workers wait on one promise.  While a work-available
    promise is pending, every call of [waitForWorkAvailable] returns that
    promise and changes nothing; when none is pending the call makes a new
    promise, unresolved and different from every promise a worker already
    waits on.  Two workers that sleep on unresolved promises sleep on the
    same one, the one in the slot, so a single notification wakes them
    all. *)
Theorem sleeping_workers_share_one_promise
    (v : Variant) (c : Z) (s : State) :
  reachable v c s →
  workAvailablePromise s = resolveWorkAvailable s ∧
  (∀ p, workAvailablePromise s = Some p →
     waitForWorkAvailable s = (p, s) ∧ p ∉ signalled s) ∧
  (workAvailablePromise s = None →
     (fst (waitForWorkAvailable s) ∉ signalled s) ∧
     workAvailablePromise (snd (waitForWorkAvailable s)) =
       Some (fst (waitForWorkAvailable s)) ∧
     ∀ w co p, coroutines s !! w = Some co → wstate co = WAwaitWork p →
       p ≠ fst (waitForWorkAvailable s)) ∧
  (∀ w1 w2 co1 co2 p1 p2,
     coroutines s !! w1 = Some co1 → wstate co1 = WAwaitWork p1 →
     coroutines s !! w2 = Some co2 → wstate co2 = WAwaitWork p2 →
     p1 ∉ signalled s → p2 ∉ signalled s →
     p1 = p2 ∧ workAvailablePromise s = Some p1).
Proof.
  intros Hr. destruct (Sig_reachable _ _ _ Hr) as [Hslot Hfresh Hbound _ Hwait].
  split_and!.
  - done.
  - intros p Hp. unfold waitForWorkAvailable. rewrite Hp. split; [done|].
    rewrite Hslot in Hp. by destruct (Hfresh _ Hp).
  - intros Hnone. unfold waitForWorkAvailable. rewrite Hnone. simpl.
    split_and!; [|done|].
    + intros Hin%Hbound. lia.
    + intros w co p Hco Hp ->.
      destruct (Hwait _ _ _ Hco Hp) as [Hin%Hbound|Hs]; [lia|].
      congruence.
  - intros w1 w2 co1 co2 p1 p2 H1 Hp1 H2 Hp2 Hn1 Hn2.
    destruct (Hwait _ _ _ H1 Hp1) as [?|E1]; [done|].
    destruct (Hwait _ _ _ H2 Hp2) as [?|E2]; [done|].
    split; congruence.
Qed.

Lemma sleeping_workers_share_one_promise_witness :
  workAvailablePromise (Demo.runPool Accumulate 2 [Enqueue Demo.job1]) =
  resolveWorkAvailable (Demo.runPool Accumulate 2 [Enqueue Demo.job1]).
Proof.
  destruct (sleeping_workers_share_one_promise Accumulate 2
              (Demo.runPool Accumulate 2 [Enqueue Demo.job1])) as [H _].
  - apply (reachable_of_run _ _ [Enqueue Demo.job1]). vm_compute. reflexivity.
  - exact H.
Defined.

(** X20. The Outcomes appear in completion order.  Along any run of a pool
    engine the Outcomes delivered so far are those of the jobs that have
    ended, in the order in which they ended; in the queue class this is
    exactly what [getResults()] shows, as long as the caller has not
    written to the array: the results are ordered by completion, not by
    submission. *)
Theorem results_are_in_completion_order
    (v : Variant) (c : Z) (es : list Event) (s : State) :
  run (init v c) es = Some s →
  produced s = outcomesOf (init v c) es ∧
  (v = Accumulate → noCallerWrite es →
     deref s (getResults s) = outcomesOf (init v c) es).
Proof.
  intros Hrun.
  pose proof (produced_run v c _ _ _ (reachable_init v c) Hrun) as Hp.
  simpl in Hp. split; [done|].
  intros -> Hes.
  assert (HH : HeapOk s).
  { eapply HeapOk_run; [exact Hes| |exact Hrun]. split; [by eexists|done]. }
  destruct HH as [_ Hacc].
  pose proof (reachable_variant _ _ _ (reachable_of_run _ _ _ _ Hrun)) as Hv.
  unfold deref, getResults. rewrite (Hacc Hv). simpl. by rewrite Hp.
Qed.

Lemma results_are_in_completion_order_witness :
  deref (Demo.runPool Accumulate 2 Demo.poolTrace)
        (getResults (Demo.runPool Accumulate 2 Demo.poolTrace)) =
  [Rejected Demo.testError (properties Demo.job2);
   Fulfilled (VStr "success1") (properties Demo.job1);
   Fulfilled (VStr "success2") (properties Demo.job3)].
Proof.
  destruct (results_are_in_completion_order Accumulate 2 Demo.poolTrace
              (Demo.runPool Accumulate 2 Demo.poolTrace)) as [_ H].
  - vm_compute. reflexivity.
  - rewrite H; [vm_compute; reflexivity|reflexivity|vm_compute; reflexivity].
Defined.


(** X22. [runJobs] resolves at the last settlement, not before and not
    after: in a call with an integer concurrency of at least 1, at most
    one settlement per job can happen, and the returned promise is
    resolved exactly when the number of settlements so far equals the
    number of jobs. *)
Theorem runJobs_resolves_at_the_last_settlement
    (js : list Job) (c : Z) (s0 : OneShot.State)
    (es : list OneShot.Event) (s : OneShot.State) :
  1 ≤ c →
  OneShot.runJobs js (OneShot.CInt c) = Ok s0 →
  OneShot.run s0 es = Some s →
  (length (List.filter OneShot.isSettle es) ≤ length js)%nat ∧
  (is_Some (OneShot.resolved s) ↔
   length (List.filter OneShot.isSettle es) = length js).
Proof.
  intros Hc Hs0 Hrun.
  pose proof (OneShot.reachable_start _ _ _ Hs0) as Hr0.
  pose proof (OneShotFacts.remaining_run _ _ _ _ _ Hr0 Hrun) as Hrem.
  rewrite (OneShotFacts.remaining_start _ _ _ Hc Hs0) in Hrem.
  split; [lia|].
  rewrite (OneShotFacts.resolved_remaining js c s Hc
             (oneShot_reachable_run _ _ _ _ _ Hr0 Hrun)). lia.
Qed.

Lemma runJobs_resolves_at_the_last_settlement_witness :
  is_Some (OneShot.resolved
             (Demo.runOneShot [Demo.job1; Demo.job2; Demo.job3] 2
                Demo.oneShotTrace)).
Proof.
  destruct (runJobs_resolves_at_the_last_settlement
              [Demo.job1; Demo.job2; Demo.job3] 2
              (Demo.oneShotStart [Demo.job1; Demo.job2; Demo.job3] 2)
              Demo.oneShotTrace
              (Demo.runOneShot [Demo.job1; Demo.job2; Demo.job3] 2
                 Demo.oneShotTrace)) as [_ H].
  - lia.
  - vm_compute. reflexivity.
  - vm_compute. reflexivity.
  - apply H. vm_compute. reflexivity.
Defined.
